(** * eosjs: signature format bridge and transaction orchestration

    A shallow embedding of [src/Signature.ts] (the conversion between the
    chain's recoverable-signature bytes and the [elliptic] library's
    [(r, s, recoveryParam)] triple) and of the [Api] class of
    [dist/eosjs-api.js] (ABI cache, TAPoS generation, [transact]). *)

From Stdlib Require Import ZArith Lia.
From stdpp Require Import gmap strings list fin_maps.

Local Open Scope Z_scope.

(** ** JavaScript numbers

    Every number the modelled code handles is integer valued (byte values,
    block numbers, recovery parameters), so a number is a [Z]; the one
    non-integer that the code can produce, [NaN] (from arithmetic on
    [undefined]), is [None]. *)

Definition number : Type := option Z.

(** [a - b] *)
Definition num_sub (a b : number) : number :=
  match a, b with
  | Some x, Some y => Some (x - y)
  | _, _ => None
  end.

(** [a + b] *)
Definition num_add (a b : number) : number :=
  match a, b with
  | Some x, Some y => Some (x + y)
  | _, _ => None
  end.

(** [a > b]: any comparison with [NaN] is false. *)
Definition num_gt (a b : number) : bool :=
  match a, b with
  | Some x, Some y => x >? y
  | _, _ => false
  end.

(** [a <= b] *)
Definition num_le (a b : number) : bool :=
  match a, b with
  | Some x, Some y => x <=? y
  | _, _ => false
  end.

(** [a & b]: both operands go through ToInt32, which sends [NaN] and
    [undefined] to 0.  For the mask 3 used below the 32-bit truncation of
    the left operand does not change the two low bits, so the conjunction
    is [Z.land] on the two's complement integers. *)
Definition num_and (a : number) (mask : Z) : Z :=
  match a with
  | Some x => Z.land x mask
  | None => 0
  end.

(** ** SignatureCodec: [src/Signature.ts] *)

Module Signature.

(** [KeyType] of eosjs-numeric. *)
Inductive KeyType := k1 | r1 | wa.

(** [Key]: [{type, data}]; [data] is a [Uint8Array]. *)
Record Key := { type : KeyType; data : list Z }.

(** The object [elliptic] hands out and [toElliptic] returns.  [r] and [s]
    are [BN] big numbers, held by their magnitude. *)
Record EllipticSig := { r : Z; s : Z; recoveryParam : Z }.

(** *** The two operations of bn.js the file uses

    bn.js is a dependency, not part of the repository; the definitions
    follow its [toArrayLike] and [_initArray]. *)

(** [BN.prototype.byteLength]: [ceil(bitLength / 8)], 0 for zero. *)
Definition byteLength (n : Z) : nat :=
  if Z.abs n =? 0 then 0%nat else Z.to_nat (Z.log2 (Z.abs n) / 8 + 1).

(** The big-endian loop of [toArrayLike]:
    [for (i = 0; !q.isZero(); i++) { b = q.andln(0xff); q.iushrn(8);
    res[reqLength - i - 1] = b; }], filling the array from its end. *)
Fixpoint be_digits (fuel : nat) (q : Z) (filled : list Z) : list Z :=
  match fuel with
  | O => filled
  | S fuel' =>
      if q =? 0 then filled
      else be_digits fuel' (Z.shiftr q 8) (Z.land q 255 :: filled)
  end.

(** [bn.toArray()] with no argument: [endian] is big-endian and
    [reqLength = length || Math.max(1, byteLength)], so the array is as
    short as the number allows (one zero byte for zero). *)
Definition toArray (n : Z) : list Z :=
  let byteLen := byteLength n in
  let reqLength := Nat.max 1 byteLen in
  replicate (reqLength - byteLen) 0 ++ be_digits byteLen (Z.abs n) [].

(** [new BN(bytes)]: the bytes read as one big-endian number; the empty
    array gives 0. *)
Definition BN (bytes : list Z) : Z :=
  fold_left (fun acc b => acc * 256 + b) bytes 0.

(** *** Typed arrays *)

(** [new Uint8Array(array)]: every element is stored modulo 256. *)
Definition Uint8Array (l : list Z) : list Z := map (fun x => x mod 256) l.

(** [data.slice(from, to)] for [0 <= from <= to]; both ends are clamped to
    the length of the array. *)
Definition slice (from to : nat) (l : list Z) : list Z :=
  take (to - from) (drop from l).

(** *** [Signature.fromElliptic] *)

(** The [eosioRecoveryParam] computed in lines 26-34. *)
Definition eosioRecoveryParam (keyType : KeyType) (ellipticRecoveryParam : Z) : Z :=
  match keyType with
  | k1 =>
      let p := ellipticRecoveryParam + 27 in
      if ellipticRecoveryParam <=? 3 then p + 4 else p
  | r1 | wa => ellipticRecoveryParam
  end.

Definition fromElliptic (ellipticSig : EllipticSig) (keyType : KeyType) : Key :=
  let r := toArray (r ellipticSig) in
  let s := toArray (s ellipticSig) in
  let eosioRecoveryParam := eosioRecoveryParam keyType (recoveryParam ellipticSig) in
  let sigData := Uint8Array ([eosioRecoveryParam] ++ r ++ s) in
  {| type := keyType; data := sigData |}.

(** *** [Signature.toElliptic] *)

(** [ellipticRecoveryBitField], lines 54-62.  [data[0]] is [undefined] on
    an empty array. *)
Definition ellipticRecoveryBitField (signature : Key) : number :=
  match type signature with
  | k1 =>
      let b := num_sub (data signature !! 0%nat) (Some 27) in
      if num_gt b (Some 3) then num_sub b (Some 4) else b
  | r1 | wa => data signature !! 0%nat
  end.

Definition toElliptic (signature : Key) : EllipticSig :=
  let lengthOfR := 32%nat in
  let lengthOfS := 32%nat in
  let r := BN (slice 1 (lengthOfR + 1) (data signature)) in
  let s := BN (slice (lengthOfR + 1) (lengthOfR + lengthOfS + 1) (data signature)) in
  let recoveryParam := num_and (ellipticRecoveryBitField signature) 3 in
  {| r := r; s := s; recoveryParam := recoveryParam |}.

(** [signature.data[0]], the header byte. *)
Definition header (signature : Key) : number := data signature !! 0%nat.

(** *** The rest of the class *)

(** The curves [constructElliptic] builds an [EC] object for. *)
Inductive Curve := secp256k1 | p256.

(** [constructElliptic] *)
Definition constructElliptic (type : KeyType) : Curve :=
  match type with
  | k1 => secp256k1
  | _ => p256
  end.

(** A [Signature] object: the fields [signature] and [ec]. *)
Record SignatureObject := { signature : Key; ec : Curve }.

(** [Signature.fromElliptic] with the [ec] it passes to the constructor. *)
Definition Signature_fromElliptic (ellipticSig : EllipticSig) (keyType : KeyType)
    : SignatureObject :=
  {| signature := fromElliptic ellipticSig keyType; ec := constructElliptic keyType |}.

(** [Signature.toBinary] *)
Definition toBinary (this : SignatureObject) : list Z := data (signature this).

(** [Signature.getType] *)
Definition getType (this : SignatureObject) : KeyType := type (signature this).

Section Verify.
(** What [verify] hands over to: the [verify] method of an [EC] object of
    [elliptic], and [PublicKey.toElliptic] of [PublicKey.ts]. *)
Variables Message PublicKey EllipticKey Encoding : Type.
Variable ec_verify :
  Curve -> Message -> EllipticSig -> EllipticKey -> option Encoding -> bool.
Variable publicKey_toElliptic : PublicKey -> EllipticKey.

(** [Signature.verify] *)
Definition verify (this : SignatureObject) (message : Message) (publicKey : PublicKey)
    (encoding : option Encoding) : bool :=
  let ellipticSignature := toElliptic (signature this) in
  let ellipticPublicKey := publicKey_toElliptic publicKey in
  ec_verify (ec this) message ellipticSignature ellipticPublicKey encoding.

End Verify.

(** A byte of a [Uint8Array]. *)
Definition is_byte (b : Z) : Prop := 0 <= b < 256.

(** A stored signature in the layout [toElliptic] reads: the header, then
    [r] and [s] on 32 bytes each. *)
Definition stored_layout (signature : Key) (h : Z) (rs ss : list Z) : Prop :=
  data signature = h :: rs ++ ss
  /\ length rs = 32%nat /\ length ss = 32%nat
  /\ Forall is_byte rs /\ Forall is_byte ss.

(** A stored K1 signature: header 31, [r] of 32 bytes 1, [s] of 32 bytes 2. *)
Definition sample_stored : Key :=
  {| type := k1; data := 31 :: repeat 1 32 ++ repeat 2 32 |}.

End Signature.

(** ** TransactionOrchestrator: the [Api] class of [dist/eosjs-api.js] *)

Module Api.

(** *** Values *)

(** A [Uint8Array]. *)
Definition bytes : Type := list Z.

(** A thrown value, held by its [message]. *)
Definition Error : Type := string.

(** The [TypeError] the engine throws when a property of [undefined] is
    read. *)
Definition TypeError : Error := "TypeError".

(** A settled promise, or the outcome of a call that may throw. *)
Inductive Result (A : Type) : Type :=
| Ok (a : A)
| Err (e : Error).
Arguments Ok {A} a.
Arguments Err {A} e.

(** The shapes [Api] only passes along between its collaborators. *)
Class Shapes : Type := {
  (** [Abi], an ABI in structured form *)
  Abi : Type;
  (** the map of types [ser.getTypesFromAbi] builds, and one of its entries *)
  Types : Type;
  TypeDesc : Type;
  (** [Authorization[]] and the [data] of an action, structured or hex *)
  Authorization : Type;
  ActionData : Type;
  (** a block as [get_block] and [get_block_header_state] return it *)
  RefBlock : Type;
  (** the node's answer to [push_transaction] *)
  Receipt : Type;
}.

Section WithShapes.
Context `{Shapes}.

(** An action: [{account, name, authorization, data}]. *)
Record Action := {
  account : string;
  name : string;
  authorization : Authorization;
  data : ActionData;
}.

(** The values a field of a transaction object holds. *)
Inductive JsVal : Type :=
| JUndefined
| JNull
| JBool (b : bool)
| JNum (n : number)
| JStr (s : string)
| JActions (l : list Action)
| JBuffers (l : list bytes)
| JExtensions (l : list (Z * string)).

(** [!!v] *)
Definition truthy (v : JsVal) : bool :=
  match v with
  | JUndefined | JNull => false
  | JBool b => b
  | JNum (Some n) => negb (n =? 0)
  | JNum None => false
  | JStr s => negb (String.eqb s "")
  | JActions _ | JBuffers _ | JExtensions _ => true
  end.

(** [typeof v === 'number'] *)
Definition is_number (v : JsVal) : bool :=
  match v with
  | JNum _ => true
  | _ => false
  end.

(** [v.length]: arrays and strings have one. *)
Definition js_length (v : JsVal) : option nat :=
  match v with
  | JStr s => Some (String.length s)
  | JActions l => Some (length l)
  | JBuffers l => Some (length l)
  | JExtensions l => Some (length l)
  | _ => None
  end.

(** A plain object: its own properties.  A property that is present with
    the value [undefined] is a key bound to [JUndefined]. *)
Abbreviation Obj := (gmap string JsVal).

(** [o.k]: [undefined] for a property the object does not have. *)
Definition get (o : Obj) (k : string) : JsVal := default JUndefined (o !! k).

(** [__assign(__assign({}, a), b)], that is [{...a, ...b}]: the properties
    of [b] are written after those of [a]. *)
Definition assign (a b : Obj) : Obj := b ∪ a.

Record GetInfoResult := {
  chain_id : string;
  head_block_num : Z;
  last_irreversible_block_num : Z;
}.

(** [BinaryAbi] *)
Record BinaryAbi := { accountName : string; abi : bytes }.

(** [CachedAbi] *)
Record CachedAbi := { cached_rawAbi : bytes; cached_abi : Abi }.

(** The value [getContract] caches: [{types, actions}]. *)
Record Contract := { types : Types; actions : gmap string TypeDesc }.

(** [AuthorityProviderArgs] *)
Record AuthorityProviderArgs := {
  apa_transaction : Obj;
  apa_availableKeys : list string;
}.

(** [SignatureProviderArgs] *)
Record SignatureProviderArgs := {
  spa_chainId : option string;
  spa_requiredKeys : list string;
  spa_serializedTransaction : bytes;
  spa_serializedContextFreeData : option bytes;
  spa_abis : list BinaryAbi;
}.

(** [PushTransactionArgs]; [serializedContextFreeData] may be [null] and
    [compression] is only set by [pushCompressedSignedTransaction]. *)
Record PushTransactionArgs := {
  signatures : list string;
  compression : option Z;
  serializedTransaction : bytes;
  serializedContextFreeData : option bytes;
}.

(** [TransactConfig]; an absent field is [None]. *)
Record TransactConfig := {
  cfg_broadcast : option bool;
  cfg_sign : option bool;
  cfg_requiredKeys : option (list string);
  cfg_compression : option bool;
  cfg_blocksBehind : option number;
  cfg_useLastIrreversible : option bool;
  cfg_expireSeconds : option number;
}.

(** What [transact] resolves to: the node's response if [broadcast], the
    unsent [PushTransactionArgs] otherwise. *)
Inductive TransactResult :=
| Pushed (receipt : Receipt)
| Unsent (args : PushTransactionArgs).

(** The mutable fields of an [Api] object.  [requiredKeys] is the
    constructor's [args.requiredKeys]. *)
Record ApiState := {
  chainId : option string;
  requiredKeys : option (list string);
  cachedAbis : gmap string CachedAbi;
  contracts : gmap string Contract;
}.

(** The arguments of the constructor that end up in those fields. *)
Record ApiArgs := {
  args_chainId : option string;
  args_requiredKeys : option (list string);
}.

(** [new Api(args)]: both caches start as empty maps. *)
Definition new_Api (args : ApiArgs) : ApiState :=
  {| chainId := args_chainId args; requiredKeys := args_requiredKeys args;
     cachedAbis := ∅; contracts := ∅ |}.

Definition set_chainId (v : option string) (st : ApiState) : ApiState :=
  {| chainId := v; requiredKeys := requiredKeys st;
     cachedAbis := cachedAbis st; contracts := contracts st |}.

Definition set_cachedAbis (v : gmap string CachedAbi) (st : ApiState) : ApiState :=
  {| chainId := chainId st; requiredKeys := requiredKeys st;
     cachedAbis := v; contracts := contracts st |}.

Definition set_contracts (v : gmap string Contract) (st : ApiState) : ApiState :=
  {| chainId := chainId st; requiredKeys := requiredKeys st;
     cachedAbis := cachedAbis st; contracts := v |}.

(** What [Api] delegates to the binary codec ([eosjs-serialize], [pako]).
    None of it is under [src/]; the class lists each operation [Api] calls,
    at the type it is called at. *)
Class Codec : Type := {
  (** [new ser.SerialBuffer({array}).getString()] *)
  getString : bytes -> Result string;
  supportedAbiVersion : string -> bool;
  (** [this.abiTypes.get('abi_def').deserialize(buffer)] *)
  deserialize_abi_def : bytes -> Result Abi;
  (** [ser.getTypesFromAbi(ser.createInitialTypes(), abi)] *)
  getTypesFromAbi : Abi -> Result Types;
  (** [abi.actions], as [(name, type)] pairs *)
  abi_actions : Abi -> list (string * string);
  getType : Types -> string -> Result TypeDesc;
  serializeAction :
    Contract -> string -> string -> Authorization -> ActionData -> Result Action;
  (** [this.transactionTypes.get(type).serialize(buffer, value)] on a fresh
      buffer, then [buffer.asUint8Array()] *)
  serialize : string -> Obj -> Result bytes;
  (** the bytes [SerialBuffer.pushVaruint32(v)] appends *)
  varuint32 : Z -> bytes;
  (** [ser.transactionHeader(refBlock, expireSeconds)] *)
  transactionHeader : RefBlock -> option number -> Obj;
  (** [pako.deflate(array, {level: 9})] *)
  deflate : bytes -> bytes;
}.

Context `{Codec}.

(** *** Calls to the collaborators

    [rpc], [authorityProvider], [abiProvider] and [signatureProvider] are
    objects handed to the constructor; a request names the method called
    and its argument. *)
Inductive Request : Type :=
| get_info
| get_block (blockNumOrId : number)
| get_block_header_state (blockNumOrId : number)
| getRawAbi (accountName : string)
| getAvailableKeys
| getRequiredKeys (args : AuthorityProviderArgs)
| sign (args : SignatureProviderArgs)
| push_transaction (args : PushTransactionArgs).

(** The type of the value the promise of a request resolves to. *)
Definition Response (r : Request) : Type :=
  match r with
  | get_info => GetInfoResult
  | get_block _ | get_block_header_state _ => RefBlock
  | getRawAbi _ => BinaryAbi
  | getAvailableKeys | getRequiredKeys _ => list string
  | sign _ => PushTransactionArgs
  | push_transaction _ => Receipt
  end.

(** An asynchronous computation: it returns, or it issues a request and is
    suspended, leaving the object as [st]; it goes on from the settled
    promise and from the object as it is by then, which other tasks may have
    updated in between. *)
Inductive Prog (A : Type) : Type :=
| Ret (a : A)
| Vis (r : Request) (st : ApiState) (k : Result (Response r) -> ApiState -> Prog A).
Arguments Ret {A} a.
Arguments Vis {A} r st k.

Fixpoint prog_bind {A B} (p : Prog A) (f : A -> Prog B) : Prog B :=
  match p with
  | Ret a => f a
  | Vis r st k => Vis r st (fun x st' => prog_bind (k x st') f)
  end.

(** A method of [Api]: it reads and updates the object, and returns or
    throws.  The object keeps the updates made before a throw. *)
Definition M (A : Type) : Type := ApiState -> Prog (Result A * ApiState).

Definition ret {A} (a : A) : M A := fun st => Ret (Ok a, st).

Definition throw {A} (e : Error) : M A := fun st => Ret (Err e, st).

Definition bind {A B} (m : M A) (f : A -> M B) : M B :=
  fun st =>
    prog_bind (m st) (fun '(r, st') =>
      match r with
      | Ok a => f a st'
      | Err e => Ret (Err e, st')
      end).

(** [try { m } catch (e) { handler e }] *)
Definition try_catch {A} (m : M A) (handler : Error -> M A) : M A :=
  fun st =>
    prog_bind (m st) (fun '(r, st') =>
      match r with
      | Ok a => Ret (Ok a, st')
      | Err e => handler e st'
      end).

(** [await] of a request: a rejection is thrown at the [await]. *)
Definition await (r : Request) : M (Response r) :=
  fun st => Vis r st (fun x st' => Ret (x, st')).

(** A call of a function that may throw. *)
Definition lift {A} (x : Result A) : M A := fun st => Ret (x, st).

Definition this : M ApiState := fun st => Ret (Ok st, st).

Definition set_this (f : ApiState -> ApiState) : M unit :=
  fun st => Ret (Ok tt, f st).

Notation "x <- m ; k" := (bind m (fun x => k))
  (at level 20, m at level 100, k at level 200, only parsing).

(** *** [Promise.all(l.map(f))] for an [async] function [f]

    [l.map(f)] calls [f] on every element in turn, and a call of an [async]
    function runs until its first request is out: every task is started,
    and the first requests are all issued, before any answer is looked at.
    A task that fails does not stop the others.

    A task with no request to make is run to its end when it is started:
    the promises it awaits are settled already, and what it writes by then
    (in [Api], a contract built from a cached ABI) is what a later task for
    the same account would build and write itself. *)

(** A task once all are started: it has returned or thrown without a
    request, or its first request is out and [resume] is how it goes on
    from the answer. *)
Inductive Started (B : Type) : Type :=
| Settled (result : Result B)
| Awaiting (resume : M B).
Arguments Settled {B} result.
Arguments Awaiting {B} resume.

Fixpoint start_all {A B} (f : A -> M B) (l : list A) : M (list (Started B)) :=
  match l with
  | [] => ret []
  | x :: l' =>
      fun st =>
        match f x st with
        | Ret (result, st1) =>
            (started <- start_all f l' ; ret (Settled result :: started)) st1
        | Vis r st1 k =>
            Vis r st1 (fun answer =>
              started <- start_all f l' ; ret (Awaiting (k answer) :: started))
        end
  end.

(** The way [m] settles, as a value. *)
Definition settled {B} (m : M B) : M (Result B) :=
  fun st => prog_bind (m st) (fun '(result, st1) => Ret (Ok result, st1)).

(** The answers are taken in the order of the requests: each suspended task
    goes on from its answer and from the object as the tasks before it left
    it.  (The tasks of [Api] issue one request at most; a task with a second
    one would here finish before the next task goes on.) *)
Fixpoint settle_all {B} (started : list (Started B)) : M (list (Result B)) :=
  match started with
  | [] => ret []
  | Settled result :: started' =>
      results <- settle_all started' ;
      ret (result :: results)
  | Awaiting resume :: started' =>
      result <- settled resume ;
      results <- settle_all started' ;
      ret (result :: results)
  end.

(** The first rejection among the tasks that made no request, which settle
    before any answer arrives; among themselves they are taken in the order
    of the array. *)
Fixpoint early_rejection {B} (started : list (Started B)) : option Error :=
  match started with
  | [] => None
  | Settled (Err e) :: _ => Some e
  | _ :: started' => early_rejection started'
  end.

(** The values of the tasks in the order of the array, or the first
    rejection. *)
Fixpoint all_fulfilled {B} (results : list (Result B)) : Result (list B) :=
  match results with
  | [] => Ok []
  | Err e :: _ => Err e
  | Ok y :: results' =>
      match all_fulfilled results' with
      | Ok ys => Ok (y :: ys)
      | Err e => Err e
      end
  end.

(** [await Promise.all(l.map(f))]: the array of the values when every task
    is fulfilled, and otherwise the rejection that came first, the answers
    coming in as said above.  The object it leaves is the object when every
    task has settled. *)
Definition Promise_all {A B} (f : A -> M B) (l : list A) : M (list B) :=
  started <- start_all f l ;
  results <- settle_all started ;
  lift (match early_rejection started with
        | Some e => Err e
        | None => all_fulfilled results
        end).

(** *** ABI and contract caches *)

(** [Api.rawAbiToJson] *)
Definition rawAbiToJson (rawAbi : bytes) : Result Abi :=
  match getString rawAbi with
  | Err e => Err e
  | Ok version =>
      if negb (supportedAbiVersion version) then Err "Unsupported abi version"
      else deserialize_abi_def rawAbi
  end.

(** [Api.getCachedAbi] *)
Definition getCachedAbi (accountName : string) (reload : bool) : M CachedAbi :=
  self <- this ;
  match reload, cachedAbis self !! accountName with
  | false, Some cached => ret cached
  | _, _ =>
      cachedAbi <-
        try_catch
          (response <- await (getRawAbi accountName) ;
           let rawAbi := abi response in
           abi <- lift (rawAbiToJson rawAbi) ;
           ret (Some {| cached_rawAbi := rawAbi; cached_abi := abi |}))
          (fun e_1 => throw ("fetching abi for " +:+ accountName +:+ ": " +:+ e_1)) ;
      match cachedAbi with
      | None => throw ("Missing abi for " +:+ accountName)
      | Some cachedAbi =>
          _ <- set_this (fun st => set_cachedAbis (<[accountName := cachedAbi]> (cachedAbis st)) st) ;
          ret cachedAbi
      end
  end.

(** [Api.getAbi] *)
Definition getAbi (accountName : string) (reload : bool) : M Abi :=
  cachedAbi <- getCachedAbi accountName reload ;
  ret (cached_abi cachedAbi).

(** A value used as an [Action[]].  [undefined] makes the code throw a
    [TypeError] at the first property it reads; values of other types lie
    outside what [Transaction] declares and are given the same outcome. *)
Definition as_actions (v : JsVal) : Result (list Action) :=
  match v with
  | JActions l => Ok l
  | _ => Err TypeError
  end.

(** [v || []] used as an [Action[]]. *)
Definition actions_or_empty (v : JsVal) : Result (list Action) :=
  if truthy v then as_actions v else Ok [].

(** [[...new Set(l)]]: the elements of [l] in the order of their first
    occurrence. *)
Fixpoint Set_elements (seen l : list string) : list string :=
  match l with
  | [] => []
  | x :: l' =>
      if bool_decide (x ∈ seen) then Set_elements seen l'
      else x :: Set_elements (x :: seen) l'
  end.

(** [Api.getTransactionAbis] *)
Definition getTransactionAbis (transaction : Obj) (reload : bool) : M (list BinaryAbi) :=
  context_free_actions <- lift (actions_or_empty (get transaction "context_free_actions")) ;
  actions <- lift (as_actions (get transaction "actions")) ;
  let actions := context_free_actions ++ actions in
  let accounts := map account actions in
  let uniqueAccounts := Set_elements [] accounts in
  Promise_all
    (fun account =>
       cachedAbi <- getCachedAbi account reload ;
       ret {| accountName := account; abi := cached_rawAbi cachedAbi |})
    uniqueAccounts.

(** The loop of [getContract] that fills the [actions] map. *)
Fixpoint contract_actions (types : Types) (actions : gmap string TypeDesc)
    (l : list (string * string)) : Result (gmap string TypeDesc) :=
  match l with
  | [] => Ok actions
  | (name, type) :: l' =>
      match getType types type with
      | Ok t => contract_actions types (<[name := t]> actions) l'
      | Err e => Err e
      end
  end.

(** [Api.getContract] *)
Definition getContract (accountName : string) (reload : bool) : M Contract :=
  self <- this ;
  match reload, contracts self !! accountName with
  | false, Some contract => ret contract
  | _, _ =>
      abi <- getAbi accountName reload ;
      types <- lift (getTypesFromAbi abi) ;
      actions <- lift (contract_actions types ∅ (abi_actions abi)) ;
      let result := {| types := types; actions := actions |} in
      _ <- set_this (fun st => set_contracts (<[accountName := result]> (contracts st)) st) ;
      ret result
  end.

(** *** Serialization *)

(** The defaults [serializeTransaction] puts under the transaction. *)
Definition transaction_defaults : Obj :=
  list_to_map
    [("max_net_usage_words", JNum (Some 0)); ("max_cpu_usage_ms", JNum (Some 0));
     ("delay_sec", JNum (Some 0)); ("context_free_actions", JActions []);
     ("actions", JActions []); ("transaction_extensions", JExtensions [])].

(** [Api.serializeTransaction] *)
Definition serializeTransaction (transaction : Obj) : Result bytes :=
  serialize "transaction" (assign transaction_defaults transaction).

(** [ser.SerialBuffer], of [eosjs-serialize], which is not under [src/]; the
    spec says of it only that "a growable binary cursor supports push/read
    primitives and final byte extraction".  The methods called here are the
    library's: the buffer is the bytes pushed so far, [pushArray] appends
    the bytes given, [pushVaruint32] the variable-length encoding of a
    number, and [pushBytes] "length-prefixed binary data", that is
    [this.pushVaruint32(v.length); this.pushArray(v)]; [asUint8Array]
    extracts the content. *)
Definition SerialBuffer : Type := bytes.

Definition pushArray (buffer : SerialBuffer) (v : bytes) : SerialBuffer := buffer ++ v.

Definition pushVaruint32 (buffer : SerialBuffer) (v : Z) : SerialBuffer :=
  buffer ++ varuint32 v.

Definition pushBytes (buffer : SerialBuffer) (v : bytes) : SerialBuffer :=
  pushArray (pushVaruint32 buffer (Z.of_nat (length v))) v.

Definition asUint8Array (buffer : SerialBuffer) : bytes := buffer.

(** An item as [pushBytes] writes it: its length, then its bytes. *)
Definition length_prefixed (v : bytes) : bytes :=
  varuint32 (Z.of_nat (length v)) ++ v.

(** [!!v.length] *)
Definition has_length (v : JsVal) : bool :=
  match js_length v with
  | Some n => negb (n =? 0)%nat
  | None => false
  end.

(** [Api.serializeContextFreeData]: [null] is [None].  A non-empty string
    or array of another element type is outside [Uint8Array[]]; the model
    gives it a [TypeError]. *)
Definition serializeContextFreeData (contextFreeData : JsVal) : Result (option bytes) :=
  if negb (truthy contextFreeData) || negb (has_length contextFreeData)
  then Ok None
  else
    match contextFreeData with
    | JBuffers l =>
        let buffer : SerialBuffer := [] in
        let buffer := pushVaruint32 buffer (Z.of_nat (length l)) in
        let buffer := fold_left (fun buffer data => pushBytes buffer data) l buffer in
        Ok (Some (asUint8Array buffer))
    | _ => Err TypeError
    end.

(** [Api.serializeActions] *)
Definition serializeActions (actions : list Action) : M (list Action) :=
  Promise_all
    (fun a =>
       contract <- getContract (account a) false ;
       lift (serializeAction contract (account a) (name a) (authorization a) (data a)))
    actions.

(** *** Broadcast *)

(** [Api.pushSignedTransaction] *)
Definition pushSignedTransaction (args : PushTransactionArgs) : M Receipt :=
  await (push_transaction
    {| signatures := signatures args;
       compression := None;
       serializedTransaction := serializedTransaction args;
       serializedContextFreeData := serializedContextFreeData args |}).

(** [Api.pushCompressedSignedTransaction] *)
Definition pushCompressedSignedTransaction (args : PushTransactionArgs) : M Receipt :=
  let compressedSerializedTransaction := deflate (serializedTransaction args) in
  let compressedSerializedContextFreeData :=
    deflate (default [] (serializedContextFreeData args)) in
  await (push_transaction
    {| signatures := signatures args;
       compression := Some 1;
       serializedTransaction := compressedSerializedTransaction;
       serializedContextFreeData := Some compressedSerializedContextFreeData |}).

(** *** TAPoS *)

(** [!!useLastIrreversible] *)
Definition flag (b : option bool) : bool := default false b.

(** [typeof blocksBehind === 'number'] *)
Definition given {A} (o : option A) : bool :=
  match o with
  | Some _ => true
  | None => false
  end.

(** [!!expireSeconds] *)
Definition nonzero (n : option number) : bool :=
  match n with
  | Some (Some z) => negb (z =? 0)
  | _ => false
  end.

(** An optional number used in arithmetic: [undefined] becomes [NaN]. *)
Definition to_number (n : option number) : number := default None n.

(** [Api.tryGetBlockHeaderState] *)
Definition tryGetBlockHeaderState (taposBlockNumber : number) : M RefBlock :=
  try_catch
    (await (get_block_header_state taposBlockNumber))
    (fun error_1 => await (get_block taposBlockNumber)).

(** The [taposBlockNumber] of [generateTapos]. *)
Definition taposBlockNumber (info : GetInfoResult) (blocksBehind : option number)
    (useLastIrreversible : option bool) : number :=
  if flag useLastIrreversible then Some (last_irreversible_block_num info)
  else num_sub (Some (head_block_num info)) (to_number blocksBehind).

(** [Api.generateTapos] *)
Definition generateTapos (info : option GetInfoResult) (transaction : Obj)
    (blocksBehind : option number) (useLastIrreversible : option bool)
    (expireSeconds : option number) : M Obj :=
  info <- match info with
          | Some info => ret info
          | None => await get_info
          end ;
  let taposBlockNumber := taposBlockNumber info blocksBehind useLastIrreversible in
  refBlock <-
    (if num_le taposBlockNumber (Some (last_irreversible_block_num info))
     then await (get_block taposBlockNumber)
     else tryGetBlockHeaderState taposBlockNumber) ;
  ret (assign (transactionHeader refBlock expireSeconds) transaction).

(** [Api.hasRequiredTaposFields] *)
Definition hasRequiredTaposFields (transaction : Obj) : bool :=
  let expiration := get transaction "expiration" in
  let ref_block_num := get transaction "ref_block_num" in
  let ref_block_prefix := get transaction "ref_block_prefix" in
  truthy expiration && is_number ref_block_num && is_number ref_block_prefix.

(** *** [Api.transact] *)

(** The test of label 2:
    [!transaction.ref_block_num || !transaction.ref_block_prefix || !transaction.expiration]. *)
Definition tapos_incomplete (transaction : Obj) : bool :=
  negb (truthy (get transaction "ref_block_num"))
  || negb (truthy (get transaction "ref_block_prefix"))
  || negb (truthy (get transaction "expiration")).

(** [!!this.chainId] *)
Definition has_chainId (self : ApiState) : bool :=
  match chainId self with
  | Some id => negb (String.eqb id "")
  | None => false
  end.

(** Labels 0 (after the strategy check) and 1: the chain id is fetched when
    the object has none.  The result is the local [info], which stays
    [undefined] when nothing is fetched. *)
Definition transact_chainId : M (option GetInfoResult) :=
  self <- this ;
  if has_chainId self
  then ret None
  else
    info <- await get_info ;
    _ <- set_this (set_chainId (Some (chain_id info))) ;
    ret (Some info).

(** Labels 2 to 4: the TAPoS fields are completed and checked. *)
Definition transact_tapos (info : option GetInfoResult) (transaction : Obj)
    (blocksBehind : option number) (useLastIrreversible : option bool)
    (expireSeconds : option number) : M Obj :=
  if tapos_incomplete transaction then
    transaction <-
      (if (given blocksBehind || flag useLastIrreversible) && nonzero expireSeconds
       then generateTapos info transaction blocksBehind useLastIrreversible expireSeconds
       else ret transaction) ;
    if negb (hasRequiredTaposFields transaction)
    then throw "Required configuration or TAPOS fields are not present"
    else ret transaction
  else ret transaction.

(** Labels 9 to 13: the signing round trip. *)
Definition transact_sign (transaction : Obj) (abis : list BinaryAbi)
    (serializedTransaction : bytes) (serializedContextFreeData : option bytes)
    : M PushTransactionArgs :=
  availableKeys <- await getAvailableKeys ;
  self <- this ;
  requiredKeys <-
    match requiredKeys self with
    | None =>
        await (getRequiredKeys
          {| apa_transaction := transaction; apa_availableKeys := availableKeys |})
    | Some keys => ret keys
    end ;
  self <- this ;
  await (sign
    {| spa_chainId := chainId self;
       spa_requiredKeys := requiredKeys;
       spa_serializedTransaction := serializedTransaction;
       spa_serializedContextFreeData := serializedContextFreeData;
       spa_abis := abis |}).

(** Labels 5 to 14: ABIs, serialization, signing, broadcast. *)
Definition transact_send (transaction : Obj) (sign broadcast : bool)
    (compression : option bool) : M TransactResult :=
  abis <- getTransactionAbis transaction false ;
  context_free_actions <-
    (cfa <- lift (actions_or_empty (get transaction "context_free_actions")) ;
     serializeActions cfa) ;
  actions <- (acts <- lift (as_actions (get transaction "actions")) ; serializeActions acts) ;
  let transaction :=
    assign transaction
      (<["actions" := JActions actions]>
         {["context_free_actions" := JActions context_free_actions]}) in
  serializedTransaction <- lift (serializeTransaction transaction) ;
  serializedContextFreeData <-
    lift (serializeContextFreeData (get transaction "context_free_data")) ;
  let pushTransactionArgs :=
    {| signatures := [];
       compression := None;
       serializedTransaction := serializedTransaction;
       serializedContextFreeData := serializedContextFreeData |} in
  pushTransactionArgs <-
    (if sign
     then transact_sign transaction abis serializedTransaction serializedContextFreeData
     else ret pushTransactionArgs) ;
  if broadcast then
    if flag compression
    then receipt <- pushCompressedSignedTransaction pushTransactionArgs ; ret (Pushed receipt)
    else receipt <- pushSignedTransaction pushTransactionArgs ; ret (Pushed receipt)
  else ret (Unsent pushTransactionArgs).

(** [Api.transact]; a call without a config object is the call with [{}]. *)
Definition transact (transaction : Obj) (config : TransactConfig) : M TransactResult :=
  let broadcast := default true (cfg_broadcast config) in
  let sign := default true (cfg_sign config) in
  let compression := cfg_compression config in
  let blocksBehind := cfg_blocksBehind config in
  let useLastIrreversible := cfg_useLastIrreversible config in
  let expireSeconds := cfg_expireSeconds config in
  if given blocksBehind && flag useLastIrreversible
  then throw "Use either blocksBehind or useLastIrreversible"
  else
    info <- transact_chainId ;
    transaction <-
      transact_tapos info transaction blocksBehind useLastIrreversible expireSeconds ;
    transact_send transaction sign broadcast compression.

(** A TAPoS field is missing from a transaction: one of [expiration],
    [ref_block_num], [ref_block_prefix] is absent from the object, or is
    [undefined] or [null]. *)
Definition nullish (v : JsVal) : bool :=
  match v with
  | JUndefined | JNull => true
  | _ => false
  end.

Definition missing_tapos_field (transaction : Obj) : bool :=
  nullish (get transaction "expiration")
  || nullish (get transaction "ref_block_num")
  || nullish (get transaction "ref_block_prefix").

(** *** Running a computation against the collaborators

    The collaborators are a function from the requests issued so far and
    the request now made to the way its promise settles.  [run] returns the
    outcome with every request issued, oldest first. *)
Definition Env : Type := list Request -> forall r : Request, Result (Response r).

Fixpoint run {A} (env : Env) (issued : list Request) (p : Prog A) : A * list Request :=
  match p with
  | Ret a => (a, issued)
  | Vis r st k => run env (issued ++ [r]) (k (env issued r) st)
  end.

(** A request for a block, by either endpoint. *)
Definition block_fetch (r : Request) : bool :=
  match r with
  | get_block _ | get_block_header_state _ => true
  | _ => false
  end.

(** The promise is fulfilled. *)
Definition is_ok {A} (x : Result A) : bool :=
  match x with
  | Ok _ => true
  | Err _ => false
  end.

(** The requests a run adds to those issued before it. *)
Definition requests {A} (env : Env) (issued : list Request) (p : Prog A) : list Request :=
  drop (length issued) (run env issued p).2.

End WithShapes.

Abbreviation Obj := (gmap string JsVal).
Arguments Ret {H A} a.
Arguments Vis {H A} r st k.
Arguments Settled {H B} result.
Arguments Awaiting {H B} resume.

(** *** A small codec, to run the definitions on concrete inputs *)

(** A reference block: its time in seconds, its number and the prefix taken
    from its id. *)
Record SampleBlock := { timestamp : Z; block_num : Z; id_prefix : Z }.

Definition sample_shapes : Shapes :=
  {| Abi := list (string * string);
     Types := list (string * string);
     TypeDesc := string;
     Authorization := list (string * string);
     ActionData := string;
     RefBlock := SampleBlock;
     Receipt := string |}.

(** LEB128, seven bits a byte, for the sample codec. *)
Fixpoint leb128 (fuel : nat) (v : Z) : bytes :=
  match fuel with
  | O => []
  | S fuel' =>
      if Z.shiftr v 7 =? 0 then [v]
      else Z.lor 128 (Z.land v 127) :: leb128 fuel' (Z.shiftr v 7)
  end.

Definition sample_codec : @Codec sample_shapes :=
  {| getString := fun _ => Ok "eosio::abi/1.1";
     supportedAbiVersion := fun v => String.prefix "eosio::abi/1." v;
     deserialize_abi_def := fun raw =>
       Ok ([("transfer", "transfer")] : @Abi sample_shapes);
     getTypesFromAbi := fun abi => Ok abi;
     abi_actions := fun abi => abi;
     getType := fun types name => Ok name;
     serializeAction := fun _ account name authorization data =>
       Ok (@Build_Action sample_shapes account name authorization data);
     serialize := fun _ _ => Ok [0];
     varuint32 := leb128 5;
     transactionHeader := fun (refBlock : @RefBlock sample_shapes) expireSeconds =>
       list_to_map
         [("expiration", JNum (num_add (Some (timestamp refBlock))
                                 (default None expireSeconds)));
          ("ref_block_num", JNum (Some (Z.land (block_num refBlock) 65535)));
          ("ref_block_prefix", JNum (Some (id_prefix refBlock)))];
     deflate := fun b => b |}.

(** *** Specifications and scenarios *)

Section Specs.
Context {shapes : Shapes} {codec : Codec}.

Local Notation "x <- m ; k" := (bind m (fun x => k))
  (at level 20, m at level 100, k at level 200, only parsing).

(** The block requests section 4.2 of the spec prescribes for reference block
    [n]: the block itself when [n] is not beyond the last irreversible
    block; otherwise its header state and, exactly when that request fails,
    the block. *)
Definition tapos_block_requests (env : Env) (issued : list Request)
    (info : GetInfoResult) (n : number) : list Request :=
  if num_le n (Some (last_irreversible_block_num info))
  then [get_block n]
  else if is_ok (env issued (get_block_header_state n))
       then [get_block_header_state n]
       else [get_block_header_state n; get_block n].

(** Two successive calls of [getCachedAbi(accountName)]. *)
Definition getCachedAbi_twice (accountName : string) : M (CachedAbi * CachedAbi) :=
  first <- getCachedAbi accountName false ;
  second <- getCachedAbi accountName false ;
  ret (first, second).

(** ... followed by [getCachedAbi(accountName, true)]. *)
Definition getCachedAbi_twice_then_reload (accountName : string)
    : M (CachedAbi * CachedAbi * CachedAbi) :=
  both <- getCachedAbi_twice accountName ;
  third <- getCachedAbi accountName true ;
  ret (both.1, both.2, third).

(** The config with its [requiredKeys] field replaced. *)
Definition with_requiredKeys (keys : option (list string)) (config : TransactConfig)
    : TransactConfig :=
  {| cfg_broadcast := cfg_broadcast config;
     cfg_sign := cfg_sign config;
     cfg_requiredKeys := keys;
     cfg_compression := cfg_compression config;
     cfg_blocksBehind := cfg_blocksBehind config;
     cfg_useLastIrreversible := cfg_useLastIrreversible config;
     cfg_expireSeconds := cfg_expireSeconds config |}.

(** The keys of a [sign] request come from where the constructor said:
    they are the override [keys] when the [Api] was built with one, and
    otherwise what the authority provider answered to a [getRequiredKeys]
    request; and the authority provider is asked only when there is no
    override. *)
Definition keys_as_constructed (env : Env) (override : option (list string))
    (r : Request) : Prop :=
  match r with
  | sign args =>
      match override with
      | Some keys => spa_requiredKeys args = keys
      | None =>
          exists issued' a,
            env issued' (getRequiredKeys a) = Ok (spa_requiredKeys args)
      end
  | getRequiredKeys _ => override = None
  | _ => True
  end.

(** The object was built with [requiredKeys = override]; no method assigns
    the field afterwards. *)
Definition built (override : option (list string)) (st : ApiState) : Prop :=
  requiredKeys st = override.

(** The [requiredKeys] of the [sign] requests among [l], and whether the
    authority provider was asked. *)
Definition signed_keys (l : list Request) : list (list string) :=
  omap (fun r => match r with
                 | sign args => Some (spa_requiredKeys args)
                 | _ => None
                 end) l.

Definition authority_asked (l : list Request) : bool :=
  existsb (fun r => match r with
                    | getRequiredKeys _ => true
                    | _ => false
                    end) l.

(** The computation issues only requests that satisfy [P], leaves an object
    that satisfies [I] whenever it is suspended and when it ends, and
    returns only values that satisfy [Q]; and that however its requests are
    answered and whatever object satisfying [I] it finds when it goes on. *)
Fixpoint steady {A} (env : Env) (P : Request -> Prop) (I : ApiState -> Prop)
    (Q : A -> Prop) (p : Prog (Result A * ApiState)) : Prop :=
  match p with
  | Ret (result, st) => I st /\ forall a, result = Ok a -> Q a
  | Vis r st k =>
      P r /\ I st
      /\ forall issued st', I st' -> steady env P I Q (k (env issued r) st')
  end.

(** [m], started from an object that satisfies [I], issues only requests
    that satisfy [P], leaves an object that satisfies [I], and returns only
    values that satisfy [Q]. *)
Definition triple {A} (env : Env) (P : Request -> Prop) (I : ApiState -> Prop)
    (m : M A) (Q : A -> Prop) : Prop :=
  forall st, I st -> steady env P I Q (m st).

(** A started task keeps to [R]: what it returned does, and so does what it
    returns when it goes on. *)
Definition started_as {A B} (env : Env) (P : Request -> Prop) (I : ApiState -> Prop)
    (R : A -> B -> Prop) (x : A) (task : Started B) : Prop :=
  match task with
  | Settled result => forall b, result = Ok b -> R x b
  | Awaiting resume => triple env P I resume (R x)
  end.

(** [m] issues no request, whatever the object is. *)
Definition silent {A} (env : Env) (m : M A) : Prop :=
  triple env (fun _ => False) (fun _ => True) m (fun _ => True).

(** A started task has no request left to make. *)
Definition silent_started {B} (env : Env) (task : Started B) : Prop :=
  match task with
  | Settled _ => True
  | Awaiting resume => silent env resume
  end.

End Specs.

(** *** Sample collaborators *)

Definition sample_info : @GetInfoResult :=
  {| chain_id := "cf057bbfb72640471fd910bcb67639c22df9f92470936cddc1ade0e2f2e7dc4f";
     head_block_num := 1000;
     last_irreversible_block_num := 990 |}.

Definition sample_block (n : number) : SampleBlock :=
  {| timestamp := 1600000000; block_num := default 0 n; id_prefix := 123456789 |}.

(** A node that answers every request. *)
Definition sample_env : @Env sample_shapes :=
  fun issued r =>
    match r as r' return Result (@Response sample_shapes r') with
    | get_info => Ok sample_info
    | get_block n => Ok (sample_block n)
    | get_block_header_state n => Ok (sample_block n)
    | getRawAbi accountName =>
        Ok (@Build_BinaryAbi accountName [Z.of_nat (length issued)])
    | getAvailableKeys => Ok ["EOS_available"]
    | getRequiredKeys _ => Ok ["EOS_required"]
    | sign args =>
        Ok {| signatures := ["SIG_K1_sample"];
              compression := None;
              serializedTransaction := spa_serializedTransaction args;
              serializedContextFreeData := spa_serializedContextFreeData args |}
    | push_transaction _ => Ok "receipt"
    end.

(** A node that is down: every request is rejected. *)
Definition down_env : @Env sample_shapes :=
  fun issued r => Err "connect ECONNREFUSED".

(** [new Api({rpc, signatureProvider})] and [new Api({..., chainId})]. *)
Definition fresh_api : @ApiState sample_shapes :=
  new_Api {| args_chainId := None; args_requiredKeys := None |}.

Definition api_with_chainId : @ApiState sample_shapes :=
  set_chainId (Some (chain_id sample_info)) fresh_api.

Definition empty_config : TransactConfig :=
  {| cfg_broadcast := None; cfg_sign := None; cfg_requiredKeys := None;
     cfg_compression := None; cfg_blocksBehind := None;
     cfg_useLastIrreversible := None; cfg_expireSeconds := None |}.

(** A transfer of [eosio.token]. *)
Definition sample_transfer : @Action sample_shapes :=
  {| account := "eosio.token"; name := "transfer";
     authorization := ([("alice", "active")] : @Authorization sample_shapes);
     data := ("alice bob 1.0000 EOS" : @ActionData sample_shapes) |}.

Definition sample_transaction : gmap string (@JsVal sample_shapes) :=
  {["actions" := JActions [sample_transfer]]}.

(** [{blocksBehind: 3, expireSeconds: 30}], and the same with
    [useLastIrreversible: true] added. *)
Definition behind_config : TransactConfig :=
  {| cfg_broadcast := Some false; cfg_sign := None; cfg_requiredKeys := None;
     cfg_compression := None; cfg_blocksBehind := Some (Some 3);
     cfg_useLastIrreversible := None; cfg_expireSeconds := Some (Some 30) |}.

Definition both_config : TransactConfig :=
  {| cfg_broadcast := Some false; cfg_sign := None; cfg_requiredKeys := None;
     cfg_compression := None; cfg_blocksBehind := Some (Some 3);
     cfg_useLastIrreversible := Some true; cfg_expireSeconds := Some (Some 30) |}.

(** A transaction that carries its own [expiration]. *)
Definition dated_transaction : gmap string (@JsVal sample_shapes) :=
  <["expiration" := JStr "2020-09-13T12:26:40.000"]> sample_transaction.

(** A transaction with all three TAPoS fields, [ref_block_num] being 0. *)
Definition zero_ref_transaction : gmap string (@JsVal sample_shapes) :=
  <["ref_block_num" := JNum (Some 0)]>
    (<["ref_block_prefix" := JNum (Some 123456789)]> dated_transaction).

(** An [Api] built with [requiredKeys: ['EOS_override']]. *)
Definition api_with_requiredKeys : @ApiState sample_shapes :=
  new_Api {| args_chainId := None; args_requiredKeys := Some ["EOS_override"] |}.

(** *** The decoding half of the class *)

(** What the decoding methods of [Api] delegate to [eosjs-serialize] and
    [pako]; none of it is under [src/]. *)
Class Decoder `{Shapes} : Type := {
  (** [this.abiTypes.get('abi_def').serialize(buffer, jsonAbi)] on a fresh
      buffer: the bytes it leaves in the buffer *)
  serialize_abi_def : Abi -> Result bytes;
  (** [this.transactionTypes.get(type).deserialize(buffer)] on a buffer
      holding the given bytes *)
  deserialize : string -> bytes -> Result (gmap string JsVal);
  deserializeAction :
    Contract -> string -> string -> Authorization -> ActionData -> Result Action;
  hexToUint8Array : string -> Result bytes;
  (** [pako.inflate(array)] *)
  inflate : bytes -> Result bytes;
}.

Section Decoding.
Context {shapes : Shapes} {codec : Codec} {decoder : Decoder}.

Local Notation "x <- m ; k" := (bind m (fun x => k))
  (at level 20, m at level 100, k at level 200, only parsing).

(** [Api.jsonToRawAbi]: the version string is read back from the start of
    the bytes just written. *)
Definition jsonToRawAbi (jsonAbi : Abi) : Result bytes :=
  match serialize_abi_def jsonAbi with
  | Err e => Err e
  | Ok buffer =>
      match getString buffer with
      | Err e => Err e
      | Ok version =>
          if negb (supportedAbiVersion version) then Err "Unsupported abi version"
          else Ok buffer
      end
  end.

(** [Api.deserializeTransaction] *)
Definition deserializeTransaction (transaction : bytes) : Result Obj :=
  deserialize "transaction" transaction.

(** [Api.deserializeActions] *)
Definition deserializeActions (actions : list Action) : M (list Action) :=
  Promise_all
    (fun a =>
       contract <- getContract (account a) false ;
       lift (deserializeAction contract (account a) (name a) (authorization a) (data a)))
    actions.

(** [Api.deserializeTransactionWithActions]; the argument is a hex string
    or a [Uint8Array]. *)
Definition deserializeTransactionWithActions (transaction : string + bytes) : M Obj :=
  transaction <-
    match transaction with
    | inl hex => lift (hexToUint8Array hex)
    | inr array => ret array
    end ;
  deserializedTransaction <- lift (deserializeTransaction transaction) ;
  deserializedCFActions <-
    (cfa <- lift (as_actions (get deserializedTransaction "context_free_actions")) ;
     deserializeActions cfa) ;
  deserializedActions <-
    (acts <- lift (as_actions (get deserializedTransaction "actions")) ;
     deserializeActions acts) ;
  ret (assign deserializedTransaction
         (<["actions" := JActions deserializedActions]>
            {["context_free_actions" := JActions deserializedCFActions]})).

(** [Api.deflateSerializedArray] and [Api.inflateSerializedArray] *)
Definition deflateSerializedArray (serializedArray : bytes) : bytes :=
  deflate serializedArray.

Definition inflateSerializedArray (compressedSerializedArray : bytes) : Result bytes :=
  inflate compressedSerializedArray.

End Decoding.

(** *** Shapes of requests and of their lists *)

Section RequestShapes.
Context {shapes : Shapes}.

(** The method a request calls. *)
Definition is_get_info (r : Request) : bool :=
  match r with get_info => true | _ => false end.

Definition is_getRawAbi (r : Request) : bool :=
  match r with getRawAbi _ => true | _ => false end.

Definition is_push_transaction (r : Request) : bool :=
  match r with push_transaction _ => true | _ => false end.

(** A request to the signature provider or, for its sake, to the authority
    provider. *)
Definition is_signing (r : Request) : bool :=
  match r with
  | getAvailableKeys | getRequiredKeys _ | sign _ => true
  | _ => false
  end.

(** The requests of one signing, as labels 9 to 13 of [transact] make them:
    the signature provider is asked for the keys at hand; unless the [Api]
    was built with [requiredKeys], the authority provider is asked which of
    those keys the transaction requires; and the signature provider is
    asked to sign, with the constructor's keys or else with the authority
    provider's answer. *)
Definition signing_requests (env : Env) (override : option (list string))
    (l : list Request) : Prop :=
  exists args : SignatureProviderArgs,
    match override with
    | Some keys => l = [getAvailableKeys; sign args] /\ spa_requiredKeys args = keys
    | None =>
        exists (a : AuthorityProviderArgs) issued0 issued1,
          l = [getAvailableKeys; getRequiredKeys a; sign args]
          /\ env issued0 getAvailableKeys = Ok (apa_availableKeys a)
          /\ env issued1 (getRequiredKeys a) = Ok (spa_requiredKeys args)
    end.

(** Among the requests [l] there is one signing, and no other request to
    the signature provider or the authority provider. *)
Definition signs_once (env : Env) (override : option (list string))
    (l : list Request) : Prop :=
  exists before signing after,
    l = before ++ signing ++ after
    /\ signing_requests env override signing
    /\ Forall (fun r => is_signing r = false) before
    /\ Forall (fun r => is_signing r = false) after.

(** [m], started from an object that satisfies [I], leaves one that does,
    and when it returns, the requests it has issued satisfy [Q]. *)
Definition eventually {A} (env : Env) (I : ApiState -> Prop) (m : M A)
    (Q : list Request -> Prop) : Prop :=
  forall issued st, I st ->
    I (run env issued (m st)).1.2
    /\ forall a, (run env issued (m st)).1.1 = Ok a -> Q (requests env issued (m st)).

(** The accounts of the actions of a transaction, context-free ones first,
    as [getTransactionAbis] collects them. *)
Definition transaction_accounts (transaction : Obj) : list string :=
  match actions_or_empty (get transaction "context_free_actions"),
        as_actions (get transaction "actions") with
  | Ok cfa, Ok acts => map account (cfa ++ acts)
  | _, _ => []
  end.

(** The [(name, type)] pair that declares [name] last in [l]. *)
Fixpoint last_declared (name : string) (l : list (string * string)) : option string :=
  match l with
  | [] => None
  | (n, t) :: l' =>
      match last_declared name l' with
      | Some t' => Some t'
      | None => if String.eqb n name then Some t else None
      end
  end.

(** The entry a cache answers with: none when [reload] is set. *)
Definition cache_hit {A} (reload : bool) (entry : option A) : option A :=
  if reload then None else entry.

(** [getCachedAbi] has to ask for the ABI of the account: [reload] is set or
    the cache has no entry. *)
Definition abi_needed (reload : bool) (st : ApiState) (accountName : string) : bool :=
  match cache_hit reload (cachedAbis st !! accountName) with
  | Some _ => false
  | None => true
  end.

(** [getContract] has to ask for the ABI of the account: neither the
    contract nor the ABI is at hand. *)
Definition contract_needed (reload : bool) (st : ApiState) (accountName : string) : bool :=
  match cache_hit reload (contracts st !! accountName) with
  | Some _ => false
  | None => abi_needed reload st accountName
  end.

(** The message [getCachedAbi] rethrows a failure under. *)
Definition fetching_abi_error (accountName : string) (cause : Error) : Error :=
  "fetching abi for " +:+ accountName +:+ ": " +:+ cause.

(** The transaction has a TAPoS field of its own that
    [hasRequiredTaposFields] rejects: a falsy [expiration], or a
    [ref_block_num] or [ref_block_prefix] that is not a number. *)
Definition pinned_invalid (transaction : Obj) : bool :=
  match transaction !! "expiration" with
  | Some v => negb (truthy v)
  | None => false
  end
  || match transaction !! "ref_block_num" with
     | Some v => negb (is_number v)
     | None => false
     end
  || match transaction !! "ref_block_prefix" with
     | Some v => negb (is_number v)
     | None => false
     end.

(** How many of the requests are [get_info]. *)
Definition count_get_info (l : list Request) : nat :=
  length (List.filter is_get_info l).

(** The config asks for TAPoS generation: the test of label 2's inner
    branch. *)
Definition strategy_configured (config : TransactConfig) : bool :=
  (given (cfg_blocksBehind config) || flag (cfg_useLastIrreversible config))
  && nonzero (cfg_expireSeconds config).

(** Both strategies at once: the test of label 0. *)
Definition both_strategies (config : TransactConfig) : bool :=
  given (cfg_blocksBehind config) && flag (cfg_useLastIrreversible config).

(** What [transact] hands to the broadcast, and returns when there is
    none: the answer of the signature provider if it signs, its own
    arguments with no signature otherwise. *)
Definition handed_over (env : Env) (sign : bool) (args : PushTransactionArgs) : Prop :=
  if sign then exists issued' a, env issued' (Api.sign a) = Ok args
  else signatures args = [] /\ compression args = None.

(** The argument of the [push_transaction] request made for [args]:
    [pushCompressedSignedTransaction] when [compression] is set,
    [pushSignedTransaction] otherwise. *)
Definition pushed_for `{Codec} (compression : option bool) (args : PushTransactionArgs)
    : PushTransactionArgs :=
  if flag compression then
    {| signatures := signatures args;
       Api.compression := Some 1;
       serializedTransaction := deflate (serializedTransaction args);
       serializedContextFreeData :=
         Some (deflate (default [] (serializedContextFreeData args))) |}
  else
    {| signatures := signatures args;
       Api.compression := None;
       serializedTransaction := serializedTransaction args;
       serializedContextFreeData := serializedContextFreeData args |}.

(** What [serializeActions] makes of one action. *)
Definition serialized_from `{Codec} (a s : Action) : Prop :=
  exists contract,
    serializeAction contract (account a) (name a) (authorization a) (data a) = Ok s.

(** What [deserializeActions] makes of one action. *)
Definition deserialized_from `{Decoder} (a d : Action) : Prop :=
  exists contract,
    deserializeAction contract (account a) (name a) (authorization a) (data a) = Ok d.

End RequestShapes.

(** A sample decoder: the raw ABI of the sample codec, and transactions
    whose bytes are not looked at. *)
Definition sample_decoder : @Decoder sample_shapes :=
  {| serialize_abi_def := fun _ => Ok [14; 101];
     deserialize := fun _ _ => Ok sample_transaction;
     deserializeAction := fun _ account name authorization data =>
       Ok (@Build_Action sample_shapes account name authorization data);
     hexToUint8Array := fun hex => Ok [0];
     inflate := fun b => Ok b |}.

(** An action of a second account, and a transaction with one action of
    each. *)
Definition sample_propose : @Action sample_shapes :=
  {| account := "eosio.msig"; name := "propose";
     authorization := ([("alice", "active")] : @Authorization sample_shapes);
     data := ("alice proposal" : @ActionData sample_shapes) |}.

Definition two_account_transaction : gmap string (@JsVal sample_shapes) :=
  {["actions" := JActions [sample_transfer; sample_propose]]}.

(** An ABI provider that fails for [eosio.token]; everything else is
    answered as before. *)
Definition flaky_env : @Env sample_shapes :=
  fun issued r =>
    match r as r' return Result (@Response sample_shapes r') with
    | getRawAbi accountName =>
        if String.eqb accountName "eosio.token" then Err "connect ECONNREFUSED"
        else sample_env issued (getRawAbi accountName)
    | r' => sample_env issued r'
    end.

(** [{sign: false, blocksBehind: 3, expireSeconds: 30}] *)
Definition unsigned_config : TransactConfig :=
  {| cfg_broadcast := None; cfg_sign := Some false; cfg_requiredKeys := None;
     cfg_compression := None; cfg_blocksBehind := Some (Some 3);
     cfg_useLastIrreversible := None; cfg_expireSeconds := Some (Some 30) |}.

(** A transaction with its three TAPoS fields set and truthy. *)
Definition complete_transaction : gmap string (@JsVal sample_shapes) :=
  <["ref_block_num" := JNum (Some 997)]>
    (<["ref_block_prefix" := JNum (Some 123456789)]> dated_transaction).

(** [{expiration: undefined, actions: [...]}] *)
Definition undated_transaction : gmap string (@JsVal sample_shapes) :=
  <["expiration" := JUndefined]> sample_transaction.

End Api.

(** * Properties of the signature codec *)

Section SignatureFacts.
Import Signature.

Example toArray_zero : toArray 0 = [0].
Proof. reflexivity. Qed.

Example toArray_two_bytes : toArray 258 = [1; 2].
Proof. reflexivity. Qed.

Example toArray_full_width : length (toArray (2 ^ 255 + 1)) = 32%nat.
Proof. vm_compute. reflexivity. Qed.

Lemma land_3_range (x : Z) : 0 <= Z.land x 3 <= 3.
Proof.
  assert (Z.land x 3 = x mod 4) as ->.
  { change 3 with (Z.ones 2). by rewrite Z.land_ones. }
  pose proof (Z.mod_pos_bound x 4). lia.
Qed.

Lemma header_fromElliptic (ellipticSig : EllipticSig) (keyType : KeyType) :
  header (fromElliptic ellipticSig keyType)
  = Some (eosioRecoveryParam keyType (recoveryParam ellipticSig) mod 256).
Proof. reflexivity. Qed.

(** C2: for [k1] a recovery parameter in 0..3 gives the header byte
    [recoveryParam + 27 + 4], which lies in 31..34; for [r1] and [wa] the
    header is the recovery parameter itself (as computed, and as stored in
    the byte array for any value a byte can hold); and [toElliptic] of any
    stored signature returns a recovery parameter in 0..3. *)
Theorem header_and_recoveryParam_ranges (ellipticSig : EllipticSig)
    (keyType : KeyType) (stored : Key) :
  (0 <= recoveryParam ellipticSig <= 3 ->
   header (fromElliptic ellipticSig k1) = Some (recoveryParam ellipticSig + 27 + 4)
   /\ 31 <= recoveryParam ellipticSig + 27 + 4 <= 34)
  /\ (keyType = r1 \/ keyType = wa ->
      eosioRecoveryParam keyType (recoveryParam ellipticSig) = recoveryParam ellipticSig
      /\ (0 <= recoveryParam ellipticSig < 256 ->
          header (fromElliptic ellipticSig keyType) = Some (recoveryParam ellipticSig)))
  /\ 0 <= recoveryParam (toElliptic stored) <= 3.
Proof.
  split; [| split].
  - intros Hrp. split; [| lia].
    rewrite header_fromElliptic. unfold eosioRecoveryParam.
    destruct (Z.leb_spec (recoveryParam ellipticSig) 3); [| lia].
    f_equal. apply Z.mod_small. lia.
  - intros Hkt.
    assert (Heq : eosioRecoveryParam keyType (recoveryParam ellipticSig)
                  = recoveryParam ellipticSig) by (by destruct Hkt as [-> | ->]).
    split; [exact Heq |]. intros Hrp.
    rewrite header_fromElliptic, Heq. f_equal. by apply Z.mod_small.
  - unfold toElliptic. simpl.
    destruct (ellipticRecoveryBitField stored) as [b |]; simpl; [apply land_3_range | lia].
Qed.

(** *** What does hold of the round trip *)

Lemma land_3_mod (x : Z) : Z.land x 3 = x mod 4.
Proof. change 3 with (Z.ones 2). by rewrite Z.land_ones. Qed.

(** The recovery parameter comes back masked to its two low bits, for every
    key type and every integer. *)
Lemma recoveryParam_round_trip (ellipticSig : EllipticSig) (keyType : KeyType) :
  recoveryParam (toElliptic (fromElliptic ellipticSig keyType))
  = Z.land (recoveryParam ellipticSig) 3.
Proof.
  unfold toElliptic, ellipticRecoveryBitField, fromElliptic, eosioRecoveryParam. simpl.
  set (rp := recoveryParam ellipticSig).
  destruct keyType; simpl; rewrite ?land_3_mod.
  - destruct (Z.leb_spec rp 3);
      match goal with
      | |- context [?a >? 3] => rewrite (Z.gtb_ltb a 3); destruct (Z.ltb_spec 3 a)
      end; simpl; rewrite land_3_mod; Z.div_mod_to_equations; lia.
  - Z.div_mod_to_equations; lia.
  - Z.div_mod_to_equations; lia.
Qed.

Lemma BN_from (bytes : list Z) (acc : Z) :
  fold_left (fun acc b => acc * 256 + b) bytes acc
  = acc * 256 ^ Z.of_nat (length bytes) + BN bytes.
Proof.
  unfold BN. revert acc. induction bytes as [| b bytes IH]; intros acc.
  - simpl. lia.
  - cbn [fold_left length]. rewrite IH, (IH (0 * 256 + b)).
    rewrite Nat2Z.inj_succ, Z.pow_succ_r by lia. ring.
Qed.

Lemma BN_snoc (bytes : list Z) (b : Z) : BN (bytes ++ [b]) = BN bytes * 256 + b.
Proof. unfold BN. by rewrite fold_left_app. Qed.

Lemma be_digits_app (fuel : nat) (q : Z) (filled : list Z) :
  be_digits fuel q filled = be_digits fuel q [] ++ filled.
Proof.
  revert q filled. induction fuel as [| fuel IH]; intros q filled; simpl; [reflexivity |].
  destruct (q =? 0); [reflexivity |].
  rewrite IH, (IH _ [_]), <- app_assoc. reflexivity.
Qed.

Lemma BN_be_digits (fuel : nat) (q : Z) :
  0 <= q < 256 ^ Z.of_nat fuel -> BN (be_digits fuel q []) = q.
Proof.
  revert q. induction fuel as [| fuel IH]; intros q Hq.
  - simpl in *. unfold BN. simpl. lia.
  - cbn [be_digits]. destruct (Z.eqb_spec q 0) as [-> | Hne]; [reflexivity |].
    rewrite be_digits_app, BN_snoc.
    change 255 with (Z.ones 8). rewrite Z.land_ones, Z.shiftr_div_pow2 by lia.
    change (2 ^ 8) with 256.
    rewrite Nat2Z.inj_succ, Z.pow_succ_r in Hq by lia.
    rewrite IH; [| split; [apply Z.div_pos; lia | apply Z.div_lt_upper_bound; lia]].
    pose proof (Z.div_mod q 256). lia.
Qed.

Lemma length_be_digits (fuel : nat) (q : Z) :
  256 ^ (Z.of_nat fuel - 1) <= q -> length (be_digits fuel q []) = fuel.
Proof.
  revert q. induction fuel as [| fuel IH]; intros q Hq; [reflexivity |].
  cbn [be_digits].
  replace (Z.of_nat (S fuel) - 1) with (Z.of_nat fuel) in Hq by lia.
  assert (0 < 256 ^ Z.of_nat fuel) by (apply Z.pow_pos_nonneg; lia).
  destruct (Z.eqb_spec q 0) as [-> | Hne]; [lia |].
  rewrite be_digits_app, length_app, IH; [simpl; lia |].
  rewrite Z.shiftr_div_pow2 by lia. change (2 ^ 8) with 256.
  destruct fuel as [| fuel].
  - simpl. apply Z.div_pos; lia.
  - replace (Z.of_nat (S fuel) - 1) with (Z.of_nat fuel) by lia.
    rewrite Nat2Z.inj_succ, Z.pow_succ_r in Hq by lia.
    apply Z.div_le_lower_bound; lia.
Qed.

Lemma be_digits_bytes (fuel : nat) (q : Z) :
  Forall (fun b => 0 <= b < 256) (be_digits fuel q []).
Proof.
  revert q. induction fuel as [| fuel IH]; intros q; simpl; [constructor |].
  destruct (q =? 0); [constructor |].
  rewrite be_digits_app. apply Forall_app. split; [apply IH |].
  constructor; [| constructor].
  change 255 with (Z.ones 8). rewrite Z.land_ones by lia. apply Z.mod_pos_bound. lia.
Qed.

Lemma Uint8Array_bytes (l : list Z) :
  Forall (fun b => 0 <= b < 256) l -> Uint8Array l = l.
Proof.
  unfold Uint8Array. induction 1 as [| b l Hb _ IH]; simpl; [reflexivity |].
  by rewrite IH, Z.mod_small.
Qed.

(** A number that needs all 32 bytes is encoded on 32 bytes. *)
Lemma toArray_full_width_bytes (n : Z) :
  2 ^ 248 <= n < 2 ^ 256 ->
  length (toArray n) = 32%nat /\ BN (toArray n) = n /\ Uint8Array (toArray n) = toArray n.
Proof.
  intros Hn.
  assert (Habs : Z.abs n = n) by lia.
  assert (Hlen : byteLength n = 32%nat).
  { unfold byteLength. rewrite Habs. destruct (Z.eqb_spec n 0); [lia |].
    pose proof (Z.log2_spec n ltac:(lia)) as [Hlo Hhi].
    assert (Z.log2 n < 256).
    { apply (Z.pow_lt_mono_r_iff 2); lia. }
    assert (248 < Z.succ (Z.log2 n)).
    { apply (Z.pow_lt_mono_r_iff 2); [lia | pose proof (Z.log2_nonneg n); lia | lia]. }
    assert (Z.log2 n / 8 = 31) as -> by (Z.div_mod_to_equations; lia).
    reflexivity. }
  unfold toArray. rewrite Hlen, Habs. cbn [Nat.max Nat.sub replicate app].
  split; [| split].
  - apply length_be_digits. change (256 ^ (Z.of_nat 32 - 1)) with (2 ^ 248). lia.
  - apply BN_be_digits. change (256 ^ Z.of_nat 32) with (2 ^ 256). lia.
  - apply Uint8Array_bytes, be_digits_bytes.
Qed.

(** When [r] and [s] both need all 32 bytes, the buffer has 65 bytes and
    the round trip gives [r] and [s] back. *)
Lemma round_trip_full_width (ellipticSig : EllipticSig) (keyType : KeyType) :
  2 ^ 248 <= r ellipticSig < 2 ^ 256 ->
  2 ^ 248 <= s ellipticSig < 2 ^ 256 ->
  length (data (fromElliptic ellipticSig keyType)) = 65%nat
  /\ toElliptic (fromElliptic ellipticSig keyType)
     = {| r := r ellipticSig; s := s ellipticSig;
          recoveryParam := Z.land (recoveryParam ellipticSig) 3 |}.
Proof.
  intros Hr Hs.
  destruct (toArray_full_width_bytes _ Hr) as (Hlr & HBr & Hur).
  destruct (toArray_full_width_bytes _ Hs) as (Hls & HBs & Hus).
  pose proof (recoveryParam_round_trip ellipticSig keyType) as Hrp.
  assert (Hdata : data (fromElliptic ellipticSig keyType)
    = (eosioRecoveryParam keyType (recoveryParam ellipticSig) mod 256)
        :: toArray (r ellipticSig) ++ toArray (s ellipticSig)).
  { unfold fromElliptic, Uint8Array. simpl. rewrite map_app.
    fold (Uint8Array (toArray (r ellipticSig))). fold (Uint8Array (toArray (s ellipticSig))).
    by rewrite Hur, Hus. }
  split.
  - rewrite Hdata. simpl. rewrite length_app. lia.
  - unfold toElliptic in *. simpl in Hrp. rewrite Hrp. rewrite Hdata. f_equal.
    + unfold slice. change (32 + 1 - 1)%nat with 32%nat. cbn [drop].
      rewrite drop_0, take_app_length' by done. exact HBr.
    + unfold slice.
      change (32 + 1)%nat with (S 32). change (32 + 32 + 1 - 33)%nat with 32%nat.
      cbn [drop]. rewrite drop_app_length' by done.
      rewrite take_ge by (rewrite Hls; simpl; lia). exact HBs.
Qed.

(** C1, at a signature whose [r] needs only 31 bytes:
    [r = 2^247], [s = 2^255 + 1], [recoveryParam = 1].  [fromElliptic]
    stores 64 bytes, not 65, and [toElliptic] reads the first byte of [s]
    as the last byte of [r]: neither [r] nor [s] comes back. *)
Theorem fromElliptic_unpadded_r :
  let ellipticSig := {| r := 2 ^ 247; s := 2 ^ 255 + 1; recoveryParam := 1 |} in
  let stored := fromElliptic ellipticSig k1 in
  length (data stored) = 64%nat
  /\ r (toElliptic stored) = 2 ^ 255 + 128
  /\ s (toElliptic stored) = 1
  /\ recoveryParam (toElliptic stored) = 1
  /\ r (toElliptic stored) <> r ellipticSig
  /\ s (toElliptic stored) <> s ellipticSig.
Proof. vm_compute. repeat split; intros [=]. Qed.

(** The same on the smallest values: three bytes are stored. *)
Example fromElliptic_tiny :
  let stored := fromElliptic {| r := 1; s := 2; recoveryParam := 0 |} k1 in
  data stored = [31; 1; 2]
  /\ toElliptic stored = {| r := 258; s := 0; recoveryParam := 0 |}.
Proof. vm_compute. split; reflexivity. Qed.

End SignatureFacts.

(** * More on the signature codec *)

Section SignatureMore.
Import Signature.

(** *** Byte arrays of big numbers *)

Lemma byteLength_bounds (n : Z) :
  0 < n ->
  256 ^ (Z.of_nat (byteLength n) - 1) <= n < 256 ^ Z.of_nat (byteLength n).
Proof.
  intros Hn. unfold byteLength. rewrite Z.abs_eq by lia.
  destruct (Z.eqb_spec n 0); [lia |].
  pose proof (Z.log2_spec n Hn) as [Hlo Hhi].
  pose proof (Z.log2_nonneg n).
  set (L := Z.log2 n) in *.
  assert (Hk : 0 <= L / 8) by (apply Z.div_pos; lia).
  rewrite Z2Nat.id by lia.
  replace (L / 8 + 1 - 1) with (L / 8) by lia.
  change 256 with (2 ^ 8). rewrite <- !Z.pow_mul_r by lia.
  split.
  - etransitivity; [| exact Hlo].
    apply Z.pow_le_mono_r; [lia |]. Z.div_mod_to_equations; lia.
  - eapply Z.lt_le_trans; [exact Hhi |].
    apply Z.pow_le_mono_r; [lia |]. Z.div_mod_to_equations; lia.
Qed.

Lemma byteLength_positive (n : Z) : 0 < n -> (1 <= byteLength n)%nat.
Proof.
  intros Hn. destruct (byteLength_bounds n Hn) as [_ Hhi].
  destruct (byteLength n); [simpl in Hhi; lia | lia].
Qed.

(** The number of bytes is fixed by the powers of 256 around the number. *)
Lemma byteLength_unique (n : Z) (k : nat) :
  256 ^ (Z.of_nat k - 1) <= n < 256 ^ Z.of_nat k -> 0 < n -> byteLength n = k.
Proof.
  intros [Hlo Hhi] Hn. destruct (byteLength_bounds n Hn) as [Blo Bhi].
  pose proof (byteLength_positive n Hn).
  assert (Hk : (1 <= k)%nat).
  { destruct k; [simpl in Hhi; lia | lia]. }
  assert (Z.of_nat (byteLength n) - 1 < Z.of_nat k).
  { apply (Z.pow_lt_mono_r_iff 256); lia. }
  assert (Z.of_nat k - 1 < Z.of_nat (byteLength n)).
  { apply (Z.pow_lt_mono_r_iff 256); lia. }
  lia.
Qed.

Lemma length_toArray (n : Z) :
  0 <= n -> length (toArray n) = Nat.max 1 (byteLength n).
Proof.
  intros Hn. unfold toArray. rewrite length_app, length_replicate.
  destruct (Z.eq_dec n 0) as [-> | Hne]; [reflexivity |].
  rewrite Z.abs_eq by lia.
  rewrite length_be_digits; [lia |]. apply byteLength_bounds. lia.
Qed.

Lemma toArray_positive (n : Z) :
  0 < n -> toArray n = be_digits (byteLength n) n [].
Proof.
  intros Hn. unfold toArray. rewrite Z.abs_eq by lia.
  pose proof (byteLength_positive n Hn).
  replace (Nat.max 1 (byteLength n) - byteLength n)%nat with 0%nat by lia.
  reflexivity.
Qed.

Lemma BN_toArray (n : Z) : 0 <= n -> BN (toArray n) = n.
Proof.
  intros Hn. destruct (Z.eq_dec n 0) as [-> | Hne]; [reflexivity |].
  rewrite toArray_positive by lia.
  apply BN_be_digits. split; [lia | apply byteLength_bounds; lia].
Qed.

Lemma toArray_bytes (n : Z) : Forall is_byte (toArray n).
Proof.
  unfold toArray. apply Forall_app. split.
  - apply Forall_replicate. unfold is_byte. lia.
  - apply be_digits_bytes.
Qed.

Lemma Uint8Array_toArray (n : Z) : Uint8Array (toArray n) = toArray n.
Proof. apply Uint8Array_bytes, toArray_bytes. Qed.

(** A number below [2^256] takes 1 to 32 bytes, and 32 exactly from
    [2^248] on. *)
Lemma length_toArray_range (n : Z) :
  0 <= n < 2 ^ 256 ->
  (1 <= length (toArray n) <= 32)%nat
  /\ (length (toArray n) = 32%nat <-> 2 ^ 248 <= n).
Proof.
  intros Hn. rewrite length_toArray by lia.
  destruct (Z.eq_dec n 0) as [-> | Hne].
  - change (byteLength 0) with 0%nat. simpl. split; [lia |]. split; [lia |].
    intros Hbig. assert (0 < 2 ^ 248) by (apply Z.pow_pos_nonneg; lia). lia.
  - destruct (byteLength_bounds n ltac:(lia)) as [Blo Bhi].
    pose proof (byteLength_positive n ltac:(lia)) as Hpos.
    set (k := byteLength n) in *.
    change (2 ^ 256) with (256 ^ 32) in Hn. change (2 ^ 248) with (256 ^ 31).
    assert (Z.of_nat k - 1 < 32).
    { apply (Z.pow_lt_mono_r_iff 256); lia. }
    split; [lia |]. split.
    + intros Hk. replace (Z.of_nat k - 1) with 31 in Blo by lia. exact Blo.
    + intros Hbig. assert (31 < Z.of_nat k).
      { apply (Z.pow_lt_mono_r_iff 256); lia. }
      lia.
Qed.

Lemma data_fromElliptic (ellipticSig : EllipticSig) (keyType : KeyType) :
  data (fromElliptic ellipticSig keyType)
  = eosioRecoveryParam keyType (recoveryParam ellipticSig) mod 256
      :: toArray (r ellipticSig) ++ toArray (s ellipticSig).
Proof.
  unfold fromElliptic, Uint8Array. simpl. rewrite map_app.
  fold (Uint8Array (toArray (r ellipticSig))).
  fold (Uint8Array (toArray (s ellipticSig))).
  by rewrite !Uint8Array_toArray.
Qed.

(** X1: for [r] and [s] below [2^256], [fromElliptic] stores the header
    followed by the shortest encodings of [r] and [s]; the buffer has
    between 3 and 65 bytes, and it has the 65 bytes of the chain's format
    exactly when both [r] and [s] are at least [2^248]. *)
Theorem fromElliptic_buffer_length (ellipticSig : EllipticSig) (keyType : KeyType) :
  0 <= r ellipticSig < 2 ^ 256 ->
  0 <= s ellipticSig < 2 ^ 256 ->
  data (fromElliptic ellipticSig keyType)
  = eosioRecoveryParam keyType (recoveryParam ellipticSig) mod 256
      :: toArray (r ellipticSig) ++ toArray (s ellipticSig)
  /\ (3 <= length (data (fromElliptic ellipticSig keyType)) <= 65)%nat
  /\ (length (data (fromElliptic ellipticSig keyType)) = 65%nat
      <-> 2 ^ 248 <= r ellipticSig /\ 2 ^ 248 <= s ellipticSig).
Proof.
  intros Hr Hs. split; [apply data_fromElliptic |].
  rewrite data_fromElliptic. cbn [length]. rewrite length_app.
  destruct (length_toArray_range _ Hr) as [Hlr Hbr].
  destruct (length_toArray_range _ Hs) as [Hls Hbs].
  split; [lia |]. split.
  - intros Hlen. split; [apply Hbr | apply Hbs]; lia.
  - intros [Hbigr Hbigs]. apply Hbr in Hbigr. apply Hbs in Hbigs. lia.
Qed.

(** *** Decoding the header *)

Lemma recoveryParam_toElliptic (stored : Key) :
  recoveryParam (toElliptic stored)
  = match header stored with
    | None => 0
    | Some h =>
        match type stored with
        | k1 => (h - 27) mod 4
        | r1 | wa => h mod 4
        end
    end.
Proof.
  unfold toElliptic, ellipticRecoveryBitField, header. cbn [recoveryParam].
  destruct (data stored !! 0%nat) as [h |]; destruct (type stored); simpl;
    try reflexivity; try apply land_3_mod.
  rewrite (Z.gtb_ltb (h - 27) 3). destruct (Z.ltb_spec 3 (h - 27)); simpl;
    rewrite land_3_mod; Z.div_mod_to_equations; lia.
Qed.

(** X2: [toElliptic] reads the recovery parameter off the header byte alone:
    [(header - 27) mod 4] for [k1], [header mod 4] for [r1] and [wa], and 0
    when there is no byte.  A [k1] signature therefore decodes the same
    under the header [h] and the header [h + 4]. *)
Theorem toElliptic_recoveryParam_of_header (stored : Key) :
  recoveryParam (toElliptic stored)
  = match header stored with
    | None => 0
    | Some h =>
        match type stored with
        | k1 => (h - 27) mod 4
        | r1 | wa => h mod 4
        end
    end
  /\ forall (h : Z) (rest : list Z),
       toElliptic {| type := k1; data := h + 4 :: rest |}
       = toElliptic {| type := k1; data := h :: rest |}.
Proof.
  split; [apply recoveryParam_toElliptic |].
  - intros h rest. unfold toElliptic, ellipticRecoveryBitField, slice. simpl.
    f_equal.
    rewrite (Z.gtb_ltb (h + 4 - 27) 3), (Z.gtb_ltb (h - 27) 3).
    destruct (Z.ltb_spec 3 (h + 4 - 27)), (Z.ltb_spec 3 (h - 27)); simpl;
      rewrite !land_3_mod; Z.div_mod_to_equations; lia.
Qed.

(** X3: whatever the key type and the bytes of [r] and [s], the recovery
    parameter that comes back from [fromElliptic] then [toElliptic] is the
    original one modulo 4; a parameter in 0..3 comes back unchanged. *)
Theorem recoveryParam_survives_round_trip (ellipticSig : EllipticSig)
    (keyType : KeyType) :
  recoveryParam (toElliptic (fromElliptic ellipticSig keyType))
  = recoveryParam ellipticSig mod 4
  /\ (0 <= recoveryParam ellipticSig <= 3 ->
      recoveryParam (toElliptic (fromElliptic ellipticSig keyType))
      = recoveryParam ellipticSig).
Proof.
  rewrite recoveryParam_round_trip, land_3_mod. split; [reflexivity |].
  intros Hrp. by apply Z.mod_small; lia.
Qed.

(** X4: when [r] and [s] both lie in [2^248, 2^256), [fromElliptic] stores
    65 bytes and [toElliptic] gives back the same [r] and [s], with the
    recovery parameter masked to two bits. *)
Theorem fromElliptic_toElliptic_full_width (ellipticSig : EllipticSig)
    (keyType : KeyType) :
  2 ^ 248 <= r ellipticSig < 2 ^ 256 ->
  2 ^ 248 <= s ellipticSig < 2 ^ 256 ->
  length (data (fromElliptic ellipticSig keyType)) = 65%nat
  /\ toElliptic (fromElliptic ellipticSig keyType)
     = {| r := r ellipticSig; s := s ellipticSig;
          recoveryParam := Z.land (recoveryParam ellipticSig) 3 |}.
Proof. apply round_trip_full_width. Qed.

(** *** From the stored bytes and back *)

Lemma BN_cons (x : Z) (l : list Z) :
  BN (x :: l) = x * 256 ^ Z.of_nat (length l) + BN l.
Proof.
  change (BN (x :: l)) with (fold_left (fun acc b => acc * 256 + b) l (0 * 256 + x)).
  rewrite (BN_from l (0 * 256 + x)). ring.
Qed.

Lemma BN_range (l : list Z) :
  Forall is_byte l -> 0 <= BN l < 256 ^ Z.of_nat (length l).
Proof.
  induction 1 as [| x l Hx _ IH].
  - unfold BN. simpl. lia.
  - rewrite BN_cons. cbn [length]. rewrite Nat2Z.inj_succ, Z.pow_succ_r by lia.
    unfold is_byte in Hx. nia.
Qed.

Lemma BN_leading (x : Z) (l : list Z) :
  Forall is_byte (x :: l) -> x <> 0 -> 256 ^ Z.of_nat (length l) <= BN (x :: l).
Proof.
  intros Hb Hx. apply Forall_cons in Hb as [Hbx Hl].
  pose proof (BN_range l Hl). rewrite BN_cons. unfold is_byte in Hbx. nia.
Qed.

Lemma be_digits_BN (l filled : list Z) :
  Forall is_byte l -> head l <> Some 0 ->
  be_digits (length l) (BN l) filled = l ++ filled.
Proof.
  revert filled. induction l as [| b l IH] using rev_ind; intros filled Hl Hhead.
  - reflexivity.
  - apply Forall_app in Hl as [Hl Hb]. apply Forall_cons in Hb as [Hb _].
    unfold is_byte in Hb.
    rewrite length_app, Nat.add_1_r, BN_snoc. cbn [be_digits].
    assert (Hq : BN l * 256 + b <> 0).
    { destruct l as [| x l'].
      - intros Hz. apply Hhead. unfold BN in Hz. simpl in *. f_equal. lia.
      - assert (x <> 0) by (intros ->; by apply Hhead).
        pose proof (BN_leading x l' Hl ltac:(done)).
        assert (0 < 256 ^ Z.of_nat (length l')) by (apply Z.pow_pos_nonneg; lia).
        lia. }
    destruct (Z.eqb_spec (BN l * 256 + b) 0) as [Hz | _]; [contradiction |].
    rewrite Z.shiftr_div_pow2 by lia. change (2 ^ 8) with 256.
    change 255 with (Z.ones 8). rewrite Z.land_ones by lia. change (2 ^ 8) with 256.
    replace ((BN l * 256 + b) / 256) with (BN l) by (Z.div_mod_to_equations; lia).
    replace ((BN l * 256 + b) mod 256) with b by (Z.div_mod_to_equations; lia).
    rewrite IH, <- app_assoc; [reflexivity | exact Hl |].
    destruct l; [discriminate | exact Hhead].
Qed.

(** A byte array that does not start with a zero byte is the array of the
    number it encodes. *)
Lemma toArray_BN (l : list Z) :
  l <> [] -> Forall is_byte l -> head l <> Some 0 -> toArray (BN l) = l.
Proof.
  intros Hne Hl Hhead. destruct l as [| x l']; [contradiction |].
  assert (Hx : x <> 0) by (intros ->; by apply Hhead).
  pose proof (BN_leading x l' Hl Hx) as Hlo.
  pose proof (BN_range (x :: l') Hl) as Hhi.
  assert (0 < 256 ^ Z.of_nat (length l')) by (apply Z.pow_pos_nonneg; lia).
  rewrite toArray_positive by lia.
  rewrite (byteLength_unique _ (length (x :: l'))).
  - rewrite be_digits_BN by done. apply app_nil_r.
  - cbn [length]. replace (Z.of_nat (S (length l')) - 1) with (Z.of_nat (length l')) by lia.
    cbn [length] in Hhi. lia.
  - lia.
Qed.

Lemma toElliptic_stored_layout (stored : Key) (h : Z) (rs ss : list Z) :
  stored_layout stored h rs ss ->
  r (toElliptic stored) = BN rs /\ s (toElliptic stored) = BN ss
  /\ header stored = Some h.
Proof.
  intros (Hdata & Hlr & Hls & _ & _). unfold toElliptic, header, slice.
  cbn [r s]. rewrite Hdata.
  change (32 + 1 - 1)%nat with 32%nat. change (32 + 1)%nat with (S 32).
  change (32 + 32 + 1 - 33)%nat with 32%nat. cbn [drop].
  rewrite drop_0, take_app_length' by done.
  rewrite drop_app_length' by done.
  rewrite take_ge by (rewrite Hls; lia). done.
Qed.

(** X5: a stored signature of 65 bytes whose [r] and [s] fields do not start
    with a zero byte, and whose header is in the range [fromElliptic]
    writes (31..34 for [k1], 0..3 for [r1] and [wa]), is reproduced byte
    for byte by [toElliptic] followed by [fromElliptic]. *)
Theorem toElliptic_fromElliptic_canonical (stored : Key) (h : Z) (rs ss : list Z) :
  stored_layout stored h rs ss ->
  head rs <> Some 0 ->
  head ss <> Some 0 ->
  match type stored with
  | k1 => 31 <= h <= 34
  | r1 | wa => 0 <= h <= 3
  end ->
  fromElliptic (toElliptic stored) (type stored) = stored.
Proof.
  intros Hlayout Hr Hs Hh.
  destruct (toElliptic_stored_layout _ _ _ _ Hlayout) as (HBr & HBs & Hhead).
  destruct Hlayout as (Hdata & Hlr & Hls & Hbr & Hbs).
  assert (Hd : data (fromElliptic (toElliptic stored) (type stored)) = data stored).
  { rewrite data_fromElliptic, HBr, HBs, Hdata.
    rewrite !toArray_BN; try done; try (intros ->; discriminate).
    f_equal. rewrite recoveryParam_toElliptic, Hhead. unfold eosioRecoveryParam.
    destruct (type stored).
    - destruct (Z.leb_spec ((h - 27) mod 4) 3); Z.div_mod_to_equations; lia.
    - Z.div_mod_to_equations; lia.
    - Z.div_mod_to_equations; lia. }
  destruct stored as [t d]. unfold fromElliptic in *. simpl in *. by rewrite Hd.
Qed.

(** *** [verify] *)

(** X6: [verify] on the object [fromElliptic] builds hands the verifier the
    curve of the key type, secp256k1 for [k1] and P-256 for [r1] and [wa]
    alike; when [r] and [s] both lie in [2^248, 2^256) the signature it
    hands over is the original [r] and [s] with the recovery parameter
    modulo 4.  On the same stored bytes a [wa] signature is verified
    exactly as an [r1] signature. *)
Theorem verify_fromElliptic {Message PublicKey EllipticKey Encoding : Type}
    (ec_verify : Curve -> Message -> EllipticSig -> EllipticKey -> option Encoding -> bool)
    (publicKey_toElliptic : PublicKey -> EllipticKey)
    (ellipticSig : EllipticSig) (keyType : KeyType)
    (message : Message) (publicKey : PublicKey) (encoding : option Encoding) :
  (2 ^ 248 <= r ellipticSig < 2 ^ 256 ->
   2 ^ 248 <= s ellipticSig < 2 ^ 256 ->
   verify _ _ _ _ ec_verify publicKey_toElliptic
     (Signature_fromElliptic ellipticSig keyType) message publicKey encoding
   = ec_verify (match keyType with k1 => secp256k1 | r1 | wa => p256 end) message
       {| r := r ellipticSig; s := s ellipticSig;
          recoveryParam := recoveryParam ellipticSig mod 4 |}
       (publicKey_toElliptic publicKey) encoding)
  /\ forall bytes : list Z,
       verify _ _ _ _ ec_verify publicKey_toElliptic
         {| signature := {| type := wa; data := bytes |}; ec := constructElliptic wa |}
         message publicKey encoding
       = verify _ _ _ _ ec_verify publicKey_toElliptic
           {| signature := {| type := r1; data := bytes |}; ec := constructElliptic r1 |}
           message publicKey encoding.
Proof.
  split; [| reflexivity].
  intros Hr Hs. unfold verify, Signature_fromElliptic. cbn [signature ec].
  destruct (round_trip_full_width ellipticSig keyType Hr Hs) as [_ ->].
  rewrite land_3_mod. by destruct keyType.
Qed.

End SignatureMore.

(** * Properties of the orchestrator *)

Section ApiFacts.
Import Api.
Context {shapes : Shapes} {codec : Codec}.

Implicit Types (env : Env) (issued : list Request) (st : ApiState).

(** *** Running composed computations *)

Lemma run_prog_bind {A B} env issued (p : Prog A) (f : A -> Prog B) :
  run env issued (prog_bind p f) =
  let '(a, issued') := run env issued p in run env issued' (f a).
Proof.
  revert issued. induction p as [a | r st k IH]; intros issued; simpl.
  - reflexivity.
  - apply IH.
Qed.

Lemma run_bind {A B} env issued (m : M A) (f : A -> M B) st :
  run env issued (bind m f st) =
  match run env issued (m st) with
  | (Ok a, st', issued') => run env issued' (f a st')
  | (Err e, st', issued') => (Err e, st', issued')
  end.
Proof.
  unfold bind. rewrite run_prog_bind.
  destruct (run env issued (m st)) as [[[a | e] st'] issued']; reflexivity.
Qed.

Lemma run_try_catch {A} env issued (m : M A) (handler : Error -> M A) st :
  run env issued (try_catch m handler st) =
  match run env issued (m st) with
  | (Ok a, st', issued') => (Ok a, st', issued')
  | (Err e, st', issued') => run env issued' (handler e st')
  end.
Proof.
  unfold try_catch. rewrite run_prog_bind.
  destruct (run env issued (m st)) as [[[a | e] st'] issued']; reflexivity.
Qed.

Lemma run_await env issued (r : Request) st :
  run env issued (await r st) = (env issued r, st, issued ++ [r]).
Proof. reflexivity. Qed.

(** No request is ever taken back: the requests after a run extend those
    before it. *)
Lemma run_extends {A} env issued (p : Prog A) :
  exists new, (run env issued p).2 = issued ++ new.
Proof.
  revert issued. induction p as [a | r st k IH]; intros issued; simpl.
  - exists []. by rewrite app_nil_r.
  - destruct (IH (env issued r) st (issued ++ [r])) as [new Hnew].
    exists (r :: new). rewrite Hnew. by rewrite <- app_assoc.
Qed.

Lemma run_requests {A} env issued (p : Prog A) :
  (run env issued p).2 = issued ++ requests env issued p.
Proof.
  unfold requests. destruct (run_extends env issued p) as [new ->].
  by rewrite drop_app_length.
Qed.

Lemma requests_bind {A B} env issued (m : M A) (f : A -> M B) st :
  requests env issued (bind m f st) =
  requests env issued (m st) ++
  match run env issued (m st) with
  | (Ok a, st', issued') => requests env issued' (f a st')
  | (Err _, _, _) => []
  end.
Proof.
  unfold requests at 1. rewrite run_bind.
  pose proof (run_requests env issued (m st)) as Hm.
  destruct (run env issued (m st)) as [[[a | e] st'] issued']; simpl in Hm; subst issued'.
  - rewrite run_requests, <- app_assoc. by rewrite drop_app_length.
  - simpl. by rewrite drop_app_length, app_nil_r.
Qed.

Lemma requests_try_catch {A} env issued (m : M A) (handler : Error -> M A) st :
  requests env issued (try_catch m handler st) =
  requests env issued (m st) ++
  match run env issued (m st) with
  | (Ok _, _, _) => []
  | (Err e, st', issued') => requests env issued' (handler e st')
  end.
Proof.
  unfold requests at 1. rewrite run_try_catch.
  pose proof (run_requests env issued (m st)) as Hm.
  destruct (run env issued (m st)) as [[[a | e] st'] issued']; simpl in Hm; subst issued'.
  - simpl. by rewrite drop_app_length, app_nil_r.
  - rewrite run_requests, <- app_assoc. by rewrite drop_app_length.
Qed.

Lemma requests_bind_l {A B} env issued (m : M A) (f : A -> M B) st (r : Request) :
  r ∈ requests env issued (m st) -> r ∈ requests env issued (bind m f st).
Proof. intros Hr. rewrite requests_bind. apply elem_of_app. by left. Qed.

Lemma requests_bind_r {A B} env issued (m : M A) (f : A -> M B) st (r : Request)
    a st' issued' :
  run env issued (m st) = (Ok a, st', issued') ->
  r ∈ requests env issued' (f a st') -> r ∈ requests env issued (bind m f st).
Proof. intros Hm Hr. rewrite requests_bind, Hm. apply elem_of_app. by right. Qed.

Lemma requests_await env issued (r : Request) st :
  requests env issued (await r st) = [r].
Proof. unfold requests. rewrite run_await. simpl. by rewrite drop_app_length. Qed.

Lemma requests_ret {A} env issued (x : Result A * ApiState) :
  requests env issued (Ret x) = [].
Proof. unfold requests. simpl. by rewrite drop_all. Qed.

(** *** The strategy check of [transact] *)

(** C3: with [blocksBehind] a number and [useLastIrreversible] set,
    [transact] throws 'Use either blocksBehind or useLastIrreversible'
    before it issues any request: the computation is the throw itself, and
    whatever the collaborators would answer, the requests issued and the
    object are as they were. *)
Theorem transact_rejects_both_strategies env issued st
    (transaction : Obj) (config : TransactConfig) (blocksBehind : number) :
  cfg_blocksBehind config = Some blocksBehind ->
  cfg_useLastIrreversible config = Some true ->
  transact transaction config st
    = Ret (Err "Use either blocksBehind or useLastIrreversible", st)
  /\ run env issued (transact transaction config st)
    = (Err "Use either blocksBehind or useLastIrreversible", st, issued).
Proof.
  intros Hb Hu. unfold transact. rewrite Hb, Hu. simpl. split; reflexivity.
Qed.

(** *** The TAPoS check of [transact] *)

Lemma nullish_falsy (v : JsVal) : nullish v = true -> truthy v = false.
Proof. by destruct v. Qed.

Lemma nullish_not_number (v : JsVal) : nullish v = true -> is_number v = false.
Proof. by destruct v. Qed.

Lemma missing_incomplete (transaction : Obj) :
  missing_tapos_field transaction = true -> tapos_incomplete transaction = true.
Proof.
  unfold missing_tapos_field, tapos_incomplete. intros Hm.
  apply orb_true_iff in Hm as [Hm | Hm]; [apply orb_true_iff in Hm as [Hm | Hm] |];
    apply nullish_falsy in Hm; rewrite Hm; simpl;
    repeat (reflexivity || apply orb_true_r || (apply orb_true_iff; left)).
Qed.

Lemma missing_not_required (transaction : Obj) :
  missing_tapos_field transaction = true -> hasRequiredTaposFields transaction = false.
Proof.
  unfold missing_tapos_field, hasRequiredTaposFields. intros Hm.
  apply orb_true_iff in Hm as [Hm | Hm]; [apply orb_true_iff in Hm as [Hm | Hm] |].
  - apply nullish_falsy in Hm. by rewrite Hm.
  - apply nullish_not_number in Hm. rewrite Hm. by rewrite andb_false_r.
  - apply nullish_not_number in Hm. rewrite Hm. by rewrite andb_false_r.
Qed.

(** The run of [transact_chainId]. *)
Lemma run_transact_chainId env issued st :
  run env issued (transact_chainId st) =
  if has_chainId st then (Ok None, st, issued)
  else match env issued get_info with
       | Ok info => (Ok (Some info), set_chainId (Some (chain_id info)) st, issued ++ [get_info])
       | Err e => (Err e, st, issued ++ [get_info])
       end.
Proof.
  unfold transact_chainId, bind, this. simpl.
  destruct (has_chainId st); [reflexivity |]. simpl.
  destruct (env issued get_info); reflexivity.
Qed.

(** The run of [transact] on a transaction that lacks a TAPoS field, with
    no generation strategy in the config. *)
Lemma run_transact_incomplete_tapos env issued st
    (transaction : Obj) (config : TransactConfig) :
  missing_tapos_field transaction = true ->
  cfg_blocksBehind config = None ->
  cfg_useLastIrreversible config = None ->
  cfg_expireSeconds config = None ->
  run env issued (transact transaction config st)
  = if has_chainId st
    then (Err "Required configuration or TAPOS fields are not present", st, issued)
    else match env issued get_info with
         | Ok info =>
             (Err "Required configuration or TAPOS fields are not present",
              set_chainId (Some (chain_id info)) st, issued ++ [get_info])
         | Err e => (Err e, st, issued ++ [get_info])
         end.
Proof.
  intros Hm Hb Hu He. unfold transact. rewrite Hb, Hu, He. simpl.
  rewrite run_bind, run_transact_chainId.
  assert (Htapos : forall info st',
    transact_tapos info transaction None None None st'
    = Ret (Err "Required configuration or TAPOS fields are not present", st')).
  { intros info st'. unfold transact_tapos.
    rewrite (missing_incomplete _ Hm). simpl. unfold bind, ret. simpl.
    by rewrite (missing_not_required _ Hm). }
  destruct (has_chainId st).
  - by rewrite run_bind, Htapos.
  - destruct (env issued get_info) as [info | e]; [| reflexivity].
    by rewrite run_bind, Htapos.
Qed.

(** Whatever the node answers, that call never succeeds and never asks for
    more than the chain info. *)
Lemma transact_incomplete_tapos_stops env issued st
    (transaction : Obj) (config : TransactConfig) :
  missing_tapos_field transaction = true ->
  cfg_blocksBehind config = None ->
  cfg_useLastIrreversible config = None ->
  cfg_expireSeconds config = None ->
  is_ok (run env issued (transact transaction config st)).1.1 = false
  /\ requests env issued (transact transaction config st)
    = if has_chainId st then [] else [get_info].
Proof.
  intros Hm Hb Hu He. unfold requests.
  rewrite (run_transact_incomplete_tapos _ _ _ _ _ Hm Hb Hu He).
  destruct (has_chainId st); simpl.
  - by rewrite drop_all.
  - destruct (env issued get_info); simpl; by rewrite drop_app_length.
Qed.

(** C4: when a TAPoS field is missing from the transaction and the config
    supplies none of [blocksBehind], [useLastIrreversible], [expireSeconds],
    [transact] throws 'Required configuration or TAPOS fields are not
    present'.  The only request it can have issued is the [get_info] that
    resolves an unknown chain id (taken here to succeed): no ABI is
    fetched, nothing is signed or broadcast. *)
Theorem transact_incomplete_tapos env issued st
    (transaction : Obj) (config : TransactConfig) :
  missing_tapos_field transaction = true ->
  cfg_blocksBehind config = None ->
  cfg_useLastIrreversible config = None ->
  cfg_expireSeconds config = None ->
  has_chainId st || is_ok (env issued get_info) = true ->
  (run env issued (transact transaction config st)).1.1
    = Err "Required configuration or TAPOS fields are not present"
  /\ requests env issued (transact transaction config st)
    = if has_chainId st then [] else [get_info].
Proof.
  intros Hm Hb Hu He Hid. unfold requests.
  rewrite (run_transact_incomplete_tapos _ _ _ _ _ Hm Hb Hu He).
  destruct (has_chainId st); simpl in *.
  - by rewrite drop_all.
  - destruct (env issued get_info); [| discriminate]. simpl.
    by rewrite drop_app_length.
Qed.

(** Whatever the node answers, [generateTapos] asks it for a block once it
    has the chain info. *)
Lemma generateTapos_fetches_block env issued st (info : GetInfoResult)
    (transaction : Obj) blocksBehind useLastIrreversible expireSeconds :
  exists n rest,
    requests env issued
      (generateTapos (Some info) transaction blocksBehind useLastIrreversible expireSeconds st)
    = (if num_le n (Some (last_irreversible_block_num info))
       then get_block n else get_block_header_state n) :: rest.
Proof.
  exists (taposBlockNumber info blocksBehind useLastIrreversible).
  unfold requests, generateTapos, tryGetBlockHeaderState, bind, try_catch, await, ret.
  simpl. destruct (num_le _ _); simpl.
  - destruct (env issued (get_block _)); simpl;
      rewrite drop_app_length; eauto.
  - destruct (env issued (get_block_header_state _)); simpl.
    + rewrite drop_app_length; eauto.
    + destruct (env _ (get_block _)); simpl;
        rewrite <- app_assoc, drop_app_length; eauto.
Qed.

Lemma generateTapos_fetches env issued st (info : option GetInfoResult)
    (transaction : Obj) blocksBehind useLastIrreversible expireSeconds :
  (info = None -> is_ok (env issued get_info) = true) ->
  exists r, block_fetch r = true /\
    r ∈ requests env issued
      (generateTapos info transaction blocksBehind useLastIrreversible expireSeconds st).
Proof.
  intros Hinfo.
  assert (exists i, from_option Some (match env issued get_info with
                                     | Ok i => Some i
                                     | Err _ => None
                                     end) info = Some i) as [i Hi].
  { destruct info; simpl; [eauto |]. specialize (Hinfo eq_refl).
    destruct (env issued get_info); [eauto | discriminate]. }
  set (n := taposBlockNumber i blocksBehind useLastIrreversible).
  exists (if num_le n (Some (last_irreversible_block_num i))
          then get_block n else get_block_header_state n).
  split; [by destruct (num_le _ _) |].
  unfold requests, generateTapos, tryGetBlockHeaderState, bind, try_catch, await, ret.
  destruct info as [info |]; simpl in *.
  - injection Hi as ->. fold n. destruct (num_le _ _); simpl;
      repeat match goal with
             | |- context [match env ?h ?r with _ => _ end] => destruct (env h r); simpl
             end;
      rewrite <- ?app_assoc, drop_app_length;
      repeat first [apply list_elem_of_here | apply list_elem_of_further].
  - destruct (env issued get_info) as [info |]; [| discriminate].
    injection Hi as ->. simpl. fold n. destruct (num_le _ _); simpl;
      repeat match goal with
             | |- context [match env ?h ?r with _ => _ end] => destruct (env h r); simpl
             end;
      rewrite <- ?app_assoc, drop_app_length;
      repeat first [apply list_elem_of_here | apply list_elem_of_further].
Qed.

(** C10: a transaction with [ref_block_num = 0], a truthy [expiration] and
    a numeric [ref_block_prefix] fails the truthiness test of label 2 (it
    is treated as lacking a field) and passes [hasRequiredTaposFields].
    When a generation strategy and [expireSeconds] are configured,
    [transact] therefore asks the node for a block (once the node has
    answered [get_info]); when they are not, the TAPoS step returns the
    transaction as it is, without a configuration error, and [transact]
    goes on to the ABIs. *)
Theorem transact_zero_ref_block_num env issued st
    (transaction : Obj) (config : TransactConfig) :
  get transaction "ref_block_num" = JNum (Some 0) ->
  truthy (get transaction "expiration") = true ->
  is_number (get transaction "ref_block_prefix") = true ->
  given (cfg_blocksBehind config) && flag (cfg_useLastIrreversible config) = false ->
  is_ok (env issued get_info) = true ->
  tapos_incomplete transaction = true
  /\ hasRequiredTaposFields transaction = true
  /\ if (given (cfg_blocksBehind config) || flag (cfg_useLastIrreversible config))
        && nonzero (cfg_expireSeconds config)
     then exists r, block_fetch r = true
            /\ r ∈ requests env issued (transact transaction config st)
     else (forall info st',
             transact_tapos info transaction (cfg_blocksBehind config)
               (cfg_useLastIrreversible config) (cfg_expireSeconds config) st'
             = Ret (Ok transaction, st'))
          /\ run env issued (transact transaction config st)
             = run env issued
                 (bind transact_chainId
                    (fun _ => transact_send transaction
                                (default true (cfg_sign config))
                                (default true (cfg_broadcast config))
                                (cfg_compression config)) st).
Proof.
  intros Hnum Hexp Hprefix Hexcl Hinfo.
  assert (Hinc : tapos_incomplete transaction = true).
  { unfold tapos_incomplete. by rewrite Hnum. }
  assert (Hreq : hasRequiredTaposFields transaction = true).
  { unfold hasRequiredTaposFields. by rewrite Hnum, Hexp, Hprefix. }
  split; [exact Hinc |]. split; [exact Hreq |].
  destruct (_ && nonzero _) eqn:Hstrategy.
  - (* the strategy is configured *)
    assert (Htapos : forall info issued' st',
      (info = None -> is_ok (env issued' get_info) = true) ->
      exists r, block_fetch r = true /\
        r ∈ requests env issued'
          (transact_tapos info transaction (cfg_blocksBehind config)
             (cfg_useLastIrreversible config) (cfg_expireSeconds config) st')).
    { intros info issued' st' Hget. unfold transact_tapos. rewrite Hinc, Hstrategy.
      destruct (generateTapos_fetches env issued' st' info transaction
        (cfg_blocksBehind config) (cfg_useLastIrreversible config)
        (cfg_expireSeconds config) Hget) as (r & Hr & Hin).
      exists r. split; [exact Hr |]. by apply requests_bind_l. }
    unfold transact. rewrite Hexcl.
    pose proof (run_transact_chainId env issued st) as Hchain.
    destruct (has_chainId st).
    + destruct (Htapos None issued st (fun _ => Hinfo)) as (r & Hr & Hin).
      exists r. split; [exact Hr |].
      eapply requests_bind_r; [exact Hchain |]. by apply requests_bind_l.
    + destruct (env issued get_info) as [info |]; [| discriminate].
      destruct (Htapos (Some info) (issued ++ [get_info])
        (set_chainId (Some (chain_id info)) st)) as (r & Hr & Hin); [intros [=] |].
      exists r. split; [exact Hr |].
      eapply requests_bind_r; [exact Hchain |]. by apply requests_bind_l.
  - (* no strategy *)
    assert (Htapos : forall info st',
      transact_tapos info transaction (cfg_blocksBehind config)
        (cfg_useLastIrreversible config) (cfg_expireSeconds config) st'
      = Ret (Ok transaction, st')).
    { intros info st'. unfold transact_tapos. rewrite Hinc, Hstrategy.
      unfold bind, ret. simpl. by rewrite Hreq. }
    split; [exact Htapos |].
    unfold transact. rewrite Hexcl. rewrite !run_bind.
    destruct (run env issued (transact_chainId st)) as [[[info | e] st'] issued'];
      [| reflexivity].
    by rewrite run_bind, Htapos.
Qed.

(** *** [generateTapos] *)

(** The run of [generateTapos] once the chain info is at hand. *)
Lemma run_generateTapos_info env issued st (info : GetInfoResult)
    (transaction : Obj) blocksBehind useLastIrreversible expireSeconds :
  let n := taposBlockNumber info blocksBehind useLastIrreversible in
  let merged refBlock := assign (transactionHeader refBlock expireSeconds) transaction in
  run env issued
    (generateTapos (Some info) transaction blocksBehind useLastIrreversible expireSeconds st)
  = if num_le n (Some (last_irreversible_block_num info)) then
      match env issued (get_block n) with
      | Ok refBlock => (Ok (merged refBlock), st, issued ++ [get_block n])
      | Err e => (Err e, st, issued ++ [get_block n])
      end
    else
      match env issued (get_block_header_state n) with
      | Ok refBlock => (Ok (merged refBlock), st, issued ++ [get_block_header_state n])
      | Err _ =>
          match env (issued ++ [get_block_header_state n]) (get_block n) with
          | Ok refBlock =>
              (Ok (merged refBlock), st, issued ++ [get_block_header_state n; get_block n])
          | Err e => (Err e, st, issued ++ [get_block_header_state n; get_block n])
          end
      end.
Proof.
  intros n merged. subst merged.
  unfold generateTapos, tryGetBlockHeaderState, bind, try_catch, await, ret.
  simpl. fold n. destruct (num_le _ _); simpl.
  - by destruct (env issued (get_block n)).
  - destruct (env issued (get_block_header_state n)); simpl; [reflexivity |].
    rewrite <- app_assoc. simpl.
    by destruct (env (issued ++ [get_block_header_state n]) (get_block n)).
Qed.

(** Without the chain info, [generateTapos] first asks for it. *)
Lemma run_generateTapos_no_info env issued st
    (transaction : Obj) blocksBehind useLastIrreversible expireSeconds :
  run env issued
    (generateTapos None transaction blocksBehind useLastIrreversible expireSeconds st)
  = match env issued get_info with
    | Ok info =>
        run env (issued ++ [get_info])
          (generateTapos (Some info) transaction blocksBehind useLastIrreversible
             expireSeconds st)
    | Err e => (Err e, st, issued ++ [get_info])
    end.
Proof.
  unfold generateTapos at 1. rewrite run_bind. simpl.
  destruct (env issued get_info) as [info | e]; reflexivity.
Qed.

(** C6: the reference block number is [last_irreversible_block_num] when
    [useLastIrreversible] is set and [head_block_num - blocksBehind]
    otherwise.  A number that is at most [last_irreversible_block_num] is
    fetched with [get_block]; any other with [get_block_header_state],
    followed by [get_block] for the same number exactly when that request
    fails.  When the chain info is not passed in, a [get_info] request
    comes first. *)
Theorem generateTapos_block_selection env issued st (info : GetInfoResult)
    (transaction : Obj) (blocksBehind : option number)
    (useLastIrreversible : option bool) (expireSeconds : option number) :
  let n := taposBlockNumber info blocksBehind useLastIrreversible in
  (flag useLastIrreversible = true -> n = Some (last_irreversible_block_num info))
  /\ (forall behind : Z,
        flag useLastIrreversible = false -> blocksBehind = Some (Some behind) ->
        n = Some (head_block_num info - behind))
  /\ requests env issued
       (generateTapos (Some info) transaction blocksBehind useLastIrreversible
          expireSeconds st)
     = tapos_block_requests env issued info n
  /\ (env issued get_info = Ok info ->
      requests env issued
        (generateTapos None transaction blocksBehind useLastIrreversible expireSeconds st)
      = get_info :: tapos_block_requests env (issued ++ [get_info]) info n).
Proof.
  intros n.
  assert (Hsome : forall issued',
    requests env issued'
      (generateTapos (Some info) transaction blocksBehind useLastIrreversible
         expireSeconds st)
    = tapos_block_requests env issued' info n).
  { intros issued'. unfold requests, tapos_block_requests.
    rewrite run_generateTapos_info. fold n. destruct (num_le _ _).
    - destruct (env issued' (get_block n)); simpl; by rewrite drop_app_length.
    - destruct (env issued' (get_block_header_state n)); simpl.
      + by rewrite drop_app_length.
      + destruct (env _ (get_block n)); simpl; by rewrite drop_app_length. }
  repeat split.
  - intros Hflag. unfold n, taposBlockNumber. by rewrite Hflag.
  - intros behind Hflag ->. unfold n, taposBlockNumber. by rewrite Hflag.
  - apply Hsome.
  - intros Hinfo. unfold requests at 1.
    rewrite run_generateTapos_no_info, Hinfo, run_requests, Hsome.
    by rewrite <- app_assoc, drop_app_length.
Qed.

(** What [generateTapos] returns is the generated header with the caller's
    transaction written over it. *)
Lemma generateTapos_result env issued st (info : option GetInfoResult)
    (transaction : Obj) blocksBehind useLastIrreversible expireSeconds (result : Obj) :
  (run env issued
     (generateTapos info transaction blocksBehind useLastIrreversible expireSeconds st)).1.1
  = Ok result ->
  exists refBlock : RefBlock,
    result = assign (transactionHeader refBlock expireSeconds) transaction.
Proof.
  assert (Hsome : forall issued' i,
    (run env issued'
       (generateTapos (Some i) transaction blocksBehind useLastIrreversible
          expireSeconds st)).1.1 = Ok result ->
    exists refBlock : RefBlock,
      result = assign (transactionHeader refBlock expireSeconds) transaction).
  { intros issued' i. rewrite run_generateTapos_info.
    repeat match goal with
           | |- context [if ?b then _ else _] => destruct b
           | |- context [match env ?h ?r with _ => _ end] => destruct (env h r)
           end; simpl; intros [= <-] || intros [=]; eauto. }
  destruct info as [i |]; [apply Hsome |].
  rewrite run_generateTapos_no_info.
  destruct (env issued get_info) as [i | e]; [apply Hsome | intros [=]].
Qed.

(** With a node that answers, [generateTapos] returns. *)
Lemma generateTapos_returns env issued st (info : option GetInfoResult)
    (transaction : Obj) blocksBehind useLastIrreversible expireSeconds :
  (forall issued' r, is_ok (env issued' r) = true) ->
  is_ok (run env issued
     (generateTapos info transaction blocksBehind useLastIrreversible expireSeconds st)).1.1
  = true.
Proof.
  intros Hok.
  assert (Hsome : forall issued' i,
    is_ok (run env issued'
       (generateTapos (Some i) transaction blocksBehind useLastIrreversible
          expireSeconds st)).1.1 = true).
  { intros issued' i. rewrite run_generateTapos_info.
    repeat match goal with
           | |- context [if ?b then _ else _] => destruct b
           | |- context [match env ?h ?r with _ => _ end] =>
               let E := fresh in
               pose proof (Hok h r) as E; destruct (env h r); [| discriminate E]
           end; reflexivity. }
  destruct info as [i |]; [apply Hsome |].
  rewrite run_generateTapos_no_info.
  pose proof (Hok issued get_info) as E.
  destruct (env issued get_info) as [i | e]; [apply Hsome | discriminate E].
Qed.

(** C5: in the transaction [generateTapos] returns, every field the
    caller's transaction object has keeps the caller's value, and a field
    of the generated header ([expiration], [ref_block_num],
    [ref_block_prefix]) shows only where the caller's object has no such
    field.  With a node that answers its requests, [generateTapos] does
    return. *)
Theorem generateTapos_caller_fields_win env issued st (info : option GetInfoResult)
    (transaction : Obj) (blocksBehind : option number)
    (useLastIrreversible : option bool) (expireSeconds : option number) :
  ((forall issued' r, is_ok (env issued' r) = true) ->
   is_ok (run env issued
     (generateTapos info transaction blocksBehind useLastIrreversible expireSeconds st)).1.1
   = true)
  /\ forall result : Obj,
       (run env issued
          (generateTapos info transaction blocksBehind useLastIrreversible
             expireSeconds st)).1.1 = Ok result ->
       exists refBlock : RefBlock,
         (forall k v, transaction !! k = Some v -> result !! k = Some v)
         /\ (forall k, transaction !! k = None ->
               result !! k = transactionHeader refBlock expireSeconds !! k).
Proof.
  split; [apply generateTapos_returns |].
  intros result Hrun.
  destruct (generateTapos_result _ _ _ _ _ _ _ _ _ Hrun) as [refBlock ->].
  exists refBlock. unfold assign. split.
  - intros k v Hk. by apply lookup_union_Some_l.
  - intros k Hk. by apply lookup_union_r.
Qed.

(** *** [serializeContextFreeData] *)

Lemma pushBytes_fold (l : list bytes) (buffer : SerialBuffer) :
  fold_left (fun buffer data => pushBytes buffer data) l buffer
  = buffer ++ concat (length_prefixed <$> l).
Proof.
  revert buffer. induction l as [| data l IH]; intros buffer; simpl.
  - by rewrite app_nil_r.
  - rewrite IH. unfold pushBytes, pushArray, pushVaruint32, length_prefixed.
    by rewrite <- !app_assoc.
Qed.

(** A non-empty list is serialized as its length followed by its items,
    each behind its own length. *)
Lemma serializeContextFreeData_items (item : bytes) (items : list bytes) :
  serializeContextFreeData (JBuffers (item :: items))
  = Ok (Some (varuint32 (Z.of_nat (length (item :: items)))
              ++ concat (length_prefixed <$> item :: items))).
Proof.
  unfold serializeContextFreeData, has_length.
  cbn [truthy js_length negb orb length Nat.eqb].
  rewrite pushBytes_fold. reflexivity.
Qed.

(** C7, as the code has it: [serializeContextFreeData] returns [null] for
    [[]], [undefined] and [null]; for [[A, B]] it returns the varuint32 of
    2 followed by the two items in order, each written by [pushBytes] as
    the varuint32 of its length and then its bytes, with nothing else in
    between. *)
Theorem serializeContextFreeData_layout (A B : bytes) :
  serializeContextFreeData (JBuffers []) = Ok None
  /\ serializeContextFreeData JUndefined = Ok None
  /\ serializeContextFreeData JNull = Ok None
  /\ serializeContextFreeData (JBuffers [A; B])
     = Ok (Some (varuint32 2
                 ++ (varuint32 (Z.of_nat (length A)) ++ A)
                 ++ (varuint32 (Z.of_nat (length B)) ++ B))).
Proof.
  repeat split.
  rewrite serializeContextFreeData_items. unfold length_prefixed. simpl.
  by rewrite app_nil_r.
Qed.

(** *** [getCachedAbi] *)

Lemma run_getCachedAbi_hit env issued st (accountName : string) (cached : CachedAbi) :
  cachedAbis st !! accountName = Some cached ->
  run env issued (getCachedAbi accountName false st) = (Ok cached, st, issued).
Proof.
  intros Hhit. unfold getCachedAbi, bind, this. simpl. by rewrite Hhit.
Qed.

Lemma run_getCachedAbi_fetch env issued st (accountName : string) (reload : bool)
    (response : BinaryAbi) (json : Abi) :
  reload = true \/ cachedAbis st !! accountName = None ->
  env issued (getRawAbi accountName) = Ok response ->
  rawAbiToJson (abi response) = Ok json ->
  let cachedAbi := {| cached_rawAbi := abi response; cached_abi := json |} in
  run env issued (getCachedAbi accountName reload st)
  = (Ok cachedAbi,
     set_cachedAbis (<[accountName := cachedAbi]> (cachedAbis st)) st,
     issued ++ [getRawAbi accountName]).
Proof.
  intros Hmiss Hfetch Hjson cachedAbi.
  unfold getCachedAbi, bind, try_catch, this, await, lift, ret, set_this. simpl.
  destruct Hmiss as [-> | ->]; [| destruct reload]; simpl;
    rewrite Hfetch; simpl; rewrite Hjson; reflexivity.
Qed.

(** C8: starting with no entry for the account, and with a provider that
    answers with ABIs that decode, two successive [getCachedAbi(account)]
    calls issue exactly one [getRawAbi] request and the second call returns
    the entry the first one stored; [getCachedAbi(account, true)] then
    issues a second request and overwrites the entry with the newly fetched
    [{rawAbi, abi}]. *)
Theorem getCachedAbi_fetches_once_until_reload env issued st (accountName : string)
    (first second : BinaryAbi) (abi1 abi2 : Abi) :
  cachedAbis st !! accountName = None ->
  env issued (getRawAbi accountName) = Ok first ->
  rawAbiToJson (abi first) = Ok abi1 ->
  env (issued ++ [getRawAbi accountName]) (getRawAbi accountName) = Ok second ->
  rawAbiToJson (abi second) = Ok abi2 ->
  let stored := {| cached_rawAbi := abi first; cached_abi := abi1 |} in
  let reloaded := {| cached_rawAbi := abi second; cached_abi := abi2 |} in
  (exists st1,
     run env issued (getCachedAbi_twice accountName st)
     = (Ok (stored, stored), st1, issued ++ [getRawAbi accountName])
     /\ cachedAbis st1 !! accountName = Some stored)
  /\ (exists st2,
        run env issued (getCachedAbi_twice_then_reload accountName st)
        = (Ok (stored, stored, reloaded), st2,
           issued ++ [getRawAbi accountName; getRawAbi accountName])
        /\ cachedAbis st2 !! accountName = Some reloaded).
Proof.
  intros Hnone Hfirst Habi1 Hsecond Habi2 stored reloaded.
  assert (Htwice :
    run env issued (getCachedAbi_twice accountName st)
    = (Ok (stored, stored),
       set_cachedAbis (<[accountName := stored]> (cachedAbis st)) st,
       issued ++ [getRawAbi accountName])).
  { unfold getCachedAbi_twice. rewrite run_bind.
    rewrite (run_getCachedAbi_fetch _ _ _ _ false first abi1) by auto.
    rewrite run_bind.
    rewrite (run_getCachedAbi_hit _ _ _ _ stored) by apply lookup_insert_eq.
    reflexivity. }
  split.
  - eexists. split; [exact Htwice |]. apply lookup_insert_eq.
  - eexists. split.
    + unfold getCachedAbi_twice_then_reload. rewrite run_bind, Htwice, run_bind.
      rewrite (run_getCachedAbi_fetch _ _ _ _ true second abi2) by auto.
      simpl. rewrite <- app_assoc. reflexivity.
    + simpl. apply lookup_insert_eq.
Qed.

(** *** Which keys [transact] signs with *)

(** The signing round trip, request by request: the available keys are
    asked for; without an override the authority provider is asked with the
    transaction and those keys, and its answer is signed with; with an
    override the [sign] request follows at once, carrying the override. *)
Lemma run_transact_sign env issued st (transaction : Obj) abis serializedTransaction
    serializedContextFreeData :
  let ask keys :=
    sign {| spa_chainId := chainId st; spa_requiredKeys := keys;
            spa_serializedTransaction := serializedTransaction;
            spa_serializedContextFreeData := serializedContextFreeData;
            spa_abis := abis |} in
  run env issued
    (transact_sign transaction abis serializedTransaction serializedContextFreeData st)
  = match env issued getAvailableKeys with
    | Err e => (Err e, st, issued ++ [getAvailableKeys])
    | Ok availableKeys =>
        match requiredKeys st with
        | Some keys =>
            (env (issued ++ [getAvailableKeys]) (ask keys), st,
             issued ++ [getAvailableKeys; ask keys])
        | None =>
            let authority :=
              getRequiredKeys {| apa_transaction := transaction;
                                 apa_availableKeys := availableKeys |} in
            match env (issued ++ [getAvailableKeys]) authority with
            | Err e => (Err e, st, issued ++ [getAvailableKeys; authority])
            | Ok keys =>
                (env (issued ++ [getAvailableKeys; authority]) (ask keys), st,
                 issued ++ [getAvailableKeys; authority; ask keys])
            end
        end
    end.
Proof.
  intros ask. subst ask.
  unfold transact_sign, bind, await, this, ret. simpl.
  destruct (env issued getAvailableKeys) as [availableKeys | e]; simpl; [| reflexivity].
  destruct (requiredKeys st) as [keys |]; simpl.
  - rewrite <- app_assoc. simpl.
    by destruct (env (issued ++ [getAvailableKeys]) (sign _)).
  - destruct (env (issued ++ [getAvailableKeys]) (getRequiredKeys _)) as [keys | e]; simpl.
    + rewrite <- !app_assoc. simpl.
      by destruct (env (issued ++ [getAvailableKeys; getRequiredKeys _]) (sign _)).
    + by rewrite <- app_assoc.
Qed.

Lemma requests_vis {A} env issued (r : Request) st
    (k : Result (Response r) -> ApiState -> Prog A) :
  requests env issued (Vis r st k)
  = r :: requests env (issued ++ [r]) (k (env issued r) st).
Proof.
  unfold requests at 1. simpl. rewrite run_requests, <- app_assoc.
  by rewrite drop_app_length.
Qed.

Section Triples.
Variables (env : Env) (P : Request -> Prop) (I : ApiState -> Prop).

Lemma steady_run {A} (Q : A -> Prop) (p : Prog (Result A * ApiState)) issued :
  steady env P I Q p ->
  Forall P (requests env issued p)
  /\ I (run env issued p).1.2
  /\ forall a, (run env issued p).1.1 = Ok a -> Q a.
Proof.
  revert issued. induction p as [[result st] | r st k IH]; intros issued; simpl.
  - intros [HI Ha]. rewrite requests_ret. auto.
  - intros (Hr & HI & Hk). rewrite requests_vis.
    destruct (IH (env issued r) st (issued ++ [r]) (Hk issued st HI)) as (Hreq & HI' & Ha).
    auto.
Qed.

(** What [triple] says of a run. *)
Lemma triple_run {A} (m : M A) (Q : A -> Prop) :
  triple env P I m Q ->
  forall issued st, I st ->
    Forall P (requests env issued (m st))
    /\ I (run env issued (m st)).1.2
    /\ forall a, (run env issued (m st)).1.1 = Ok a -> Q a.
Proof. intros Hm issued st HI. apply steady_run. by apply Hm. Qed.

Lemma triple_requests {A} (m : M A) (Q : A -> Prop) issued st :
  triple env P I m Q -> I st -> Forall P (requests env issued (m st)).
Proof. intros Hm HI. by apply (triple_run m Q Hm issued st HI). Qed.

Lemma steady_weaken {A} (Q Q' : A -> Prop) (p : Prog (Result A * ApiState)) :
  (forall a, Q a -> Q' a) -> steady env P I Q p -> steady env P I Q' p.
Proof.
  intros HQ. induction p as [[result st] | r st k IH]; simpl.
  - intros [HI Ha]. auto.
  - intros (Hr & HI & Hk). auto.
Qed.

Lemma steady_bind {A B} (Q : A -> Prop) (Q' : B -> Prop)
    (p : Prog (Result A * ApiState))
    (g : Result A * ApiState -> Prog (Result B * ApiState)) :
  steady env P I Q p ->
  (forall a st, Q a -> I st -> steady env P I Q' (g (Ok a, st))) ->
  (forall e st, I st -> steady env P I Q' (g (Err e, st))) ->
  steady env P I Q' (prog_bind p g).
Proof.
  intros Hp Hok Herr. induction p as [[[a | e] st] | r st k IH]; simpl in *.
  - destruct Hp as [HI Ha]. apply Hok; auto.
  - destruct Hp as [HI _]. by apply Herr.
  - destruct Hp as (Hr & HI & Hk). auto.
Qed.

Lemma triple_leaf {A} (x : Result A) (Q : A -> Prop) :
  (forall a, x = Ok a -> Q a) -> triple env P I (lift x) Q.
Proof. intros HQ st HI. simpl. auto. Qed.

Lemma triple_ret {A} (a : A) (Q : A -> Prop) : Q a -> triple env P I (ret a) Q.
Proof. intros HQ. apply (triple_leaf (Ok a)). by intros ? [= <-]. Qed.

Lemma triple_throw {A} (e : Error) (Q : A -> Prop) : triple env P I (throw e) Q.
Proof. apply (triple_leaf (Err e)). intros ? [=]. Qed.

Lemma triple_this : triple env P I this I.
Proof. intros st HI. simpl. split; [exact HI |]. by intros ? [= <-]. Qed.

Lemma triple_set_this (f : ApiState -> ApiState) :
  (forall st, I st -> I (f st)) -> triple env P I (set_this f) (fun _ => True).
Proof. intros Hf st HI. simpl. auto. Qed.

Lemma triple_await (r : Request) :
  P r -> triple env P I (await r) (fun a => exists issued', env issued' r = Ok a).
Proof.
  intros Hr st HI. simpl. split; [exact Hr |]. split; [exact HI |].
  intros issued st' HI'. split; [exact HI' |]. eauto.
Qed.

Lemma triple_weaken {A} (m : M A) (Q Q' : A -> Prop) :
  triple env P I m Q -> (forall a, Q a -> Q' a) -> triple env P I m Q'.
Proof. intros Hm HQ st HI. eapply steady_weaken; [exact HQ |]. by apply Hm. Qed.

Lemma triple_bind {A B} (m : M A) (f : A -> M B) (Q : A -> Prop) (Q' : B -> Prop) :
  triple env P I m Q -> (forall a, Q a -> triple env P I (f a) Q') ->
  triple env P I (bind m f) Q'.
Proof.
  intros Hm Hf st HI. unfold bind. apply (steady_bind Q Q').
  - by apply Hm.
  - intros a st' Ha HI'. by apply Hf.
  - intros e st' HI'. by apply triple_throw.
Qed.

Lemma triple_try_catch {A} (m : M A) (handler : Error -> M A) (Q : A -> Prop) :
  triple env P I m Q -> (forall e, triple env P I (handler e) Q) ->
  triple env P I (try_catch m handler) Q.
Proof.
  intros Hm Hh st HI. unfold try_catch. apply (steady_bind Q Q).
  - by apply Hm.
  - intros a st' Ha HI'. by apply (triple_ret a Q).
  - intros e st' HI'. by apply Hh.
Qed.

Lemma triple_lift {A} (x : Result A) : triple env P I (lift x) (fun _ => True).
Proof. by apply triple_leaf. Qed.

Lemma triple_request (r : Request) : P r -> triple env P I (await r) (fun _ => True).
Proof. intros Hr. eapply triple_weaken; [by apply triple_await | done]. Qed.

(** *** The rule of [Promise.all] *)

(** The way a task settles is a value: nothing is thrown. *)
Lemma triple_settled {B} (m : M B) (Q : B -> Prop) :
  triple env P I m Q ->
  triple env P I (settled m) (fun result => forall b, result = Ok b -> Q b).
Proof.
  intros Hm st HI. unfold settled. apply (steady_bind Q).
  - by apply Hm.
  - intros a st' Ha HI'. simpl. split; [exact HI' |]. by intros ? [= <-] ? [= <-].
  - intros e st' HI'. simpl. split; [exact HI' |]. intros ? [= <-] ? [=].
Qed.

Lemma triple_start_all {A B} (f : A -> M B) (l : list A) (R : A -> B -> Prop) :
  (forall x, triple env P I (f x) (R x)) ->
  triple env P I (start_all f l) (Forall2 (started_as env P I R) l).
Proof.
  intros Hf. induction l as [| x l IH]; simpl.
  - apply triple_ret. constructor.
  - intros st HI. pose proof (Hf x st HI) as Hx.
    destruct (f x st) as [[result st1] | r st1 k]; simpl in Hx.
    + destruct Hx as [HI1 Hresult].
      refine (triple_bind _ _ _ _ IH _ st1 HI1).
      intros started Hstarted. apply triple_ret. by constructor.
    + destruct Hx as (Hr & HI1 & Hk). simpl. split; [exact Hr |]. split; [exact HI1 |].
      intros issued st2 HI2.
      refine (triple_bind _ _ _ _ IH _ st2 HI2).
      intros started Hstarted. apply triple_ret. constructor; [| exact Hstarted].
      intros st3 HI3. by apply Hk.
Qed.

Lemma triple_settle_all {A B} (R : A -> B -> Prop) (l : list A)
    (started : list (Started B)) :
  Forall2 (started_as env P I R) l started ->
  triple env P I (settle_all started)
    (Forall2 (fun x result => forall b, result = Ok b -> R x b) l).
Proof.
  induction 1 as [| x task l started Htask _ IH]; simpl.
  - apply triple_ret. constructor.
  - destruct task as [result | resume]; simpl in Htask.
    + eapply triple_bind; [exact IH |]. intros results Hresults.
      apply triple_ret. by constructor.
    + eapply triple_bind; [by apply triple_settled |]. intros result Hresult.
      eapply triple_bind; [exact IH |]. intros results Hresults.
      apply triple_ret. by constructor.
Qed.

Lemma all_fulfilled_Forall2 {A B} (R : A -> B -> Prop) (l : list A)
    (results : list (Result B)) (ys : list B) :
  Forall2 (fun x result => forall b, result = Ok b -> R x b) l results ->
  all_fulfilled results = Ok ys -> Forall2 R l ys.
Proof.
  intros Hresults. revert ys.
  induction Hresults as [| x result l results Hresult _ IH]; simpl; intros ys.
  - intros [= <-]. constructor.
  - destruct result as [y | e]; [| discriminate].
    destruct (all_fulfilled results) as [ys' | e]; [| discriminate].
    intros [= <-]. constructor; auto.
Qed.

(** The values [Promise.all] returns are those of the tasks, one for each
    element and in the order of the array. *)
Lemma triple_Promise_all_each {A B} (f : A -> M B) (l : list A) (R : A -> B -> Prop) :
  (forall x, triple env P I (f x) (R x)) ->
  triple env P I (Promise_all f l) (Forall2 R l).
Proof.
  intros Hf. unfold Promise_all.
  eapply triple_bind; [by apply triple_start_all |]. intros started Hstarted.
  eapply triple_bind; [by eapply triple_settle_all |]. intros results Hresults.
  apply triple_leaf. intros ys.
  destruct (early_rejection started); [discriminate |].
  by apply all_fulfilled_Forall2.
Qed.

Lemma triple_Promise_all {A B} (f : A -> M B) (l : list A) :
  (forall x, triple env P I (f x) (fun _ => True)) ->
  triple env P I (Promise_all f l) (fun _ => True).
Proof.
  intros Hf. eapply triple_weaken; [| done].
  by apply (triple_Promise_all_each f l (fun _ _ => True)).
Qed.

End Triples.

(** One step of a proof that a method keeps to [triple]: the rule for the
    construct at the head of the computation. *)
Ltac triple_step :=
  lazymatch goal with
  | |- triple _ _ _ (throw _) _ => apply triple_throw
  | |- triple _ _ _ (lift _) _ => apply triple_lift
  | |- triple _ _ _ this _ => apply triple_this
  | |- triple _ _ _ (ret _) _ =>
      first [ refine (triple_lift _ _ _ (Ok _)) | apply triple_ret; exact Logic.I ]
  | |- triple ?env ?P ?I (await ?r) _ => exact (triple_request env P I r Logic.I)
  | |- triple _ _ _ (set_this _) _ => apply triple_set_this; intros ? ?; assumption
  | |- triple _ _ _ (try_catch _ _) _ => apply triple_try_catch; [| intros ?]
  | |- triple _ _ _ (Promise_all _ _) _ => apply triple_Promise_all; intros ?
  | |- triple _ _ _ (bind _ _) _ => eapply triple_bind; [| intros ? _]
  | |- triple _ _ _ (match ?x with _ => _ end) _ => destruct x
  end.

Section SigningKeys.
Variables (env : Env) (override : option (list string)).

Abbreviation keys_ok := (triple env (keys_as_constructed env override) (built override)).

Lemma getCachedAbi_keys accountName reload :
  keys_ok (getCachedAbi accountName reload) (fun _ => True).
Proof. unfold getCachedAbi. repeat triple_step. Qed.

Lemma getAbi_keys accountName reload :
  keys_ok (getAbi accountName reload) (fun _ => True).
Proof. unfold getAbi. repeat (apply getCachedAbi_keys || triple_step). Qed.

Lemma getContract_keys accountName reload :
  keys_ok (getContract accountName reload) (fun _ => True).
Proof. unfold getContract. repeat (apply getAbi_keys || triple_step). Qed.

Lemma getTransactionAbis_keys (transaction : Obj) reload :
  keys_ok (getTransactionAbis transaction reload) (fun _ => True).
Proof. unfold getTransactionAbis. repeat (apply getCachedAbi_keys || triple_step). Qed.

Lemma serializeActions_keys (l : list Action) :
  keys_ok (serializeActions l) (fun _ => True).
Proof. unfold serializeActions. repeat (apply getContract_keys || triple_step). Qed.

Lemma generateTapos_keys info (transaction : Obj) blocksBehind useLastIrreversible
    expireSeconds :
  keys_ok (generateTapos info transaction blocksBehind useLastIrreversible expireSeconds)
    (fun _ => True).
Proof. unfold generateTapos, tryGetBlockHeaderState. repeat triple_step. Qed.

Lemma transact_chainId_keys : keys_ok transact_chainId (fun _ => True).
Proof. unfold transact_chainId. repeat triple_step. Qed.

Lemma transact_tapos_keys info (transaction : Obj) blocksBehind useLastIrreversible
    expireSeconds :
  keys_ok (transact_tapos info transaction blocksBehind useLastIrreversible expireSeconds)
    (fun _ => True).
Proof. unfold transact_tapos. repeat (apply generateTapos_keys || triple_step). Qed.

Lemma transact_sign_keys (transaction : Obj) abis serializedTransaction
    serializedContextFreeData :
  keys_ok (transact_sign transaction abis serializedTransaction serializedContextFreeData)
    (fun _ => True).
Proof.
  unfold transact_sign.
  eapply triple_bind; [triple_step |]. intros availableKeys _.
  eapply triple_bind; [apply triple_this |]. intros self Hself.
  apply (triple_bind _ _ _ _ _
    (fun keys => keys_as_constructed env override
       (sign {| spa_chainId := None; spa_requiredKeys := keys;
                spa_serializedTransaction := []; spa_serializedContextFreeData := None;
                spa_abis := [] |}))).
  - unfold built in Hself. simpl. rewrite <- Hself.
    destruct (requiredKeys self) as [keys |]; simpl.
    + by apply triple_ret.
    + match goal with
      | |- triple ?env ?P ?I (await ?r) _ =>
          eapply triple_weaken; [exact (triple_await env P I r eq_refl) |]
      end.
      intros keys [issued' Hkeys]. simpl. eauto.
  - intros keys Hkeys.
    eapply triple_bind; [apply triple_this |]. intros self' _.
    match goal with
    | |- triple ?env ?P ?I (await ?r) _ => exact (triple_request env P I r Hkeys)
    end.
Qed.

Lemma pushSignedTransaction_keys args : keys_ok (pushSignedTransaction args) (fun _ => True).
Proof. unfold pushSignedTransaction. triple_step. Qed.

Lemma pushCompressedSignedTransaction_keys args :
  keys_ok (pushCompressedSignedTransaction args) (fun _ => True).
Proof. unfold pushCompressedSignedTransaction. cbv zeta. triple_step. Qed.

Lemma transact_send_keys (transaction : Obj) sign broadcast compression :
  keys_ok (transact_send transaction sign broadcast compression) (fun _ => True).
Proof.
  unfold transact_send. cbv zeta.
  repeat first
    [ apply getTransactionAbis_keys | apply serializeActions_keys
    | apply transact_sign_keys | apply pushSignedTransaction_keys
    | apply pushCompressedSignedTransaction_keys | triple_step ].
Qed.

Lemma transact_keys (transaction : Obj) (config : TransactConfig) :
  keys_ok (transact transaction config) (fun _ => True).
Proof.
  unfold transact. cbv zeta.
  repeat first
    [ apply transact_chainId_keys | apply transact_tapos_keys
    | apply transact_send_keys | triple_step ].
Qed.

End SigningKeys.

End ApiFacts.

(** * More on the orchestrator *)

Section ApiMore.
Import Api.
Context {shapes : Shapes} {codec : Codec} {decoder : Decoder}.

Implicit Types (env : Env) (issued : list Request) (st : ApiState).

(** The rule for the construct at the head of a computation, for a
    predicate on requests given by hypotheses. *)
Ltac triple_walk :=
  lazymatch goal with
  | |- triple _ _ _ (throw _) _ => apply triple_throw
  | |- triple _ _ _ (lift _) _ => apply triple_lift
  | |- triple _ _ _ this _ => apply triple_this
  | |- triple _ _ _ (ret _) _ =>
      first [ refine (triple_lift _ _ _ (Ok _)) | apply triple_ret; exact Logic.I ]
  | |- triple ?env ?P ?I (await ?r) _ =>
      refine (triple_request env P I r _); solve [auto | reflexivity]
  | |- triple _ _ _ (set_this _) _ =>
      apply triple_set_this; intros ? ?; cbv beta; solve [auto]
  | |- triple _ _ _ (try_catch _ _) _ => apply triple_try_catch; [| intros ?]
  | |- triple _ _ _ (Promise_all _ _) _ => apply triple_Promise_all; intros ?
  | |- triple _ _ _ (bind _ _) _ => eapply triple_bind; [| intros ? _]
  | |- triple _ _ _ (match ?x with _ => _ end) _ => destruct x
  end.

(** *** ABI encoding and the ABI cache *)

(** X7: an array [jsonToRawAbi] returns is the serialization of the ABI,
    and [rawAbiToJson] accepts its version string: on it [rawAbiToJson] is
    the deserializer itself, never 'Unsupported abi version'. *)
Theorem jsonToRawAbi_accepted (jsonAbi : Abi) (rawAbi : bytes) :
  jsonToRawAbi jsonAbi = Ok rawAbi ->
  serialize_abi_def jsonAbi = Ok rawAbi
  /\ rawAbiToJson rawAbi = deserialize_abi_def rawAbi.
Proof.
  unfold jsonToRawAbi, rawAbiToJson.
  destruct (serialize_abi_def jsonAbi) as [buffer | e]; [| discriminate].
  destruct (getString buffer) as [version | e] eqn:Hversion; [| discriminate].
  destruct (supportedAbiVersion version) eqn:Hsupported; [| discriminate].
  intros [= <-]. split; [reflexivity |]. by rewrite Hversion, Hsupported.
Qed.

(** The run of [getCachedAbi], case by case. *)
Lemma run_getCachedAbi env issued st (accountName : string) (reload : bool) :
  run env issued (getCachedAbi accountName reload st)
  = match cache_hit reload (cachedAbis st !! accountName) with
    | Some cached => (Ok cached, st, issued)
    | None =>
        match env issued (getRawAbi accountName) with
        | Err e =>
            (Err (fetching_abi_error accountName e), st, issued ++ [getRawAbi accountName])
        | Ok response =>
            match rawAbiToJson (abi response) with
            | Err e =>
                (Err (fetching_abi_error accountName e), st,
                 issued ++ [getRawAbi accountName])
            | Ok json =>
                let cachedAbi := {| cached_rawAbi := abi response; cached_abi := json |} in
                (Ok cachedAbi,
                 set_cachedAbis (<[accountName := cachedAbi]> (cachedAbis st)) st,
                 issued ++ [getRawAbi accountName])
            end
        end
    end.
Proof.
  unfold getCachedAbi, cache_hit, fetching_abi_error, bind, try_catch, this, await,
    lift, ret, throw, set_this.
  simpl. destruct reload, (cachedAbis st !! accountName); simpl; try reflexivity;
    destruct (env issued (getRawAbi accountName)) as [response | e]; simpl;
    try reflexivity; destruct (rawAbiToJson (abi response)); reflexivity.
Qed.

(** X8: when [getCachedAbi] has to fetch and the provider rejects the
    request, or answers with bytes that [rawAbiToJson] refuses, it throws
    the cause under 'fetching abi for <account>: ', after one request, and
    leaves the object as it was: the entry a failed reload was to replace
    stays in the cache. *)
Theorem getCachedAbi_failure env issued st (accountName : string) (reload : bool)
    (cause : Error) :
  reload = true \/ cachedAbis st !! accountName = None ->
  env issued (getRawAbi accountName) = Err cause
  \/ (exists response,
        env issued (getRawAbi accountName) = Ok response
        /\ rawAbiToJson (abi response) = Err cause) ->
  run env issued (getCachedAbi accountName reload st)
  = (Err ("fetching abi for " +:+ accountName +:+ ": " +:+ cause), st,
     issued ++ [getRawAbi accountName]).
Proof.
  intros Hfetch Hcause. rewrite run_getCachedAbi.
  assert (cache_hit reload (cachedAbis st !! accountName) = None) as ->.
  { unfold cache_hit. destruct Hfetch as [-> | ->]; [reflexivity | by destruct reload]. }
  destruct Hcause as [-> | (response & -> & ->)]; reflexivity.
Qed.

Lemma getCachedAbi_frame_lemma env issued st (accountName : string) (reload : bool) :
  let '(result, st', issued') := run env issued (getCachedAbi accountName reload st) in
  (issued' = issued \/ issued' = issued ++ [getRawAbi accountName])
  /\ chainId st' = chainId st /\ requiredKeys st' = requiredKeys st
  /\ contracts st' = contracts st
  /\ (forall other, other <> accountName ->
        cachedAbis st' !! other = cachedAbis st !! other)
  /\ (forall cachedAbi, result = Ok cachedAbi ->
        cachedAbis st' !! accountName = Some cachedAbi)
  /\ (forall e, result = Err e -> st' = st).
Proof.
  rewrite run_getCachedAbi. unfold cache_hit.
  destruct reload, (cachedAbis st !! accountName) as [cached |] eqn:Hcached; simpl;
    try (repeat split; auto; (by intros ? [= <-]) || (by intros ? [=]));
    destruct (env issued (getRawAbi accountName)) as [response | e]; simpl;
    try (repeat split; auto; by intros ? [=]);
    destruct (rawAbiToJson (abi response)); simpl;
    repeat split; auto;
    try (by intros ? [=]);
    try (by intros ? [= <-]; apply lookup_insert_eq);
    try (by intros other Hother; apply lookup_insert_ne).
Qed.

(** X9: whatever the provider does, [getCachedAbi] issues at most the one
    request [getRawAbi(accountName)]; it changes nothing of the object but
    the cache entry of that account, and nothing at all when it throws;
    and the entry it returns is the entry the cache then holds. *)
Theorem getCachedAbi_frame env issued st (accountName : string) (reload : bool) :
  let '(result, st', issued') := run env issued (getCachedAbi accountName reload st) in
  (issued' = issued \/ issued' = issued ++ [getRawAbi accountName])
  /\ chainId st' = chainId st /\ requiredKeys st' = requiredKeys st
  /\ contracts st' = contracts st
  /\ (forall other, other <> accountName ->
        cachedAbis st' !! other = cachedAbis st !! other)
  /\ (forall cachedAbi, result = Ok cachedAbi ->
        cachedAbis st' !! accountName = Some cachedAbi)
  /\ (forall e, result = Err e -> st' = st).
Proof. apply getCachedAbi_frame_lemma. Qed.

(** *** The contract cache *)

(** The run of [getContract], on top of that of [getCachedAbi]. *)
Lemma run_getContract env issued st (accountName : string) (reload : bool) :
  run env issued (getContract accountName reload st)
  = match cache_hit reload (contracts st !! accountName) with
    | Some contract => (Ok contract, st, issued)
    | None =>
        match run env issued (getCachedAbi accountName reload st) with
        | (Err e, st', issued') => (Err e, st', issued')
        | (Ok cachedAbi, st', issued') =>
            match getTypesFromAbi (cached_abi cachedAbi) with
            | Err e => (Err e, st', issued')
            | Ok types =>
                match contract_actions types ∅ (abi_actions (cached_abi cachedAbi)) with
                | Err e => (Err e, st', issued')
                | Ok actions =>
                    let result := {| types := types; actions := actions |} in
                    (Ok result,
                     set_contracts (<[accountName := result]> (contracts st')) st',
                     issued')
                end
            end
        end
    end.
Proof.
  assert (Hmiss :
    run env issued
      (bind (getAbi accountName reload) (fun abi =>
         bind (lift (getTypesFromAbi abi)) (fun types =>
           bind (lift (contract_actions types ∅ (abi_actions abi))) (fun actions =>
             let result := {| types := types; actions := actions |} in
             bind (set_this (fun st =>
                     set_contracts (<[accountName := result]> (contracts st)) st))
               (fun _ => ret result)))) st)
    = match run env issued (getCachedAbi accountName reload st) with
      | (Err e, st', issued') => (Err e, st', issued')
      | (Ok cachedAbi, st', issued') =>
          match getTypesFromAbi (cached_abi cachedAbi) with
          | Err e => (Err e, st', issued')
          | Ok types =>
              match contract_actions types ∅ (abi_actions (cached_abi cachedAbi)) with
              | Err e => (Err e, st', issued')
              | Ok actions =>
                  let result := {| types := types; actions := actions |} in
                  (Ok result,
                   set_contracts (<[accountName := result]> (contracts st')) st',
                   issued')
              end
          end
      end).
  { rewrite run_bind. unfold getAbi. rewrite run_bind.
    destruct (run env issued (getCachedAbi accountName reload st))
      as [[[cachedAbi | e] st'] issued']; [| reflexivity].
    unfold ret at 1. cbn [run]. unfold bind, lift, set_this, ret. simpl.
    destruct (getTypesFromAbi (cached_abi cachedAbi)) as [types | e]; [| reflexivity].
    simpl. by destruct (contract_actions types ∅ (abi_actions (cached_abi cachedAbi))). }
  unfold getContract. rewrite run_bind. unfold this at 1. cbn [run].
  unfold cache_hit.
  destruct reload, (contracts st !! accountName); try exact Hmiss. reflexivity.
Qed.

(** X10: [getContract] asks the provider only when it has to: not at all
    when the contract, or failing that the ABI, is cached and [reload] is
    off, and with exactly one [getRawAbi] otherwise, so that a reload
    always refetches the ABI. *)
Theorem getContract_requests env issued st (accountName : string) (reload : bool) :
  requests env issued (getContract accountName reload st)
  = match cache_hit reload (contracts st !! accountName),
          cache_hit reload (cachedAbis st !! accountName) with
    | None, None => [getRawAbi accountName]
    | _, _ => []
    end.
Proof.
  unfold requests. rewrite run_getContract.
  destruct (cache_hit reload (contracts st !! accountName)) as [contract |].
  { simpl. by rewrite drop_all. }
  rewrite run_getCachedAbi.
  destruct (cache_hit reload (cachedAbis st !! accountName)) as [cached |].
  - destruct (getTypesFromAbi (cached_abi cached)) as [types | e]; simpl;
      [| by rewrite drop_all].
    destruct (contract_actions types ∅ (abi_actions (cached_abi cached))); simpl;
      by rewrite drop_all.
  - destruct (env issued (getRawAbi accountName)) as [response | e]; simpl;
      [| by rewrite drop_app_length].
    destruct (rawAbiToJson (abi response)) as [json | e]; simpl;
      [| by rewrite drop_app_length].
    destruct (getTypesFromAbi json) as [types | e]; simpl;
      [| by rewrite drop_app_length].
    destruct (contract_actions types ∅ (abi_actions json)); simpl;
      by rewrite drop_app_length.
Qed.

(** X11: a contract [getContract] returns is the contract the cache then
    holds: asked again for the same account without [reload], it returns
    the same contract, issues no request and leaves the object alone.  It
    keeps the chain id and the constructor's keys, and the ABI cache holds
    an entry for the account. *)
Theorem getContract_cached env issued st (accountName : string) (reload : bool)
    (contract : Contract) st' issued' :
  run env issued (getContract accountName reload st) = (Ok contract, st', issued') ->
  contracts st' !! accountName = Some contract
  /\ run env issued' (getContract accountName false st') = (Ok contract, st', issued')
  /\ chainId st' = chainId st /\ requiredKeys st' = requiredKeys st
  /\ (is_Some (contracts st !! accountName) \/ is_Some (cachedAbis st' !! accountName)).
Proof.
  intros Hrun.
  assert (Hcached : contracts st' !! accountName = Some contract
    /\ chainId st' = chainId st /\ requiredKeys st' = requiredKeys st
    /\ (is_Some (contracts st !! accountName) \/ is_Some (cachedAbis st' !! accountName))).
  { rewrite run_getContract in Hrun.
    destruct (cache_hit reload (contracts st !! accountName)) as [c |] eqn:Hhit.
    - injection Hrun as <- <- <-. unfold cache_hit in Hhit.
      destruct reload; [discriminate |]. rewrite Hhit. eauto.
    - pose proof (getCachedAbi_frame_lemma env issued st accountName reload) as Hframe.
      destruct (run env issued (getCachedAbi accountName reload st))
        as [[[cachedAbi | e] st1] issued1]; [| discriminate].
      destruct Hframe as (_ & Hid & Hkeys & _ & _ & Hentry & _).
      destruct (getTypesFromAbi (cached_abi cachedAbi)) as [types | e]; [| discriminate].
      destruct (contract_actions types ∅ (abi_actions (cached_abi cachedAbi)));
        [| discriminate].
      injection Hrun as <- <- <-. simpl.
      split; [apply lookup_insert_eq |]. split; [exact Hid |]. split; [exact Hkeys |].
      right. rewrite (Hentry cachedAbi eq_refl). eauto. }
  destruct Hcached as (Hc & Hid & Hkeys & Habi).
  split; [exact Hc |]. split; [| auto].
  rewrite run_getContract. unfold cache_hit. by rewrite Hc.
Qed.

(** X12: when the loop of [getContract] over [abi.actions] ends, a name is
    bound to the type of its last declaration in the list (a later
    [actions.set] replaces an earlier one), and a name that is not declared
    keeps what the map held; when the loop throws, the error is that of
    [getType] on one of the declared types. *)
Theorem contract_actions_last_wins (types : Types) (l : list (string * string))
    (actions : gmap string TypeDesc) (name : string) :
  (forall result, contract_actions types actions l = Ok result ->
     match last_declared name l with
     | Some type => exists t, getType types type = Ok t /\ result !! name = Some t
     | None => result !! name = actions !! name
     end)
  /\ (forall e, contract_actions types actions l = Err e ->
        exists n type, (n, type) ∈ l /\ getType types type = Err e).
Proof.
  revert actions. induction l as [| [n type] l IH]; intros actions.
  - split; [by intros result [= <-] | by intros e [=]].
  - cbn [contract_actions last_declared].
    destruct (getType types type) as [t | cause] eqn:Htype.
    + destruct (IH (<[n := t]> actions)) as [IHok IHerr]. split.
      * intros result Hresult. specialize (IHok result Hresult).
        destruct (last_declared name l) as [type' |]; [exact IHok |].
        destruct (String.eqb_spec n name) as [-> | Hne].
        -- exists t. split; [exact Htype |]. by rewrite IHok, lookup_insert_eq.
        -- by rewrite IHok, lookup_insert_ne.
      * intros e He. destruct (IHerr e He) as (n' & type' & Hin & Hget).
        exists n', type'. split; [by apply list_elem_of_further | exact Hget].
    + split; [by intros result [=] |].
      intros e [= <-]. exists n, type. split; [apply list_elem_of_here | exact Htype].
Qed.

(** *** The ABIs of a transaction *)

Lemma Set_elements_spec (seen l : list string) :
  NoDup (Set_elements seen l)
  /\ forall x, x ∈ Set_elements seen l <-> x ∈ l /\ x ∉ seen.
Proof.
  revert seen. induction l as [| y l IH]; intros seen; cbn [Set_elements].
  - split; [constructor |]. intros x. split; [by intros ?%elem_of_nil | by intros [?%elem_of_nil _]].
  - case_bool_decide as Hseen.
    + destruct (IH seen) as [Hnodup Hin]. split; [exact Hnodup |].
      intros x. rewrite Hin, elem_of_cons. split; [tauto |].
      intros [[-> | Hx] Hnot]; [contradiction | tauto].
    + destruct (IH (y :: seen)) as [Hnodup Hin]. split.
      * constructor; [| exact Hnodup]. rewrite Hin, elem_of_cons. tauto.
      * intros x. rewrite !elem_of_cons, Hin, elem_of_cons.
        destruct (decide (x = y)) as [-> | Hne]; tauto.
Qed.

(** A computation that ends by returning a function of its value. *)
Lemma run_bind_ret {A B} env issued (m : M A) (g : A -> B) st :
  run env issued (bind m (fun a => ret (g a)) st)
  = match run env issued (m st) with
    | (Ok a, st', issued') => (Ok (g a), st', issued')
    | (Err e, st', issued') => (Err e, st', issued')
    end.
Proof.
  rewrite run_bind. by destruct (run env issued (m st)) as [[[a | e] st'] issued'].
Qed.

(** *** The requests of a [Promise.all] *)

Lemma silent_requests {B} env (m : M B) issued st :
  silent env m -> requests env issued (m st) = [].
Proof.
  intros Hm. destruct (triple_run _ _ _ _ _ Hm issued st Logic.I) as [Hreq _].
  destruct (requests env issued (m st)) as [| r l]; [reflexivity |].
  by inversion Hreq.
Qed.

Lemma silent_settle_all {B} env (started : list (Started B)) :
  Forall (silent_started env) started -> silent env (settle_all started).
Proof.
  unfold silent. induction 1 as [| task started Htask _ IH]; simpl.
  - by apply triple_ret.
  - destruct task as [result | resume]; simpl in Htask.
    + eapply triple_bind; [exact IH |]. intros results _. by apply triple_ret.
    + eapply triple_bind;
        [eapply triple_weaken; [apply triple_settled, Htask | done] |].
      intros result _. eapply triple_bind; [exact IH |].
      intros results _. by apply triple_ret.
Qed.

(** Tasks that issue one request at most, and that at their start: the
    first requests all leave, in the order of the array, whatever the
    answers are. *)
Lemma run_start_all {A B} env (f : A -> M B) (first : A -> option Request)
    (J : ApiState -> Prop) (l : list A) issued st :
  (forall x st, J st ->
     match first x with
     | None => exists result st1, f x st = Ret (result, st1) /\ J st1
     | Some r => exists k, f x st = Vis r st k /\ forall answer, silent env (k answer)
     end) ->
  J st ->
  exists started st1,
    run env issued (start_all f l st) = (Ok started, st1, issued ++ omap first l)
    /\ J st1 /\ Forall (silent_started env) started.
Proof.
  intros Hf. revert issued st. induction l as [| x l IH]; intros issued st HJ.
  - exists [], st. simpl. rewrite app_nil_r. auto.
  - cbn [start_all omap list_omap]. pose proof (Hf x st HJ) as Hx.
    destruct (first x) as [r |].
    + destruct Hx as (k & -> & Hk). cbn [run].
      destruct (IH (issued ++ [r]) st HJ) as (started & st1 & Hrun & HJ1 & Hs).
      rewrite run_bind_ret, Hrun. eexists _, st1.
      split; [by rewrite <- app_assoc |]. split; [exact HJ1 |].
      constructor; [apply Hk | exact Hs].
    + destruct Hx as (result & st0 & -> & HJ0).
      destruct (IH issued st0 HJ0) as (started & st1 & Hrun & HJ1 & Hs).
      rewrite run_bind_ret, Hrun. eexists _, st1.
      split; [reflexivity |]. split; [exact HJ1 |]. by constructor.
Qed.

Lemma requests_Promise_all {A B} env (f : A -> M B) (first : A -> option Request)
    (J : ApiState -> Prop) (l : list A) issued st :
  (forall x st, J st ->
     match first x with
     | None => exists result st1, f x st = Ret (result, st1) /\ J st1
     | Some r => exists k, f x st = Vis r st k /\ forall answer, silent env (k answer)
     end) ->
  J st ->
  requests env issued (Promise_all f l st) = omap first l.
Proof.
  intros Hf HJ. unfold Promise_all. rewrite requests_bind.
  destruct (run_start_all env f first J l issued st Hf HJ)
    as (started & st1 & Hrun & _ & Hs).
  unfold requests at 1. rewrite Hrun. cbn [snd]. rewrite drop_app_length.
  rewrite requests_bind, (silent_requests env _ _ _ (silent_settle_all env _ Hs)).
  destruct (run env _ (settle_all started st1)) as [[[results | e] st2] issued2];
    cbn [app]; [unfold lift; rewrite requests_ret |]; by rewrite app_nil_r.
Qed.

(** The task of [getTransactionAbis] for one account. *)
Lemma getTransactionAbis_task env (reload : bool) (account : string) st :
  let task :=
    bind (getCachedAbi account reload) (fun cachedAbi =>
      ret {| accountName := account; abi := cached_rawAbi cachedAbi |}) in
  if abi_needed reload st account
  then exists k, task st = Vis (getRawAbi account) st k
                 /\ forall answer, silent env (k answer)
  else exists result, task st = Ret (result, st).
Proof.
  unfold abi_needed, cache_hit, getCachedAbi, bind, try_catch, this, await, lift, ret,
    throw, set_this.
  simpl. destruct reload, (cachedAbis st !! account) as [cached |]; simpl;
    try (eexists; reflexivity);
    (eexists; split; [reflexivity |]; intros [response | e] st' _; simpl;
     [destruct (rawAbiToJson (abi response)); simpl; auto | auto]).
Qed.

(** X13: [getTransactionAbis] starts a task for each account of the
    transaction, the accounts taken once each in the order of their first
    action, context-free actions first.  The requests it issues are one
    [getRawAbi] for every such account whose ABI is not at hand when it is
    called, in that order and whatever the provider answers: a rejected
    request does not hold back the later ones.  When it returns, its result
    names each account exactly once, in that order. *)
Theorem getTransactionAbis_one_per_account env issued st (transaction : Obj)
    (reload : bool) :
  let accounts := Set_elements [] (transaction_accounts transaction) in
  requests env issued (getTransactionAbis transaction reload st)
    = getRawAbi <$> List.filter (abi_needed reload st) accounts
  /\ (forall abis,
        (run env issued (getTransactionAbis transaction reload st)).1.1 = Ok abis ->
        accountName <$> abis = accounts)
  /\ NoDup accounts
  /\ (forall a, a ∈ accounts <-> a ∈ transaction_accounts transaction).
Proof.
  intros accounts. subst accounts.
  destruct (Set_elements_spec [] (transaction_accounts transaction)) as [Hnodup Hin].
  split; [| split; [| split; [exact Hnodup |]]].
  - unfold transaction_accounts, getTransactionAbis.
    destruct (actions_or_empty (get transaction "context_free_actions")) as [cfa | e];
      [destruct (as_actions (get transaction "actions")) as [acts | e] |].
    + unfold bind at 1 2, lift. cbn [prog_bind].
      rewrite (requests_Promise_all env _
        (fun account => if abi_needed reload st account
                        then Some (getRawAbi account) else None)
        (fun st' => st' = st)); [| | reflexivity].
      * generalize (Set_elements [] (map account (cfa ++ acts))). intros l.
        induction l as [| x l IH]; [reflexivity |].
        cbn [omap list_omap List.filter]. destruct (abi_needed reload st x); [| exact IH].
        cbn [fmap list_fmap]. by rewrite IH.
      * intros x st' ->. pose proof (getTransactionAbis_task env reload x st) as Hx.
        cbv zeta in Hx. destruct (abi_needed reload st x); [exact Hx |].
        destruct Hx as [result Hx]. by exists result, st.
    + unfold bind, lift. simpl. by rewrite requests_ret.
    + unfold bind, lift. simpl. by rewrite requests_ret.
  - intros abis Hrun.
    assert (Htriple : triple env (fun _ => True) (fun _ => True)
      (getTransactionAbis transaction reload)
      (fun abis => accountName <$> abis
                   = Set_elements [] (transaction_accounts transaction))).
    { unfold transaction_accounts, getTransactionAbis.
      eapply triple_bind with (Q := fun cfa =>
        actions_or_empty (get transaction "context_free_actions") = Ok cfa);
        [by apply triple_leaf |]. intros cfa ->.
      eapply triple_bind with (Q := fun acts =>
        as_actions (get transaction "actions") = Ok acts); [by apply triple_leaf |].
      intros acts ->. cbv zeta.
      eapply triple_weaken;
        [apply (triple_Promise_all_each env _ _ _ _
                  (fun account abi => accountName abi = account)) |].
      - intros account. eapply triple_bind; [| intros cachedAbi _; by apply triple_ret].
        unfold getCachedAbi. repeat triple_walk.
      - intros abis'. generalize (Set_elements [] (map Api.account (cfa ++ acts))).
        intros l Hall. induction Hall as [| x y l ys Hy _ IH]; [reflexivity |].
        cbn [fmap list_fmap]. by rewrite Hy, IH. }
    by apply (triple_run _ _ _ _ _ Htriple issued st Logic.I).
  - intros a. rewrite (Hin a). split; [tauto |]. intros Ha. split; [exact Ha |].
    apply not_elem_of_nil.
Qed.

(** *** Serialization *)

(** X14: [serializeTransaction] fills in a default only for a field the
    transaction does not have: spelling a default out changes nothing, a
    field of the transaction (be it [undefined]) reaches the codec as it
    is, and every other field of the object the codec gets is a default. *)
Theorem serializeTransaction_defaults (transaction : Obj) :
  (forall k d, transaction_defaults !! k = Some d -> transaction !! k = None ->
     serializeTransaction (<[k := d]> transaction) = serializeTransaction transaction)
  /\ exists object : Obj,
       serializeTransaction transaction = serialize "transaction" object
       /\ (forall k v, transaction !! k = Some v -> object !! k = Some v)
       /\ (forall k, transaction !! k = None -> object !! k = transaction_defaults !! k).
Proof.
  split.
  - intros k d Hd Hk. unfold serializeTransaction, assign. f_equal.
    apply map_eq. intros j. rewrite !lookup_union.
    destruct (decide (k = j)) as [<- | Hne].
    + by rewrite lookup_insert_eq, Hk, Hd.
    + by rewrite lookup_insert_ne.
  - exists (assign transaction_defaults transaction). unfold assign.
    split; [reflexivity |]. split.
    + intros k v Hk. by apply lookup_union_Some_l.
    + intros k Hk. by apply lookup_union_r.
Qed.

(** *** Which endpoint [generateTapos] asks *)

(** X15: with [useLastIrreversible], [generateTapos] asks [get_block] for
    the last irreversible block and never [get_block_header_state].  With
    [blocksBehind = b] it asks [get_block] when [head_block_num - b] is at
    most the last irreversible block number, and [get_block_header_state]
    first otherwise (so also for a negative [b]).  With neither, the number
    is [NaN] and [get_block_header_state] is asked for it. *)
Theorem generateTapos_endpoint env issued st (info : GetInfoResult)
    (transaction : Obj) (blocksBehind : option number)
    (useLastIrreversible : option bool) (expireSeconds : option number) :
  let asked :=
    requests env issued
      (generateTapos (Some info) transaction blocksBehind useLastIrreversible
         expireSeconds st) in
  let head := head_block_num info in
  let lib := last_irreversible_block_num info in
  (flag useLastIrreversible = true -> asked = [get_block (Some lib)])
  /\ (forall b, flag useLastIrreversible = false -> blocksBehind = Some (Some b) ->
        head - b <= lib -> asked = [get_block (Some (head - b))])
  /\ (forall b, flag useLastIrreversible = false -> blocksBehind = Some (Some b) ->
        lib < head - b ->
        asked
        = if is_ok (env issued (get_block_header_state (Some (head - b))))
          then [get_block_header_state (Some (head - b))]
          else [get_block_header_state (Some (head - b)); get_block (Some (head - b))])
  /\ (flag useLastIrreversible = false -> to_number blocksBehind = None ->
        asked !! 0%nat = Some (get_block_header_state None)).
Proof.
  intros asked head lib.
  assert (Hasked : asked
    = tapos_block_requests env issued info
        (taposBlockNumber info blocksBehind useLastIrreversible)).
  { unfold asked, requests, tapos_block_requests. rewrite run_generateTapos_info.
    destruct (num_le _ _).
    - destruct (env issued (get_block _)); simpl; by rewrite drop_app_length.
    - destruct (env issued (get_block_header_state _)); simpl.
      + by rewrite drop_app_length.
      + destruct (env _ (get_block _)); simpl; by rewrite drop_app_length. }
  rewrite Hasked. unfold tapos_block_requests, taposBlockNumber. fold head lib.
  split; [| split; [| split]].
  - intros ->. simpl. by rewrite Z.leb_refl.
  - intros b -> -> Hle. simpl. destruct (Z.leb_spec (head - b) lib); [reflexivity | lia].
  - intros b -> -> Hlt. simpl. destruct (Z.leb_spec (head - b) lib); [lia | reflexivity].
  - intros -> ->. simpl. by destruct (is_ok _).
Qed.

(** *** What a whole [transact] may request *)

Section Phases.
Variables (env : Env) (P : Request -> Prop) (Inv : ApiState -> Prop).
Hypothesis Inv_chainId : forall v st, Inv st -> Inv (set_chainId v st).
Hypothesis Inv_cachedAbis : forall v st, Inv st -> Inv (set_cachedAbis v st).
Hypothesis Inv_contracts : forall v st, Inv st -> Inv (set_contracts v st).
Hypothesis P_getRawAbi : forall a, P (getRawAbi a).

Lemma getCachedAbi_triple accountName reload :
  triple env P Inv (getCachedAbi accountName reload) (fun _ => True).
Proof. unfold getCachedAbi. repeat triple_walk. Qed.

Lemma getContract_triple accountName reload :
  triple env P Inv (getContract accountName reload) (fun _ => True).
Proof.
  unfold getContract, getAbi. repeat (apply getCachedAbi_triple || triple_walk).
Qed.

Lemma getTransactionAbis_triple (transaction : Obj) reload :
  triple env P Inv (getTransactionAbis transaction reload) (fun _ => True).
Proof.
  unfold getTransactionAbis. repeat (apply getCachedAbi_triple || triple_walk).
Qed.

Lemma serializeActions_triple (l : list Action) :
  triple env P Inv (serializeActions l) (fun _ => True).
Proof. unfold serializeActions. repeat (apply getContract_triple || triple_walk). Qed.

Lemma deserializeActions_triple (l : list Action) :
  triple env P Inv (deserializeActions l) (fun _ => True).
Proof. unfold deserializeActions. repeat (apply getContract_triple || triple_walk). Qed.

Lemma generateTapos_triple info (transaction : Obj) blocksBehind useLastIrreversible
    expireSeconds :
  (info = None -> P get_info) ->
  (forall n, P (get_block n)) ->
  (forall n, P (get_block_header_state n)) ->
  triple env P Inv
    (generateTapos info transaction blocksBehind useLastIrreversible expireSeconds)
    (fun _ => True).
Proof.
  intros Hinfo Hblock Hstate. unfold generateTapos, tryGetBlockHeaderState.
  eapply triple_bind; [| intros ? _; repeat triple_walk].
  destruct info; [triple_walk |].
  specialize (Hinfo eq_refl). triple_walk.
Qed.

Lemma transact_chainId_triple :
  P get_info -> triple env P Inv transact_chainId (fun _ => True).
Proof. intros Hinfo. unfold transact_chainId. repeat triple_walk. Qed.

Lemma transact_tapos_triple info (transaction : Obj) blocksBehind useLastIrreversible
    expireSeconds :
  (info = None -> P get_info) ->
  (forall n, P (get_block n)) ->
  (forall n, P (get_block_header_state n)) ->
  triple env P Inv
    (transact_tapos info transaction blocksBehind useLastIrreversible expireSeconds)
    (fun _ => True).
Proof.
  intros Hinfo Hblock Hstate. unfold transact_tapos.
  repeat (apply generateTapos_triple || triple_walk); auto.
Qed.

(** The signing round trip returns what the signature provider answered. *)
Lemma transact_sign_triple (transaction : Obj) abis serializedTransaction
    serializedContextFreeData :
  P getAvailableKeys -> (forall a, P (getRequiredKeys a)) -> (forall a, P (sign a)) ->
  triple env P Inv
    (transact_sign transaction abis serializedTransaction serializedContextFreeData)
    (fun args => exists issued' a, env issued' (sign a) = Ok args).
Proof.
  intros Havailable Hrequired Hsign. unfold transact_sign.
  eapply triple_bind; [triple_walk |]. intros availableKeys _.
  eapply triple_bind; [apply triple_this |]. intros self _.
  eapply triple_bind; [destruct (requiredKeys self); triple_walk |]. intros keys _.
  eapply triple_bind; [apply triple_this |]. intros self' _.
  match goal with
  | |- triple ?env ?P ?I (await ?r) _ =>
      eapply triple_weaken; [exact (triple_await env P I r (Hsign _)) |]
  end.
  intros args [issued' Hargs]. eauto.
Qed.

Lemma transact_send_triple (transaction : Obj) (sign broadcast : bool)
    (compression : option bool) (Qp : Receipt -> Prop) :
  (sign = true ->
   P getAvailableKeys /\ (forall a, P (getRequiredKeys a)) /\ (forall a, P (Api.sign a))) ->
  (broadcast = true -> forall args, handed_over env sign args ->
   triple env P Inv
     (if flag compression then pushCompressedSignedTransaction args
      else pushSignedTransaction args) Qp) ->
  triple env P Inv (transact_send transaction sign broadcast compression)
    (fun res =>
       match res with
       | Unsent args => broadcast = false /\ handed_over env sign args
       | Pushed receipt => broadcast = true /\ Qp receipt
       end).
Proof.
  intros Hsign Hpush. unfold transact_send. cbv zeta.
  eapply triple_bind; [apply getTransactionAbis_triple |]. intros abis _.
  eapply triple_bind;
    [repeat (apply serializeActions_triple || triple_walk) |]. intros cfa _.
  eapply triple_bind;
    [repeat (apply serializeActions_triple || triple_walk) |]. intros acts _.
  eapply triple_bind; [triple_walk |]. intros serializedTransaction _.
  eapply triple_bind; [triple_walk |]. intros serializedContextFreeData _.
  apply (triple_bind _ _ _ _ _ (handed_over env sign)).
  - destruct sign.
    + destruct (Hsign eq_refl) as (Ha & Hr & Hs). by apply transact_sign_triple.
    + apply triple_ret. by split.
  - intros args Hargs. destruct broadcast.
    + specialize (Hpush eq_refl args Hargs). destruct (flag compression).
      * eapply triple_bind; [exact Hpush |]. intros receipt Hreceipt.
        by apply triple_ret.
      * eapply triple_bind; [exact Hpush |]. intros receipt Hreceipt.
        by apply triple_ret.
    + by apply triple_ret.
Qed.

(** [transact] is its three phases in a row, unless the strategy check
    throws. *)
Lemma transact_triple (transaction : Obj) (config : TransactConfig)
    (Qc : option GetInfoResult -> Prop) (Qt : Obj -> Prop) (Q : TransactResult -> Prop) :
  triple env P Inv transact_chainId Qc ->
  (forall info, Qc info ->
   triple env P Inv
     (transact_tapos info transaction (cfg_blocksBehind config)
        (cfg_useLastIrreversible config) (cfg_expireSeconds config)) Qt) ->
  (forall transaction', Qt transaction' ->
   triple env P Inv
     (transact_send transaction' (default true (cfg_sign config))
        (default true (cfg_broadcast config)) (cfg_compression config)) Q) ->
  triple env P Inv (transact transaction config) Q.
Proof.
  intros Hchain Htapos Hsend. unfold transact. cbv zeta.
  destruct (given _ && flag _); [apply triple_throw |].
  eapply triple_bind; [exact Hchain |]. intros info Hinfo.
  eapply triple_bind; [by apply Htapos |]. intros transaction' Htransaction'.
  by apply Hsend.
Qed.

(** The same of a run of [transact]. *)
Lemma transact_run (transaction : Obj) (config : TransactConfig)
    (Qc : option GetInfoResult -> Prop) (Qt : Obj -> Prop) (Q : TransactResult -> Prop) :
  triple env P Inv transact_chainId Qc ->
  (forall info, Qc info ->
   triple env P Inv
     (transact_tapos info transaction (cfg_blocksBehind config)
        (cfg_useLastIrreversible config) (cfg_expireSeconds config)) Qt) ->
  (forall transaction', Qt transaction' ->
   triple env P Inv
     (transact_send transaction' (default true (cfg_sign config))
        (default true (cfg_broadcast config)) (cfg_compression config)) Q) ->
  forall issued st, Inv st ->
    Forall P (requests env issued (transact transaction config st))
    /\ Inv (run env issued (transact transaction config st)).1.2
    /\ forall res, (run env issued (transact transaction config st)).1.1 = Ok res -> Q res.
Proof.
  intros Hchain Htapos Hsend. apply triple_run.
  by apply (transact_triple transaction config Qc Qt Q).
Qed.

End Phases.

(** *** The keys [transact] signs with *)

Lemma eventually_later {A B} env (P : Request -> Prop) (I : ApiState -> Prop)
    (m : M A) (f : A -> M B) (Q' : A -> Prop) (Q : list Request -> Prop) :
  triple env P I m Q' ->
  (forall a, eventually env I (f a) Q) ->
  (forall l1 l2, Forall P l1 -> Q l2 -> Q (l1 ++ l2)) ->
  eventually env I (bind m f) Q.
Proof.
  intros Hm Hf Hclosed issued st HI.
  destruct (triple_run _ _ _ _ _ Hm issued st HI) as (Hreq & HI1 & _).
  rewrite run_bind, requests_bind.
  destruct (run env issued (m st)) as [[[a | e] st1] issued1]; simpl in *.
  - destruct (Hf a issued1 st1 HI1) as [HI2 HQ]. split; [exact HI2 |].
    intros b Hb. apply Hclosed; [exact Hreq | by apply (HQ b)].
  - split; [exact HI1 | by intros b [=]].
Qed.

Lemma eventually_earlier {A B} env (P : Request -> Prop) (I : ApiState -> Prop)
    (m : M A) (f : A -> M B) (Q' : B -> Prop) (Q : list Request -> Prop) :
  eventually env I m Q ->
  (forall a, triple env P I (f a) Q') ->
  (forall l1 l2, Q l1 -> Forall P l2 -> Q (l1 ++ l2)) ->
  eventually env I (bind m f) Q.
Proof.
  intros Hm Hf Hclosed issued st HI. destruct (Hm issued st HI) as [HI1 HQ].
  rewrite run_bind, requests_bind.
  destruct (run env issued (m st)) as [[[a | e] st1] issued1]; simpl in *.
  - destruct (triple_run _ _ _ _ _ (Hf a) issued1 st1 HI1) as (Hreq & HI2 & _).
    split; [exact HI2 |]. intros b Hb. apply Hclosed; [by apply (HQ a) | exact Hreq].
  - split; [exact HI1 | by intros b [=]].
Qed.

Lemma signs_once_later env override (l1 l2 : list Request) :
  Forall (fun r => is_signing r = false) l1 ->
  signs_once env override l2 -> signs_once env override (l1 ++ l2).
Proof.
  intros Hl1 (before & signing & after & -> & Hsigning & Hbefore & Hafter).
  exists (l1 ++ before), signing, after. rewrite <- app_assoc.
  split; [reflexivity |]. split; [exact Hsigning |]. split; [by apply Forall_app | exact Hafter].
Qed.

Lemma signs_once_earlier env override (l1 l2 : list Request) :
  signs_once env override l1 ->
  Forall (fun r => is_signing r = false) l2 -> signs_once env override (l1 ++ l2).
Proof.
  intros (before & signing & after & -> & Hsigning & Hbefore & Hafter) Hl2.
  exists before, signing, (after ++ l2). rewrite <- !app_assoc.
  split; [reflexivity |]. split; [exact Hsigning |]. split; [exact Hbefore | by apply Forall_app].
Qed.

(** The signing round trip, when it returns, has made the requests of one
    signing. *)
Lemma eventually_transact_sign env override (transaction : Obj) abis
    serializedTransaction serializedContextFreeData :
  eventually env (built override)
    (transact_sign transaction abis serializedTransaction serializedContextFreeData)
    (signing_requests env override).
Proof.
  intros issued st HI.
  pose proof (run_transact_sign env issued st transaction abis serializedTransaction
                serializedContextFreeData) as Hrun.
  cbv beta zeta in Hrun. unfold built in HI. rewrite HI in Hrun.
  unfold requests. rewrite Hrun. clear Hrun.
  destruct (env issued getAvailableKeys) as [availableKeys | e] eqn:Havailable;
    [| by split; [| intros ? [=]]].
  destruct override as [keys |].
  - cbn [fst snd]. split; [exact HI |]. intros args _. rewrite drop_app_length.
    eexists. split; reflexivity.
  - destruct (env (issued ++ [getAvailableKeys]) (getRequiredKeys _)) as [keys | e]
      eqn:Hrequired; [| by split; [| intros ? [=]]].
    cbn [fst snd]. split; [exact HI |]. intros args _. rewrite drop_app_length.
    eexists. eexists _, _, _. split; [reflexivity |].
    split; [exact Havailable | exact Hrequired].
Qed.

Lemma built_set_chainId override v st : built override st -> built override (set_chainId v st).
Proof. done. Qed.

Lemma built_set_cachedAbis override v st :
  built override st -> built override (set_cachedAbis v st).
Proof. done. Qed.

Lemma built_set_contracts override v st :
  built override st -> built override (set_contracts v st).
Proof. done. Qed.

(** Labels 5 to 14 with [sign] on: when they return, there has been one
    signing. *)
Lemma eventually_transact_send env override (transaction : Obj) broadcast compression :
  eventually env (built override)
    (transact_send transaction true broadcast compression) (signs_once env override).
Proof.
  set (P := fun r : Request => is_signing r = false).
  assert (HP : forall a, P (getRawAbi a)) by done.
  unfold transact_send. cbv zeta.
  assert (Hactions : forall v : JsVal, forall g : JsVal -> Result (list Action),
    triple env P (built override)
      (bind (lift (g v)) (fun l => serializeActions l)) (fun _ => True)).
  { intros v g. eapply triple_bind; [apply triple_lift |]. intros l _.
    apply serializeActions_triple;
      auto using built_set_cachedAbis, built_set_contracts. }
  eapply (eventually_later env P);
    [apply getTransactionAbis_triple;
       auto using built_set_cachedAbis, built_set_contracts
    | intros abis | apply signs_once_later].
  eapply (eventually_later env P);
    [apply (Hactions _ actions_or_empty) | intros cfa | apply signs_once_later].
  eapply (eventually_later env P);
    [apply (Hactions _ as_actions) | intros acts | apply signs_once_later].
  eapply (eventually_later env P);
    [apply triple_lift | intros serializedTransaction | apply signs_once_later].
  eapply (eventually_later env P);
    [apply triple_lift | intros serializedContextFreeData | apply signs_once_later].
  eapply (eventually_earlier env P) with (Q' := fun _ => True).
  - intros issued st HI.
    match goal with
    | |- context [transact_sign ?t _ _ _] =>
        destruct (eventually_transact_sign env override t abis serializedTransaction
                    serializedContextFreeData issued st HI) as [HI1 Hsigning]
    end.
    split; [exact HI1 |]. intros args Hargs.
    eexists [], _, []. rewrite app_nil_r.
    split; [reflexivity |]. split; [by apply (Hsigning args) |]. by split.
  - intros args. unfold pushCompressedSignedTransaction, pushSignedTransaction.
    cbv zeta. destruct broadcast; [destruct (flag compression) |]; repeat triple_walk.
  - apply signs_once_earlier.
Qed.

(** [transact] with [sign] on: when it returns, there has been one
    signing. *)
Lemma eventually_transact env override (transaction : Obj) (config : TransactConfig) :
  cfg_sign config <> Some false ->
  eventually env (built override) (transact transaction config) (signs_once env override).
Proof.
  intros Hsign.
  assert (default true (cfg_sign config) = true) as Hon.
  { destruct (cfg_sign config) as [[] |]; [reflexivity | contradiction | reflexivity]. }
  set (P := fun r : Request => is_signing r = false).
  unfold transact. cbv zeta. rewrite Hon.
  destruct (given _ && flag _).
  { intros issued st HI. split; [exact HI | by intros ? [=]]. }
  eapply (eventually_later env P);
    [apply transact_chainId_triple; first [done | apply built_set_chainId]
    | intros info | apply signs_once_later].
  eapply (eventually_later env P);
    [apply transact_tapos_triple; done
    | intros transaction' | apply signs_once_later].
  apply eventually_transact_send.
Qed.

(** C9: [transact] does not read the [requiredKeys] field of its config:
    replacing that field leaves the computation the same.  The keys of
    every [sign] request are the [requiredKeys] the constructor was given
    when there are such, and otherwise an answer of the authority provider
    to [getRequiredKeys]; with the constructor's override the authority
    provider is not asked at all.  And unless [sign] is [false], a call
    that returns has signed, once: it has asked for the available keys,
    then, only if the constructor gave no keys, asked the authority
    provider with those keys, and then asked for the signature with the
    constructor's keys or with the authority provider's answer; no other
    request of the call goes to either provider. *)
Theorem transact_signs_with_constructor_keys env issued st
    (transaction : Obj) (config : TransactConfig) :
  (forall keys,
     transact transaction (with_requiredKeys keys config) st
     = transact transaction config st)
  /\ Forall (keys_as_constructed env (requiredKeys st))
       (requests env issued (transact transaction config st))
  /\ (cfg_sign config <> Some false ->
      forall res,
        (run env issued (transact transaction config st)).1.1 = Ok res ->
        signs_once env (requiredKeys st)
          (requests env issued (transact transaction config st))).
Proof.
  split; [reflexivity |]. split.
  - by apply (triple_run _ _ _ _ _
                (transact_keys env (requiredKeys st) transaction config) issued st).
  - intros Hsign res Hres.
    by apply (eventually_transact env (requiredKeys st) transaction config Hsign
                issued st eq_refl) with res.
Qed.



(** X16: with [broadcast: false], [transact] never issues
    [push_transaction], and what it returns when it returns is the unsent
    arguments: those the signature provider answered with if it signs,
    its own with an empty [signatures] otherwise. *)
Theorem transact_without_broadcast env issued st (transaction : Obj)
    (config : TransactConfig) :
  cfg_broadcast config = Some false ->
  Forall (fun r => is_push_transaction r = false)
    (requests env issued (transact transaction config st))
  /\ forall res, (run env issued (transact transaction config st)).1.1 = Ok res ->
       exists args, res = Unsent args
         /\ handed_over env (default true (cfg_sign config)) args.
Proof.
  intros Hbroadcast.
  destruct (transact_run env (fun r => is_push_transaction r = false)
    (fun _ => True) transaction config (fun _ => True) (fun _ => True)
    (fun res => match res with
                | Unsent args =>
                    false = false /\ handed_over env (default true (cfg_sign config)) args
                | Pushed receipt => false = true /\ True
                end)) with (issued := issued) (st := st) as (Hreq & _ & Hres); try done.
  - by apply transact_chainId_triple.
  - intros info _. by apply transact_tapos_triple.
  - intros transaction' _. rewrite Hbroadcast. simpl.
    apply (transact_send_triple env _ _); try done.
  - split; [exact Hreq |]. intros res Hrun. specialize (Hres res Hrun).
    destruct res as [receipt | args]; [by destruct Hres | eexists; split; [done | tauto]].
Qed.

(** X17: with [sign: false], [transact] asks neither the signature
    provider nor the authority provider for anything; the arguments it
    broadcasts or returns carry no signature. *)
Theorem transact_without_sign env issued st (transaction : Obj)
    (config : TransactConfig) :
  cfg_sign config = Some false ->
  Forall (fun r => is_signing r = false
                   /\ match r with
                      | push_transaction args => signatures args = []
                      | _ => True
                      end)
    (requests env issued (transact transaction config st))
  /\ forall args,
       (run env issued (transact transaction config st)).1.1 = Ok (Unsent args) ->
       signatures args = [] /\ compression args = None.
Proof.
  intros Hsign.
  set (P := fun r : Request =>
    is_signing r = false
    /\ match r with
       | push_transaction args => signatures args = []
       | _ => True
       end).
  destruct (transact_run env P (fun _ => True) transaction config
    (fun _ => True) (fun _ => True)
    (fun res => match res with
                | Unsent args =>
                    default true (cfg_broadcast config) = false /\ handed_over env false args
                | Pushed receipt => default true (cfg_broadcast config) = true /\ True
                end)) with (issued := issued) (st := st) as (Hreq & _ & Hres); try done.
  - by apply transact_chainId_triple.
  - intros info _. by apply transact_tapos_triple.
  - intros transaction' _. rewrite Hsign. simpl.
    apply (transact_send_triple env _ _); try done.
    intros _ args [Hsignatures _].
    unfold pushCompressedSignedTransaction, pushSignedTransaction. cbv zeta.
    destruct (flag (cfg_compression config));
      match goal with
      | |- triple ?env ?P ?I (await ?r) _ =>
          refine (triple_request env P I r _); by split
      end.
  - split; [exact Hreq |]. intros args Hrun. by destruct (Hres _ Hrun) as [_ ?].
Qed.

(** X18: whatever [transact] broadcasts is what it was handed: the
    argument of each [push_transaction] request is built from the answer
    of the signature provider (from the unsigned arguments with
    [sign: false]), as it is without [compression], and with both buffers
    deflated and [compression: 1] with it; the receipt [transact] returns
    is the node's answer to such a request. *)
Theorem transact_broadcasts_what_was_signed env issued st (transaction : Obj)
    (config : TransactConfig) :
  Forall (fun r => match r with
                   | push_transaction pushed =>
                       exists args,
                         handed_over env (default true (cfg_sign config)) args
                         /\ pushed = pushed_for (cfg_compression config) args
                   | _ => True
                   end)
    (requests env issued (transact transaction config st))
  /\ forall receipt,
       (run env issued (transact transaction config st)).1.1 = Ok (Pushed receipt) ->
       cfg_broadcast config <> Some false
       /\ exists issued' pushed, env issued' (push_transaction pushed) = Ok receipt.
Proof.
  set (P := fun r : Request =>
    match r with
    | push_transaction pushed =>
        exists args,
          handed_over env (default true (cfg_sign config)) args
          /\ pushed = pushed_for (cfg_compression config) args
    | _ => True
    end).
  destruct (transact_run env P (fun _ => True) transaction config
    (fun _ => True) (fun _ => True)
    (fun res => match res with
                | Unsent args =>
                    default true (cfg_broadcast config) = false
                    /\ handed_over env (default true (cfg_sign config)) args
                | Pushed receipt =>
                    default true (cfg_broadcast config) = true
                    /\ exists issued' pushed,
                         env issued' (push_transaction pushed) = Ok receipt
                end)) with (issued := issued) (st := st) as (Hreq & _ & Hres); try done.
  - by apply transact_chainId_triple.
  - intros info _. by apply transact_tapos_triple.
  - intros transaction' _.
    apply (transact_send_triple env _ _); try done.
    intros _ args Hargs.
    assert (HP : P (push_transaction (pushed_for (cfg_compression config) args))).
    { exists args. by split. }
    unfold pushCompressedSignedTransaction, pushSignedTransaction. cbv zeta.
    unfold pushed_for in HP.
    destruct (flag (cfg_compression config));
      match goal with
      | |- triple ?env ?P ?I (await ?r) _ =>
          eapply triple_weaken; [exact (triple_await env P I r HP) |]
      end; intros receipt [issued' Hreceipt]; eauto.
  - split; [exact Hreq |]. intros receipt Hrun.
    destruct (Hres _ Hrun) as [Hbroadcast Hpushed].
    split; [| exact Hpushed]. intros Hfalse. by rewrite Hfalse in Hbroadcast.
Qed.

(** *** TAPoS fields the caller supplies *)

(** Requests of [transact] that do not sign or broadcast leave any
    predicate true of [getRawAbi], the signing requests and
    [push_transaction] alone. *)
Lemma transact_send_free env (P : Request -> Prop) (Inv : ApiState -> Prop)
    (transaction : Obj) sign broadcast compression :
  (forall v st, Inv st -> Inv (set_cachedAbis v st)) ->
  (forall v st, Inv st -> Inv (set_contracts v st)) ->
  (forall r, is_getRawAbi r || is_signing r || is_push_transaction r = true -> P r) ->
  triple env P Inv (transact_send transaction sign broadcast compression) (fun _ => True).
Proof.
  intros Habis Hcontracts HP.
  eapply triple_weaken; [| done].
  apply (transact_send_triple env P Inv Habis Hcontracts) with (Qp := fun _ => True).
  - intros a. by apply HP.
  - intros _. repeat split; intros; by apply HP.
  - intros _ args _. unfold pushCompressedSignedTransaction, pushSignedTransaction.
    cbv zeta. destruct (flag compression);
      match goal with
      | |- triple ?env ?P ?I (await ?r) _ =>
          refine (triple_request env P I r _); by apply HP
      end.
Qed.

(** X19: when the three TAPoS fields of the transaction are truthy,
    [transact] takes the transaction as it is: the TAPoS step returns it
    unchanged, whether or not [hasRequiredTaposFields] would accept it, no
    block is asked for whatever the config says, and with a chain id at
    hand [get_info] is not asked either. *)
Theorem transact_complete_tapos env issued st (transaction : Obj)
    (config : TransactConfig) :
  tapos_incomplete transaction = false ->
  (forall info st',
     transact_tapos info transaction (cfg_blocksBehind config)
       (cfg_useLastIrreversible config) (cfg_expireSeconds config) st'
     = Ret (Ok transaction, st'))
  /\ Forall (fun r => block_fetch r = false)
       (requests env issued (transact transaction config st))
  /\ (has_chainId st = true ->
      Forall (fun r => is_get_info r = false)
        (requests env issued (transact transaction config st))).
Proof.
  intros Hcomplete.
  assert (Htapos : forall info st',
    transact_tapos info transaction (cfg_blocksBehind config)
      (cfg_useLastIrreversible config) (cfg_expireSeconds config) st'
    = Ret (Ok transaction, st')).
  { intros info st'. unfold transact_tapos. by rewrite Hcomplete. }
  assert (Htriple : forall P Inv info,
    triple env P Inv
      (transact_tapos info transaction (cfg_blocksBehind config)
         (cfg_useLastIrreversible config) (cfg_expireSeconds config)) (fun _ => True)).
  { intros P Inv info. unfold transact_tapos. rewrite Hcomplete. by apply triple_ret. }
  split; [exact Htapos |]. split.
  - apply (transact_run env (fun r => block_fetch r = false) (fun _ => True)
      transaction config (fun _ => True) (fun _ => True) (fun _ => True)); try done.
    + by apply transact_chainId_triple.
    + intros transaction' _. apply transact_send_free; try done. by intros [].
  - intros Hid.
    apply (transact_run env (fun r => is_get_info r = false)
      (fun st => has_chainId st = true)
      transaction config (fun _ => True) (fun _ => True) (fun _ => True)); try done.
    + unfold transact_chainId. eapply triple_bind; [apply triple_this |].
      intros self Hself. simpl in Hself. rewrite Hself. by apply triple_ret.
    + intros transaction' _. apply transact_send_free; try done. by intros [].
Qed.

Lemma pinned_invalid_stays (transaction header : Obj) :
  pinned_invalid transaction = true ->
  hasRequiredTaposFields (assign header transaction) = false.
Proof.
  unfold pinned_invalid, hasRequiredTaposFields, assign, get. intros Hpinned.
  apply orb_true_iff in Hpinned as [Hpinned | Hprefix];
    [apply orb_true_iff in Hpinned as [Hexpiration | Hnum] |].
  - destruct (transaction !! "expiration") as [v |] eqn:Hv; [| discriminate].
    rewrite (lookup_union_Some_l _ _ _ _ Hv). simpl.
    apply negb_true_iff in Hexpiration. by rewrite Hexpiration.
  - destruct (transaction !! "ref_block_num") as [v |] eqn:Hv; [| discriminate].
    rewrite (lookup_union_Some_l _ _ "ref_block_num" _ Hv). simpl.
    apply negb_true_iff in Hnum. rewrite Hnum. by rewrite andb_false_r.
  - destruct (transaction !! "ref_block_prefix") as [v |] eqn:Hv; [| discriminate].
    rewrite (lookup_union_Some_l _ _ "ref_block_prefix" _ Hv). simpl.
    apply negb_true_iff in Hprefix. rewrite Hprefix. by rewrite andb_false_r.
Qed.

(** The run of [transact] through its phases, past the strategy check. *)
Lemma run_transact env issued st (transaction : Obj) (config : TransactConfig) :
  both_strategies config = false ->
  run env issued (transact transaction config st)
  = match run env issued (transact_chainId st) with
    | (Err e, st1, issued1) => (Err e, st1, issued1)
    | (Ok info, st1, issued1) =>
        match run env issued1
                (transact_tapos info transaction (cfg_blocksBehind config)
                   (cfg_useLastIrreversible config) (cfg_expireSeconds config) st1) with
        | (Err e, st2, issued2) => (Err e, st2, issued2)
        | (Ok transaction', st2, issued2) =>
            run env issued2
              (transact_send transaction' (default true (cfg_sign config))
                 (default true (cfg_broadcast config)) (cfg_compression config) st2)
        end
    end.
Proof.
  unfold both_strategies. intros Hexcl. unfold transact. rewrite Hexcl.
  rewrite run_bind.
  destruct (run env issued (transact_chainId st)) as [[[info | e] st1] issued1];
    [| reflexivity].
  by rewrite run_bind.
Qed.

(** X20: generation cannot repair a TAPoS field the caller has set: when
    the transaction has a field of its own that [hasRequiredTaposFields]
    rejects (a falsy [expiration], say [undefined]; a [ref_block_num] or
    [ref_block_prefix] that is not a number) and some TAPoS field is
    falsy, [transact] with a strategy and [expireSeconds] configured and a
    node that answers fetches the reference block and then throws
    'Required configuration or TAPOS fields are not present'. *)
Theorem transact_pinned_invalid env issued st (transaction : Obj)
    (config : TransactConfig) :
  tapos_incomplete transaction = true ->
  pinned_invalid transaction = true ->
  both_strategies config = false ->
  strategy_configured config = true ->
  (forall issued' r, is_ok (env issued' r) = true) ->
  (run env issued (transact transaction config st)).1.1
    = Err "Required configuration or TAPOS fields are not present"
  /\ exists r, block_fetch r = true
       /\ r ∈ requests env issued (transact transaction config st).
Proof.
  intros Hincomplete Hpinned Hexcl Hstrategy Hanswers.
  assert (Htapos : forall info st1 issued1,
    (run env issued1
       (transact_tapos info transaction (cfg_blocksBehind config)
          (cfg_useLastIrreversible config) (cfg_expireSeconds config) st1)).1.1
    = Err "Required configuration or TAPOS fields are not present"
    /\ exists r, block_fetch r = true
         /\ r ∈ requests env issued1
                (transact_tapos info transaction (cfg_blocksBehind config)
                   (cfg_useLastIrreversible config) (cfg_expireSeconds config) st1)).
  { intros info st1 issued1. unfold transact_tapos.
    unfold strategy_configured in Hstrategy. rewrite Hincomplete, Hstrategy. split.
    - rewrite run_bind.
      pose proof (generateTapos_returns env issued1 st1 info transaction
        (cfg_blocksBehind config) (cfg_useLastIrreversible config)
        (cfg_expireSeconds config) Hanswers) as Hreturns.
      pose proof (generateTapos_result env issued1 st1 info transaction
        (cfg_blocksBehind config) (cfg_useLastIrreversible config)
        (cfg_expireSeconds config)) as Hresult.
      destruct (run env issued1 (generateTapos _ _ _ _ _ _))
        as [[[result | e] st2] issued2]; [| discriminate].
      destruct (Hresult result eq_refl) as [refBlock ->].
      by rewrite pinned_invalid_stays.
    - destruct (generateTapos_fetches env issued1 st1 info transaction
        (cfg_blocksBehind config) (cfg_useLastIrreversible config)
        (cfg_expireSeconds config) (fun _ => Hanswers issued1 get_info))
        as (r & Hr & Hin).
      exists r. split; [exact Hr |]. by apply requests_bind_l. }
  pose proof (run_transact_chainId env issued st) as Hchain.
  split.
  - rewrite run_transact by done. rewrite Hchain.
    destruct (has_chainId st).
    + destruct (Htapos None st issued) as [Herr _].
      destruct (run env issued (transact_tapos _ _ _ _ _ _))
        as [[[t | e] st2] issued2]; [discriminate |].
      simpl in *. congruence.
    + pose proof (Hanswers issued get_info) as Hinfo.
      destruct (env issued get_info) as [info |]; [| discriminate].
      destruct (Htapos (Some info) (set_chainId (Some (chain_id info)) st)
        (issued ++ [get_info])) as [Herr _].
      destruct (run env (issued ++ [get_info]) (transact_tapos _ _ _ _ _ _))
        as [[[t | e] st2] issued2]; [discriminate |].
      simpl in *. congruence.
  - unfold transact. unfold both_strategies in Hexcl. rewrite Hexcl.
    destruct (has_chainId st).
    + destruct (Htapos None st issued) as [_ (r & Hr & Hin)].
      exists r. split; [exact Hr |].
      eapply requests_bind_r; [exact Hchain |]. by apply requests_bind_l.
    + pose proof (Hanswers issued get_info) as Hinfo.
      destruct (env issued get_info) as [info |]; [| discriminate].
      destruct (Htapos (Some info) (set_chainId (Some (chain_id info)) st)
        (issued ++ [get_info])) as [_ (r & Hr & Hin)].
      exists r. split; [exact Hr |].
      eapply requests_bind_r; [exact Hchain |]. by apply requests_bind_l.
Qed.

(** *** How often the chain is asked for its info *)

Lemma count_get_info_none (l : list Request) :
  Forall (fun r => is_get_info r = false) l -> count_get_info l = 0%nat.
Proof.
  unfold count_get_info. induction 1 as [| r l Hr _ IH]; simpl; [done |]. by rewrite Hr.
Qed.

Lemma count_get_info_app (l1 l2 : list Request) :
  count_get_info (l1 ++ l2) = (count_get_info l1 + count_get_info l2)%nat.
Proof. unfold count_get_info. by rewrite List.filter_app, length_app. Qed.

Lemma requests_transact_chainId env issued st :
  requests env issued (transact_chainId st) = if has_chainId st then [] else [get_info].
Proof.
  unfold requests. rewrite run_transact_chainId.
  destruct (has_chainId st); simpl; [by rewrite drop_all |].
  destruct (env issued get_info); simpl; by rewrite drop_app_length.
Qed.

(** Without an [info] of the caller's, [generateTapos] asks for one and
    goes on as if it had been handed over. *)
Lemma requests_generateTapos_None env issued st (transaction : Obj) blocksBehind
    useLastIrreversible expireSeconds :
  requests env issued
    (generateTapos None transaction blocksBehind useLastIrreversible expireSeconds st)
  = get_info ::
    match env issued get_info with
    | Ok info =>
        requests env (issued ++ [get_info])
          (generateTapos (Some info) transaction blocksBehind useLastIrreversible
             expireSeconds st)
    | Err _ => []
    end.
Proof.
  unfold generateTapos. rewrite requests_bind.
  change (run env issued (await get_info st))
    with (env issued get_info, st, issued ++ [get_info]).
  destruct (env issued get_info) as [info | e];
    refine (f_equal2 (@app _) (requests_await env issued get_info st) _); reflexivity.
Qed.

Lemma count_transact_tapos env issued st info (transaction : Obj) blocksBehind
    useLastIrreversible expireSeconds :
  (count_get_info
     (requests env issued
        (transact_tapos info transaction blocksBehind useLastIrreversible
           expireSeconds st))
   <= match info with Some _ => 0 | None => 1 end)%nat.
Proof.
  destruct info as [info |].
  - rewrite count_get_info_none; [lia |].
    eapply triple_requests; [| exact Logic.I].
    by apply (transact_tapos_triple env (fun r => is_get_info r = false) (fun _ => True)).
  - unfold transact_tapos.
    destruct (tapos_incomplete transaction);
      [| unfold ret; rewrite requests_ret; unfold count_get_info; simpl; lia].
    rewrite requests_bind, count_get_info_app.
    assert (Hcheck : count_get_info
      match
        run env issued
          ((if (given blocksBehind || flag useLastIrreversible) && nonzero expireSeconds
            then generateTapos None transaction blocksBehind useLastIrreversible
                   expireSeconds
            else ret transaction) st)
      with
      | (Ok a, st', issued') =>
          requests env issued'
            ((if negb (hasRequiredTaposFields a)
              then throw "Required configuration or TAPOS fields are not present"
              else ret a) st')
      | (Err _, _, _) => []
      end = 0%nat).
    { destruct (run env issued _) as [[[a | e] st'] issued']; [| reflexivity].
      destruct (negb (hasRequiredTaposFields a)); unfold throw, ret;
        by rewrite requests_ret. }
    rewrite Hcheck.
    destruct ((given blocksBehind || flag useLastIrreversible) && nonzero expireSeconds);
      [| unfold ret; rewrite requests_ret; unfold count_get_info; simpl; lia].
    rewrite requests_generateTapos_None.
    change (count_get_info (get_info :: ?l)) with (S (count_get_info l)).
    rewrite count_get_info_none; [lia |].
    destruct (env issued get_info) as [info | e]; [| constructor].
    eapply triple_requests; [| exact Logic.I].
    by apply (generateTapos_triple env (fun r => is_get_info r = false) (fun _ => True)).
Qed.

(** X21: one [transact] asks the chain for its info at most once: the
    answer fetched for the chain id is handed on to [generateTapos], which
    asks only when it was handed none, and nothing after the TAPoS step
    asks again. Without a cached chain id the request comes first. *)
Theorem transact_asks_info_once env issued st (transaction : Obj)
    (config : TransactConfig) :
  (count_get_info (requests env issued (transact transaction config st)) <= 1)%nat
  /\ (both_strategies config = false -> has_chainId st = false ->
      exists rest,
        requests env issued (transact transaction config st) = get_info :: rest
        /\ Forall (fun r => is_get_info r = false) rest).
Proof.
  set (quiet := fun r : Request => is_get_info r = false).
  assert (Hsend : forall transaction',
    triple env quiet (fun _ => True)
      (transact_send transaction' (default true (cfg_sign config))
         (default true (cfg_broadcast config)) (cfg_compression config)) (fun _ => True)).
  { intros transaction'. apply transact_send_free; try done. by intros []. }
  assert (Hhanded : forall info,
    triple env quiet (fun _ => True)
      (bind (transact_tapos (Some info) transaction (cfg_blocksBehind config)
               (cfg_useLastIrreversible config) (cfg_expireSeconds config))
            (fun transaction' =>
               transact_send transaction' (default true (cfg_sign config))
                 (default true (cfg_broadcast config)) (cfg_compression config)))
      (fun _ => True)).
  { intros info. eapply triple_bind; [| intros transaction' _; apply Hsend].
    by apply transact_tapos_triple. }
  unfold transact. cbv zeta. unfold both_strategies.
  destruct (given (cfg_blocksBehind config) && flag (cfg_useLastIrreversible config)).
  { split; [| discriminate]. unfold throw. rewrite requests_ret.
    unfold count_get_info. simpl. lia. }
  rewrite requests_bind, requests_transact_chainId, run_transact_chainId.
  destruct (has_chainId st).
  - split; [| intros _ Hid; discriminate]. rewrite app_nil_l.
    rewrite requests_bind, count_get_info_app.
    pose proof (count_transact_tapos env issued st None transaction
      (cfg_blocksBehind config) (cfg_useLastIrreversible config)
      (cfg_expireSeconds config)) as Htapos. simpl in Htapos.
    destruct (run env issued (transact_tapos None _ _ _ _ _))
      as [[[transaction' | e] st'] issued'];
      [| change (count_get_info []) with 0%nat; lia].
    rewrite (count_get_info_none (requests env issued' _)); [lia |].
    eapply triple_requests; [apply Hsend | exact Logic.I].
  - destruct (env issued get_info) as [info | e].
    + split.
      * rewrite count_get_info_app, (count_get_info_none (requests _ _ _));
          [unfold count_get_info; simpl; lia
          | eapply triple_requests; [apply Hhanded | exact Logic.I]].
      * intros _ _. eexists. split; [reflexivity |].
        eapply triple_requests; [apply Hhanded | exact Logic.I].
    + split; [unfold count_get_info; simpl; lia |].
      intros _ _. by exists [].
Qed.

(** *** Actions, converted one by one *)

Lemma serializeActions_each env (l : list Action) :
  triple env (fun r => is_getRawAbi r = true) (fun _ => True)
    (serializeActions l) (Forall2 serialized_from l).
Proof.
  unfold serializeActions. apply triple_Promise_all_each. intros a.
  eapply triple_bind; [by apply getContract_triple |]. intros contract _.
  apply triple_leaf. intros s Hs. by exists contract.
Qed.

Lemma deserializeActions_each env (l : list Action) :
  triple env (fun r => is_getRawAbi r = true) (fun _ => True)
    (deserializeActions l) (Forall2 deserialized_from l).
Proof.
  unfold deserializeActions. apply triple_Promise_all_each. intros a.
  eapply triple_bind; [by apply getContract_triple |]. intros contract _.
  apply triple_leaf. intros d Hd. by exists contract.
Qed.

(** The task of [serializeActions] and [deserializeActions] for one action,
    started when the tasks before it have left their requests: it asks for
    the ABI of its account exactly when neither the contract nor the ABI
    was at hand at the call. *)
Lemma getContract_task env (g : Contract -> Action -> Result Action) (a : Action) st0 st :
  cachedAbis st = cachedAbis st0 ->
  (forall x, cachedAbis st0 !! x = None -> contracts st !! x = contracts st0 !! x) ->
  let task := bind (getContract (account a) false) (fun contract => lift (g contract a)) in
  if contract_needed false st0 (account a)
  then exists k, task st = Vis (getRawAbi (account a)) st k
                 /\ forall answer, silent env (k answer)
  else exists result st1,
         task st = Ret (result, st1)
         /\ cachedAbis st1 = cachedAbis st0
         /\ (forall x, cachedAbis st0 !! x = None ->
               contracts st1 !! x = contracts st0 !! x).
Proof.
  intros Habis Hcontracts task. subst task.
  unfold contract_needed, abi_needed, cache_hit.
  unfold getContract, getAbi, getCachedAbi, bind, try_catch, this, await, lift, ret,
    throw, set_this.
  simpl.
  destruct (cachedAbis st0 !! account a) as [cached |] eqn:Hab.
  - assert (Hnot : (match contracts st0 !! account a with
                    | Some _ => false
                    | None => false
                    end) = false) by (by destruct (contracts st0 !! account a)).
    rewrite Hnot.
    assert (Hkept : forall v x, cachedAbis st0 !! x = None ->
      contracts (set_contracts (<[account a := v]> (contracts st)) st) !! x
      = contracts st0 !! x).
    { intros v x Hx. simpl. rewrite lookup_insert_ne; [by apply Hcontracts |].
      intros <-. by rewrite Hab in Hx. }
    destruct (contracts st !! account a) as [c |]; simpl.
    + by eexists _, st.
    + rewrite Habis, Hab. simpl.
      destruct (getTypesFromAbi (cached_abi cached)) as [types |]; simpl;
        [| by eexists _, st].
      destruct (contract_actions types ∅ (abi_actions (cached_abi cached))); simpl;
        [| by eexists _, st].
      eexists _, _. split; [reflexivity |]. split; [exact Habis | apply Hkept].
  - rewrite (Hcontracts _ Hab).
    destruct (contracts st0 !! account a) as [c |]; simpl.
    + by eexists _, st.
    + rewrite Habis, Hab. simpl. eexists. split; [reflexivity |].
      intros [response | e] st' _; simpl; [| done].
      destruct (rawAbiToJson (abi response)) as [json |]; simpl; [| done].
      destruct (getTypesFromAbi json) as [types |]; simpl; [| done].
      destruct (contract_actions types ∅ (abi_actions json)); simpl; done.
Qed.

Lemma requests_getContract_tasks env (g : Contract -> Action -> Result Action)
    (l : list Action) issued st :
  requests env issued
    (Promise_all
       (fun a => bind (getContract (account a) false) (fun contract => lift (g contract a)))
       l st)
  = getRawAbi <$> List.filter (contract_needed false st) (account <$> l).
Proof.
  rewrite (requests_Promise_all env _
    (fun a => if contract_needed false st (account a)
              then Some (getRawAbi (account a)) else None)
    (fun st' => cachedAbis st' = cachedAbis st
                /\ forall x, cachedAbis st !! x = None ->
                     contracts st' !! x = contracts st !! x)); [| | done].
  - induction l as [| a l IH]; [reflexivity |].
    cbn [omap list_omap fmap list_fmap List.filter].
    destruct (contract_needed false st (account a)); [| exact IH].
    cbn [fmap list_fmap]. by rewrite IH.
  - intros a st' [Habis Hcontracts].
    pose proof (getContract_task env g a st st' Habis Hcontracts) as Ha.
    cbv zeta in Ha. by destruct (contract_needed false st (account a)).
Qed.


(** X22: [serializeActions] and [deserializeActions] start one task for
    each action.  The requests they issue are one [getRawAbi] for every
    action whose account has neither its contract nor its ABI at hand when
    they are called, in the order of the actions and whatever the provider
    answers: two actions of one uncached account make two requests, and a
    rejected request does not hold back the later ones.  When they return,
    the result has one converted action for each action given, in the
    order given, each made by [ser.serializeAction] (or
    [ser.deserializeAction]) from the account, name, authorization and data
    of the action at its place. *)
Theorem actions_converted_in_order env issued st (l : list Action) :
  (requests env issued (serializeActions l st)
   = getRawAbi <$> List.filter (contract_needed false st) (account <$> l)
   /\ forall result,
        (run env issued (serializeActions l st)).1.1 = Ok result ->
        Forall2 serialized_from l result /\ length result = length l)
  /\ (requests env issued (deserializeActions l st)
      = getRawAbi <$> List.filter (contract_needed false st) (account <$> l)
      /\ forall result,
           (run env issued (deserializeActions l st)).1.1 = Ok result ->
           Forall2 deserialized_from l result /\ length result = length l).
Proof.
  split.
  - destruct (triple_run _ _ _ _ _ (serializeActions_each env l) issued st Logic.I)
      as (_ & _ & Hresult).
    split.
    + apply (requests_getContract_tasks env
        (fun contract a =>
           serializeAction contract (account a) (name a) (authorization a) (data a))).
    + intros result Hrun. specialize (Hresult result Hrun).
      split; [exact Hresult |]. symmetry. by eapply Forall2_length.
  - destruct (triple_run _ _ _ _ _ (deserializeActions_each env l) issued st Logic.I)
      as (_ & _ & Hresult).
    split.
    + apply (requests_getContract_tasks env
        (fun contract a =>
           deserializeAction contract (account a) (name a) (authorization a) (data a))).
    + intros result Hrun. specialize (Hresult result Hrun).
      split; [exact Hresult |]. symmetry. by eapply Forall2_length.
Qed.

(** X23: [deserializeTransactionWithActions] takes a hex string or the
    bytes themselves, asks nobody but the ABI provider, and answers with
    the deserialized transaction in which [actions] and
    [context_free_actions] are replaced by their deserialized forms, action
    by action; every other property is the deserialized transaction's.
    Its first requests are those of the context-free actions, one for each
    action whose account has neither contract nor ABI at hand; the actions
    are only looked at when those tasks have settled. *)
Theorem deserializeTransactionWithActions_result env issued st
    (transaction : string + bytes) :
  Forall (fun r => is_getRawAbi r = true)
    (requests env issued (deserializeTransactionWithActions transaction st))
  /\ forall result,
       (run env issued (deserializeTransactionWithActions transaction st)).1.1
         = Ok result ->
       exists array deserialized cfa acts cfa' acts',
         match transaction with
         | inl hex => hexToUint8Array hex = Ok array
         | inr given => array = given
         end
         /\ deserializeTransaction array = Ok deserialized
         /\ deserialized !! "context_free_actions" = Some (JActions cfa)
         /\ deserialized !! "actions" = Some (JActions acts)
         /\ Forall2 deserialized_from cfa cfa'
         /\ Forall2 deserialized_from acts acts'
         /\ result !! "context_free_actions" = Some (JActions cfa')
         /\ result !! "actions" = Some (JActions acts')
         /\ (forall k, k <> "actions" -> k <> "context_free_actions" ->
               result !! k = deserialized !! k)
         /\ exists later,
              requests env issued (deserializeTransactionWithActions transaction st)
              = (getRawAbi <$> List.filter (contract_needed false st) (account <$> cfa))
                ++ later.
Proof.
  assert (Hfirst : forall array deserialized cfa,
    match transaction with
    | inl hex => hexToUint8Array hex = Ok array
    | inr given => array = given
    end ->
    deserializeTransaction array = Ok deserialized ->
    deserialized !! "context_free_actions" = Some (JActions cfa) ->
    exists later,
      requests env issued (deserializeTransactionWithActions transaction st)
      = (getRawAbi <$> List.filter (contract_needed false st) (account <$> cfa))
        ++ later).
  { intros array deserialized cfa Harray Hdeserialized Hcfa.
    unfold deserializeTransactionWithActions.
    assert (forall B (f : bytes -> M B),
      bind match transaction with
           | inl hex => lift (hexToUint8Array hex)
           | inr array => ret array
           end f st = f array st) as ->.
    { intros B f. destruct transaction as [hex | given]; [| by subst].
      unfold bind, lift. by rewrite Harray. }
    unfold bind at 1, lift at 1. rewrite Hdeserialized. cbn [prog_bind].
    unfold get at 1. rewrite Hcfa. cbn [default as_actions].
    rewrite requests_bind. eexists. f_equal.
    apply (requests_getContract_tasks env
      (fun contract a =>
         deserializeAction contract (account a) (name a) (authorization a) (data a))). }
  assert (Has : forall (o : Obj) k l,
    as_actions (get o k) = Ok l -> o !! k = Some (JActions l)).
  { intros o k l. unfold get. destruct (o !! k) as [[] |]; simpl; congruence. }
  set (Q := fun result : Obj =>
    exists array deserialized cfa acts cfa' acts',
      match transaction with
      | inl hex => hexToUint8Array hex = Ok array
      | inr given => array = given
      end
      /\ deserializeTransaction array = Ok deserialized
      /\ deserialized !! "context_free_actions" = Some (JActions cfa)
      /\ deserialized !! "actions" = Some (JActions acts)
      /\ Forall2 deserialized_from cfa cfa'
      /\ Forall2 deserialized_from acts acts'
      /\ result !! "context_free_actions" = Some (JActions cfa')
      /\ result !! "actions" = Some (JActions acts')
      /\ (forall k, k <> "actions" -> k <> "context_free_actions" ->
            result !! k = deserialized !! k)
      /\ exists later,
           requests env issued (deserializeTransactionWithActions transaction st)
           = (getRawAbi <$> List.filter (contract_needed false st) (account <$> cfa))
             ++ later).
  assert (Htriple : triple env (fun r => is_getRawAbi r = true) (fun _ => True)
    (deserializeTransactionWithActions transaction) Q).
  { unfold deserializeTransactionWithActions.
    eapply triple_bind with (Q := fun array =>
      match transaction with
      | inl hex => hexToUint8Array hex = Ok array
      | inr given => array = given
      end).
    { destruct transaction as [hex | given]; [by apply triple_leaf | by apply triple_ret]. }
    intros array Harray.
    eapply triple_bind with (Q := fun deserialized =>
      deserializeTransaction array = Ok deserialized); [by apply triple_leaf |].
    intros deserialized Hdeserialized.
    eapply triple_bind with (Q := fun cfa' =>
      exists cfa, deserialized !! "context_free_actions" = Some (JActions cfa)
                  /\ Forall2 deserialized_from cfa cfa').
    { eapply triple_bind with (Q := fun cfa =>
        deserialized !! "context_free_actions" = Some (JActions cfa)).
      - apply triple_leaf. intros cfa. apply Has.
      - intros cfa Hcfa. eapply triple_weaken; [apply deserializeActions_each |].
        intros cfa' Heach. by exists cfa. }
    intros cfa' (cfa & Hcfa & Hcfa').
    eapply triple_bind with (Q := fun acts' =>
      exists acts, deserialized !! "actions" = Some (JActions acts)
                   /\ Forall2 deserialized_from acts acts').
    { eapply triple_bind with (Q := fun acts =>
        deserialized !! "actions" = Some (JActions acts)).
      - apply triple_leaf. intros acts. apply Has.
      - intros acts Hacts. eapply triple_weaken; [apply deserializeActions_each |].
        intros acts' Heach. by exists acts. }
    intros acts' (acts & Hacts & Hacts').
    apply triple_ret. exists array, deserialized, cfa, acts, cfa', acts'.
    repeat split; try done.
    - unfold assign. apply lookup_union_Some_l.
      rewrite lookup_insert_ne by done. by rewrite lookup_singleton_eq.
    - unfold assign. apply lookup_union_Some_l. by rewrite lookup_insert_eq.
    - intros k Hactions Hcfa_key. unfold assign. apply lookup_union_r.
      rewrite lookup_insert_ne by done. by rewrite lookup_singleton_ne.
    - by apply (Hfirst array deserialized cfa). }
  destruct (triple_run _ _ _ _ _ Htriple issued st Logic.I) as (Hreq & _ & Hresult).
  by split.
Qed.

End ApiMore.

(** * The theorems on the sample collaborators *)

Section Samples.
Import Api.

Lemma header_and_recoveryParam_ranges_witness :
  let ellipticSig := {| Signature.r := 2 ^ 255 + 1; Signature.s := 2 ^ 255 + 2;
                        Signature.recoveryParam := 2 |} in
  let stored := Signature.fromElliptic ellipticSig Signature.k1 in
  Signature.header (Signature.fromElliptic ellipticSig Signature.k1) = Some 33
  /\ Signature.header (Signature.fromElliptic ellipticSig Signature.r1) = Some 2
  /\ 0 <= Signature.recoveryParam (Signature.toElliptic stored) <= 3.
Proof.
  intros ellipticSig stored.
  destruct (header_and_recoveryParam_ranges ellipticSig Signature.r1 stored)
    as (Hk1 & Hr1 & Hrange).
  split; [apply Hk1; simpl; lia |].
  split; [apply Hr1; [by left | simpl; lia] | exact Hrange].
Defined.

Lemma transact_rejects_both_strategies_witness :
  cfg_blocksBehind both_config = Some (Some 3)
  /\ cfg_useLastIrreversible both_config = Some true
  /\ run sample_env [] (@transact _ sample_codec sample_transaction both_config fresh_api)
     = (Err "Use either blocksBehind or useLastIrreversible", fresh_api, []).
Proof.
  split; [reflexivity |]. split; [reflexivity |].
  apply (@transact_rejects_both_strategies _ sample_codec sample_env [] fresh_api
           sample_transaction both_config (Some 3)); reflexivity.
Defined.

Lemma transact_incomplete_tapos_witness :
  missing_tapos_field sample_transaction = true
  /\ (run sample_env [] (@transact _ sample_codec sample_transaction empty_config fresh_api)).1.1
     = Err "Required configuration or TAPOS fields are not present"
  /\ requests sample_env [] (@transact _ sample_codec sample_transaction empty_config fresh_api)
     = [get_info].
Proof.
  split; [reflexivity |].
  apply (@transact_incomplete_tapos _ sample_codec sample_env [] fresh_api
           sample_transaction empty_config); reflexivity.
Defined.

Lemma generateTapos_caller_fields_win_witness :
  let fetched := run sample_env []
    (@generateTapos _ sample_codec None dated_transaction (Some (Some 3)) None
       (Some (Some 30)) fresh_api) in
  let generated := @transactionHeader _ sample_codec (sample_block (Some 997))
    (Some (Some 30)) in
  is_ok fetched.1.1 = true
  /\ exists refBlock : SampleBlock,
       (forall k v, dated_transaction !! k = Some v ->
          assign generated dated_transaction !! k = Some v)
       /\ (forall k, dated_transaction !! k = None ->
             assign generated dated_transaction !! k
             = @transactionHeader _ sample_codec refBlock (Some (Some 30)) !! k).
Proof.
  intros fetched generated.
  destruct (@generateTapos_caller_fields_win _ sample_codec sample_env [] fresh_api None
              dated_transaction (Some (Some 3)) None (Some (Some 30))) as [Hreturns Hfields].
  split.
  - apply Hreturns. intros issued' []; reflexivity.
  - apply (Hfields (assign generated dated_transaction)). vm_compute. reflexivity.
Defined.

Lemma generateTapos_block_selection_witness :
  taposBlockNumber sample_info (Some (Some 3)) None = Some (1000 - 3)
  /\ taposBlockNumber sample_info None (Some true) = Some 990
  /\ requests sample_env []
       (@generateTapos _ sample_codec None sample_transaction (Some (Some 3)) None
          (Some (Some 30)) fresh_api)
     = [get_info; get_block_header_state (Some 997)].
Proof.
  destruct (@generateTapos_block_selection _ sample_codec sample_env [] fresh_api
              sample_info sample_transaction (Some (Some 3)) None (Some (Some 30)))
    as (_ & Hbehind & _ & Hrequests).
  destruct (@generateTapos_block_selection _ sample_codec sample_env [] fresh_api
              sample_info sample_transaction None (Some true) (Some (Some 30)))
    as (Hlast & _).
  split; [apply Hbehind; reflexivity |].
  split; [apply Hlast; reflexivity |].
  rewrite Hrequests by reflexivity. reflexivity.
Defined.

Lemma getCachedAbi_fetches_once_until_reload_witness :
  let stored := @Build_CachedAbi sample_shapes [0] [("transfer", "transfer")] in
  let reloaded := @Build_CachedAbi sample_shapes [1] [("transfer", "transfer")] in
  (exists st1,
     run sample_env [] (@getCachedAbi_twice _ sample_codec "eosio.token" fresh_api)
     = (Ok (stored, stored), st1, [getRawAbi "eosio.token"])
     /\ cachedAbis st1 !! "eosio.token" = Some stored)
  /\ (exists st2,
        run sample_env []
          (@getCachedAbi_twice_then_reload _ sample_codec "eosio.token" fresh_api)
        = (Ok (stored, stored, reloaded), st2,
           [getRawAbi "eosio.token"; getRawAbi "eosio.token"])
        /\ cachedAbis st2 !! "eosio.token" = Some reloaded).
Proof.
  apply (@getCachedAbi_fetches_once_until_reload _ sample_codec sample_env [] fresh_api
           "eosio.token"
           (@Build_BinaryAbi "eosio.token" [0]) (@Build_BinaryAbi "eosio.token" [1])
           [("transfer", "transfer")] [("transfer", "transfer")]); reflexivity.
Defined.

Lemma transact_zero_ref_block_num_witness :
  get zero_ref_transaction "ref_block_num" = JNum (Some 0)
  /\ tapos_incomplete zero_ref_transaction = true
  /\ hasRequiredTaposFields zero_ref_transaction = true
  /\ exists r : @Request sample_shapes, block_fetch r = true
       /\ r ∈ requests sample_env []
                (@transact _ sample_codec zero_ref_transaction behind_config fresh_api).
Proof.
  split; [reflexivity |].
  apply (@transact_zero_ref_block_num _ sample_codec sample_env [] fresh_api
           zero_ref_transaction behind_config); reflexivity.
Defined.

(** With the node down and no chain id, the call of C4 ends on the rejected
    [get_info]; nothing else is requested. *)
Example transact_incomplete_tapos_node_down :
  run down_env [] (@transact _ sample_codec sample_transaction empty_config fresh_api)
  = (Err "connect ECONNREFUSED", fresh_api, [get_info]).
Proof. reflexivity. Qed.

(** The scenario of section 8 of the spec: one transfer, [broadcast = false],
    [blocksBehind = 3], [expireSeconds = 30]. *)
Example transact_scenario :
  let outcome :=
    run sample_env [] (@transact _ sample_codec sample_transaction behind_config fresh_api) in
  outcome.1.1
  = Ok (Unsent {| signatures := ["SIG_K1_sample"]; compression := None;
                  serializedTransaction := [0]; serializedContextFreeData := None |})
  /\ length outcome.2 = 6%nat
  /\ signed_keys outcome.2 = [["EOS_required"]]
  /\ authority_asked outcome.2 = true.
Proof. vm_compute. repeat split. Qed.

(** The same call on an [Api] built with [requiredKeys], and with another
    list in the config: the constructor's keys are signed with, the
    authority provider is not asked. *)
Example transact_scenario_override :
  let outcome :=
    run sample_env []
      (@transact _ sample_codec sample_transaction
         (with_requiredKeys (Some ["EOS_config"]) behind_config) api_with_requiredKeys) in
  signed_keys outcome.2 = [["EOS_override"]]
  /\ authority_asked outcome.2 = false.
Proof. vm_compute. repeat split. Qed.

(** Two actions of one account, with nothing cached: each task asks for the
    ABI, and each action is serialized. *)
Example serializeActions_same_account :
  let outcome :=
    run sample_env []
      (@serializeActions _ sample_codec [sample_transfer; sample_transfer] fresh_api) in
  outcome.1.1 = Ok [sample_transfer; sample_transfer]
  /\ outcome.2 = [getRawAbi "eosio.token"; getRawAbi "eosio.token"].
Proof. vm_compute. by split. Qed.

(** Two accounts, the ABI of the first cannot be fetched: both requests
    leave, the call throws the first failure, and the ABI of the second
    account is cached all the same. *)
Example getTransactionAbis_failure_beside_success :
  let outcome :=
    run flaky_env []
      (@getTransactionAbis _ sample_codec two_account_transaction false fresh_api) in
  outcome.1.1 = Err "fetching abi for eosio.token: connect ECONNREFUSED"
  /\ outcome.2 = [getRawAbi "eosio.token"; getRawAbi "eosio.msig"]
  /\ (@cachedAbis sample_shapes outcome.1.2 : gmap string (@CachedAbi sample_shapes))
     !! "eosio.token" = None
  /\ @cached_rawAbi sample_shapes
     <$> (@cachedAbis sample_shapes outcome.1.2 : gmap string (@CachedAbi sample_shapes))
         !! "eosio.msig"
     = Some [1].
Proof. vm_compute. by repeat split. Qed.

(** *** The further properties on the sample collaborators *)

Lemma transact_signs_with_constructor_keys_witness :
  let signed :=
    requests sample_env []
      (@transact _ sample_codec sample_transaction
         (with_requiredKeys (Some ["EOS_config"]) behind_config) api_with_requiredKeys) in
  cfg_sign behind_config <> Some false
  /\ is_ok (run sample_env []
              (@transact _ sample_codec sample_transaction
                 (with_requiredKeys (Some ["EOS_config"]) behind_config)
                 api_with_requiredKeys)).1.1 = true
  /\ signs_once sample_env (Some ["EOS_override"]) signed
  /\ signed_keys signed = [["EOS_override"]].
Proof.
  intros signed. split; [discriminate |]. split; [reflexivity |].
  split; [| reflexivity].
  destruct (@transact_signs_with_constructor_keys _ sample_codec sample_env []
              api_with_requiredKeys sample_transaction
              (with_requiredKeys (Some ["EOS_config"]) behind_config))
    as (_ & _ & Hsigns).
  eapply (Hsigns ltac:(discriminate)). reflexivity.
Defined.

Lemma fromElliptic_buffer_length_witness :
  let ellipticSig := {| Signature.r := 258; Signature.s := 2 ^ 255;
                        Signature.recoveryParam := 1 |} in
  Signature.data (Signature.fromElliptic ellipticSig Signature.k1)
  = 32 :: Signature.toArray 258 ++ Signature.toArray (2 ^ 255)
  /\ (3 <= length (Signature.data (Signature.fromElliptic ellipticSig Signature.k1)) <= 65)%nat
  /\ (length (Signature.data (Signature.fromElliptic ellipticSig Signature.k1)) = 65%nat
      <-> 2 ^ 248 <= 258 /\ 2 ^ 248 <= 2 ^ 255).
Proof.
  intros ellipticSig.
  apply (fromElliptic_buffer_length ellipticSig Signature.k1); simpl; lia.
Defined.

Lemma fromElliptic_toElliptic_full_width_witness :
  let ellipticSig := {| Signature.r := 2 ^ 255 + 1; Signature.s := 2 ^ 255 + 2;
                        Signature.recoveryParam := 2 |} in
  length (Signature.data (Signature.fromElliptic ellipticSig Signature.k1)) = 65%nat
  /\ Signature.toElliptic (Signature.fromElliptic ellipticSig Signature.k1)
     = {| Signature.r := 2 ^ 255 + 1; Signature.s := 2 ^ 255 + 2;
          Signature.recoveryParam := Z.land 2 3 |}.
Proof.
  intros ellipticSig.
  apply (fromElliptic_toElliptic_full_width ellipticSig Signature.k1); simpl; lia.
Defined.

Lemma toElliptic_fromElliptic_canonical_witness :
  Signature.fromElliptic (Signature.toElliptic Signature.sample_stored) Signature.k1
  = Signature.sample_stored.
Proof.
  apply (toElliptic_fromElliptic_canonical Signature.sample_stored 31
           (repeat 1 32) (repeat 2 32)).
  - split; [reflexivity |]. split; [reflexivity |]. split; [reflexivity |].
    split; simpl; repeat (constructor; [unfold Signature.is_byte; lia |]); constructor.
  - discriminate.
  - discriminate.
  - simpl. lia.
Defined.

Lemma jsonToRawAbi_accepted_witness :
  let jsonAbi : @Abi sample_shapes := [("transfer", "transfer")] in
  @jsonToRawAbi _ sample_codec sample_decoder jsonAbi = Ok [14; 101]
  /\ @serialize_abi_def _ sample_decoder jsonAbi = Ok [14; 101]
  /\ @rawAbiToJson _ sample_codec [14; 101] = @deserialize_abi_def _ sample_codec [14; 101].
Proof.
  intros jsonAbi. split; [reflexivity |].
  apply (@jsonToRawAbi_accepted _ sample_codec sample_decoder jsonAbi [14; 101]).
  reflexivity.
Defined.

Lemma getCachedAbi_failure_witness :
  cachedAbis fresh_api !! "eosio.token" = None
  /\ down_env [] (getRawAbi "eosio.token") = Err "connect ECONNREFUSED"
  /\ run down_env [] (@getCachedAbi _ sample_codec "eosio.token" false fresh_api)
     = (Err ("fetching abi for " +:+ "eosio.token" +:+ ": " +:+ "connect ECONNREFUSED"),
        fresh_api, [] ++ [getRawAbi "eosio.token"]).
Proof.
  split; [reflexivity |]. split; [reflexivity |].
  apply (@getCachedAbi_failure _ sample_codec down_env [] fresh_api "eosio.token" false
           "connect ECONNREFUSED").
  - right. reflexivity.
  - left. reflexivity.
Defined.

Lemma getContract_cached_witness :
  exists contract st' issued',
    run sample_env [] (@getContract _ sample_codec "eosio.token" false fresh_api)
    = (Ok contract, st', issued')
    /\ issued' = [getRawAbi "eosio.token"]
    /\ contracts st' !! "eosio.token" = Some contract
    /\ run sample_env issued' (@getContract _ sample_codec "eosio.token" false st')
       = (Ok contract, st', issued').
Proof.
  eexists _, _, _. split; [reflexivity |]. split; [reflexivity |].
  destruct (@getContract_cached _ sample_codec sample_env [] fresh_api "eosio.token" false
              _ _ _ eq_refl) as (Hstored & Hagain & _).
  split; [exact Hstored | exact Hagain].
Defined.

Lemma transact_without_broadcast_witness :
  cfg_broadcast behind_config = Some false
  /\ Forall (fun r => is_push_transaction r = false)
       (requests sample_env []
          (@transact _ sample_codec sample_transaction behind_config fresh_api)).
Proof.
  split; [reflexivity |].
  apply (@transact_without_broadcast _ sample_codec sample_env [] fresh_api
           sample_transaction behind_config).
  reflexivity.
Defined.

Lemma transact_without_sign_witness :
  cfg_sign unsigned_config = Some false
  /\ Forall (fun r => is_signing r = false
                      /\ match r with
                         | push_transaction args => signatures args = []
                         | _ => True
                         end)
       (requests sample_env []
          (@transact _ sample_codec sample_transaction unsigned_config fresh_api)).
Proof.
  split; [reflexivity |].
  apply (@transact_without_sign _ sample_codec sample_env [] fresh_api
           sample_transaction unsigned_config).
  reflexivity.
Defined.

Lemma transact_complete_tapos_witness :
  tapos_incomplete complete_transaction = false
  /\ Forall (fun r => block_fetch r = false)
       (requests sample_env []
          (@transact _ sample_codec complete_transaction behind_config fresh_api))
  /\ Forall (fun r => is_get_info r = false)
       (requests sample_env []
          (@transact _ sample_codec complete_transaction behind_config api_with_chainId)).
Proof.
  split; [reflexivity |].
  destruct (@transact_complete_tapos _ sample_codec sample_env [] fresh_api
              complete_transaction behind_config eq_refl) as (_ & Hblocks & _).
  destruct (@transact_complete_tapos _ sample_codec sample_env [] api_with_chainId
              complete_transaction behind_config eq_refl) as (_ & _ & Hinfo).
  split; [exact Hblocks | apply Hinfo; reflexivity].
Defined.

Lemma transact_pinned_invalid_witness :
  tapos_incomplete undated_transaction = true
  /\ pinned_invalid undated_transaction = true
  /\ both_strategies behind_config = false
  /\ strategy_configured behind_config = true
  /\ (run sample_env []
        (@transact _ sample_codec undated_transaction behind_config fresh_api)).1.1
     = Err "Required configuration or TAPOS fields are not present"
  /\ exists r : @Request sample_shapes, block_fetch r = true
       /\ r ∈ requests sample_env []
                (@transact _ sample_codec undated_transaction behind_config fresh_api).
Proof.
  split; [reflexivity |]. split; [reflexivity |].
  split; [reflexivity |]. split; [reflexivity |].
  apply (@transact_pinned_invalid _ sample_codec sample_env [] fresh_api
           undated_transaction behind_config); try reflexivity.
  intros issued' []; reflexivity.
Defined.

(** C7 as the spec words it fails: the items are not written verbatim.  For
    the items [[1, 2]] and [[3]] the buffer is the count 2, then the length
    2 and the bytes 1, 2, then the length 1 and the byte 3, and not the
    count followed by 1, 2, 3. *)
Lemma serializeContextFreeData_not_verbatim :
  @serializeContextFreeData _ sample_codec (JBuffers [[1; 2]; [3]])
  = Ok (Some [2; 2; 1; 2; 1; 3])
  /\ @serializeContextFreeData _ sample_codec (JBuffers [[1; 2]; [3]])
     <> Ok (Some (@varuint32 _ sample_codec 2 ++ [1; 2] ++ [3])).
Proof. split; [reflexivity | discriminate]. Qed.

End Samples.
